(** * BlazeCraft Enhanced engine: the simulation tick

    A shallow embedding of the simulation core of
    [src/blazecraft-enhanced/engine.js]: the per-tick action resolver
    ([processActions]), the scripted opponent ([processAI]), the production
    queue ([processProduction]), walkability ([isWalkable]) and the fog of
    war ([updateFog], [toggleFog]), followed by the properties of the
    engine's specification that were checked against it.

    Numbers.  Grid coordinates, identifiers, counters and gold are integers in
    the engine and are [Z] here.  Hit points are binary64 floats, as in the
    engine: [target.hp -= def.attack * 0.2] and [target.hp <= 0] are the
    IEEE operations of [PrimFloat], so a unit dies on the hit on which it
    dies in the engine.  The reward accumulators, which the simulation never
    reads, are held as exact rationals [Q] ([+= 0.05] is [+ 1#20]).

    Objects.  JavaScript units are mutable objects shared by reference
    between the array being iterated and [state.units].  Inside
    [processActions] the array iterated by [for (const u of state.units)] is
    the heap [objs] (object [i] is the i-th element of that array) and
    [state.units] is the list [live] of references into it. *)

From Stdlib Require Import ZArith QArith Lqa Lia List Bool.
From Stdlib Require Import Floats.
From stdpp Require Import base tactics option list relations.

Local Open Scope Z_scope.

(** ** Configuration ([CONFIG]) *)

Inductive unit_type := resource | base | barracks | worker | light | heavy | ranged.

Definition unit_type_eqb (a b : unit_type) : bool :=
  match a, b with
  | resource, resource | base, base | barracks, barracks | worker, worker
  | light, light | heavy, heavy | ranged, ranged => true
  | _, _ => false
  end.

Module Def.
Record t := mk
  { hp : Z; speed : Z; attack : Z; range : Z; cost : Z; buildTime : Z;
    isBuilding : bool }.
End Def.

Module CONFIG.
Definition GRID_W : Z := 16.
Definition GRID_H : Z := 16.
Definition VISION_RANGE : Z := 4.

Definition UNIT_TYPES (ty : unit_type) : Def.t :=
  match ty with
  | resource => Def.mk 99 0 0 0 0 0 true
  | base     => Def.mk 10 0 0 0 200 200 true
  | barracks => Def.mk 6 0 0 0 150 150 true
  | worker   => Def.mk 1 1 1 1 50 50 false
  | light    => Def.mk 2 2 2 1 100 80 false
  | heavy    => Def.mk 4 1 4 1 150 120 false
  | ranged   => Def.mk 1 1 2 3 120 100 false
  end.
End CONFIG.

(** ** Units *)

(** [u.action], one of the strings of [CONFIG.ACTIONS]. *)
Inductive Action := noop | move | harvest | return_ | produce | attack.

Definition action_eqb (a b : Action) : bool :=
  match a, b with
  | noop, noop | move, move | harvest, harvest | return_, return_
  | produce, produce | attack, attack => true
  | _, _ => false
  end.

(** [u.target]: [null], a cell object [{x, y}], or the [id] of a unit. *)
Inductive Target := null | cell_ (x y : Z) | unit_ (id : Z).

(** JavaScript truthiness of [u.target]: [null] and the number 0 are falsy. *)
Definition truthy (t : Target) : bool :=
  match t with
  | null => false
  | cell_ _ _ => true
  | unit_ i => negb (i =? 0)
  end.

Module Unit.
Record t := mk
  { id : Z; type : unit_type; owner : Z;
    gx : Z; gy : Z;
    hp : float; maxHp : Z;
    action : Action; target : Target;
    progress : Z; carrying : Z }.

Definition set_pos (x y : Z) (u : t) : t :=
  mk (id u) (type u) (owner u) x y (hp u) (maxHp u) (action u) (target u)
     (progress u) (carrying u).
Definition set_hp (h : float) (u : t) : t :=
  mk (id u) (type u) (owner u) (gx u) (gy u) h (maxHp u) (action u) (target u)
     (progress u) (carrying u).
Definition set_action (a : Action) (u : t) : t :=
  mk (id u) (type u) (owner u) (gx u) (gy u) (hp u) (maxHp u) a (target u)
     (progress u) (carrying u).
Definition set_target (g : Target) (u : t) : t :=
  mk (id u) (type u) (owner u) (gx u) (gy u) (hp u) (maxHp u) (action u) g
     (progress u) (carrying u).
Definition set_progress (p : Z) (u : t) : t :=
  mk (id u) (type u) (owner u) (gx u) (gy u) (hp u) (maxHp u) (action u)
     (target u) p (carrying u).
Definition set_carrying (c : Z) (u : t) : t :=
  mk (id u) (type u) (owner u) (gx u) (gy u) (hp u) (maxHp u) (action u)
     (target u) (progress u) c.

(** [u.action = 'noop'; u.target = null] *)
Definition stop (u : t) : t := set_target null (set_action noop u).
End Unit.

(** ** Rewards, events, production orders, state *)

Module Rewards.
Record t := mk
  { winLoss : Q; resources : Q; workers : Q; buildings : Q;
    attack : Q; combat : Q }.

Definition add_resources (q : Q) (r : t) : t :=
  mk (winLoss r) (resources r + q)%Q (workers r) (buildings r) (attack r) (combat r).
Definition add_workers (q : Q) (r : t) : t :=
  mk (winLoss r) (resources r) (workers r + q)%Q (buildings r) (attack r) (combat r).
Definition add_attack (q : Q) (r : t) : t :=
  mk (winLoss r) (resources r) (workers r) (buildings r) (attack r + q)%Q (combat r).
Definition add_combat (q : Q) (r : t) : t :=
  mk (winLoss r) (resources r) (workers r) (buildings r) (attack r) (combat r + q)%Q.

(** Every accumulator of [b] is at least the one of [a]. *)
Definition le (a b : t) : Prop :=
  (winLoss a <= winLoss b)%Q /\ (resources a <= resources b)%Q /\
  (workers a <= workers b)%Q /\ (buildings a <= buildings b)%Q /\
  (attack a <= attack b)%Q /\ (combat a <= combat b)%Q.
End Rewards.

(** What the engine emits: the particle emitters and the [log] lines of the
    simulation, in call order. *)
Inductive event :=
  | emitExplosion (x y : Z)
  | emitHarvest (x y : Z)
  | emitSpawn (x y : Z)
  | log_returned
  | log_destroyed (attacker victim : unit_type)
  | log_produced (ty : unit_type) (x y : Z).

Module Order.
Record t := mk
  { unitType : unit_type; gx : Z; gy : Z; progress : Z; total : Z }.
End Order.

Record state := mkState
  { units : list Unit.t;
    grid : list (list Z);       (* terrain: 0=free, 1=wall, 2=resource *)
    fogGrid : list (list Z);    (* 0=hidden, 1=explored, 2=visible *)
    gold : Z;                   (* state.resources.gold *)
    res_workers : Z;            (* state.resources.workers *)
    cycle : Z;
    fogEnabled : bool;
    events : list event;
    rewards : Rewards.t;
    prodQueue : list Order.t;
    nextUnitId : Z }.

(** ** Walkability *)

(** [state.grid[y][x]], read after the bounds check of [isWalkable]. *)
Definition cell (g : list (list Z)) (x y : Z) : option Z :=
  g !! Z.to_nat y ≫= λ row, row !! Z.to_nat x.

Definition at_cell (x y : Z) (u : Unit.t) : bool :=
  (Unit.gx u =? x) && (Unit.gy u =? y).

Definition isWalkable (g : list (list Z)) (us : list Unit.t) (x y : Z) : bool :=
  if (x <? 0) || (x >=? CONFIG.GRID_W) || (y <? 0) || (y >=? CONFIG.GRID_H)
  then false
  else if bool_decide (cell g x y = Some 1) then false
  else negb (existsb (at_cell x y) us).

(** ** The action resolver *)

(** The state of one [processActions] pass.  [objs] is the array the loop
    iterates over; [live] is [state.units], a list of references into it that
    [filter] shortens when a unit is destroyed. *)
Record world := mkWorld
  { objs : list Unit.t;
    live : list nat;
    w_gold : Z;
    w_rewards : Rewards.t;
    w_events : list event }.

(** The units [state.units] currently holds. *)
Definition registry (w : world) : list Unit.t :=
  omap (λ r, objs w !! r) (live w).

(** [state.units.find(p)], as a reference and the object it denotes. *)
Fixpoint find_ref (p : Unit.t → bool) (os : list Unit.t) (rs : list nat)
  : option (nat * Unit.t) :=
  match rs with
  | [] => None
  | r :: rs' =>
      match os !! r with
      | Some o => if p o then Some (r, o) else find_ref p os rs'
      | None => find_ref p os rs'
      end
  end.

(** The test [x => x.id !== id] of the [filter] that destroys a unit, on the
    object a reference denotes. *)
Definition other_id (os : list Unit.t) (id : Z) (r : nat) : bool :=
  match os !! r with
  | Some x => negb (Unit.id x =? id)
  | None => true
  end.

(** A field assignment on object [i]. *)
Definition mutate (i : nat) (f : Unit.t → Unit.t) (w : world) : world :=
  mkWorld (alter f i (objs w)) (live w) (w_gold w) (w_rewards w) (w_events w).

Definition emit (e : event) (w : world) : world :=
  mkWorld (objs w) (live w) (w_gold w) (w_rewards w) (w_events w ++ [e]).

Definition set_live (l : list nat) (w : world) : world :=
  mkWorld (objs w) l (w_gold w) (w_rewards w) (w_events w).

Definition set_rewards (r : Rewards.t) (w : world) : world :=
  mkWorld (objs w) (live w) (w_gold w) r (w_events w).

Definition set_gold (g : Z) (w : world) : world :=
  mkWorld (objs w) (live w) g (w_rewards w) (w_events w).

(** [if (isWalkable(nx, ny)) { u.gx = nx; u.gy = ny; }] *)
Definition try_move (g : list (list Z)) (i : nat) (nx ny : Z) (w : world) : world :=
  if isWalkable g (registry w) nx ny then mutate i (Unit.set_pos nx ny) w else w.

(** The destination of the single-axis step of [move] and [return]. *)
Definition axis_step (u : Unit.t) (tx ty : Z) : Z * Z :=
  let dx := tx - Unit.gx u in
  let dy := ty - Unit.gy u in
  let sx := Z.sgn dx in
  let sy := Z.sgn dy in
  (Unit.gx u + (if Z.abs dx >? Z.abs dy then sx else 0),
   Unit.gy u + (if Z.abs dx <=? Z.abs dy then sy else 0)).

(** The destination of the two-axis step of an out-of-range [attack]. *)
Definition chase_step (u t : Unit.t) : Z * Z :=
  (Unit.gx u + Z.sgn (Unit.gx t - Unit.gx u),
   Unit.gy u + Z.sgn (Unit.gy t - Unit.gy u)).

Definition manhattan (u t : Unit.t) : Z :=
  Z.abs (Unit.gx t - Unit.gx u) + Z.abs (Unit.gy t - Unit.gy u).

(** An integer of the configuration as the double it is in the engine
    (exact for the integers [0 .. 2^53]). *)
Definition float_of_Z (z : Z) : float := PrimFloat.of_uint63 (Uint63.of_Z z).

(** [def.attack * 0.2], a product of doubles; [0.2] is the double nearest to
    one fifth, [0x1.999999999999ap-3]. *)
Definition damage (ty : unit_type) : float :=
  (float_of_Z (Def.attack (CONFIG.UNIT_TYPES ty)) * 0x1.999999999999ap-3)%float.

Definition resolve_move (g : list (list Z)) (i : nat) (u : Unit.t) (w : world) : world :=
  match Unit.target u with
  | cell_ tx ty =>
      let dx := tx - Unit.gx u in
      let dy := ty - Unit.gy u in
      if (dx =? 0) && (dy =? 0) then mutate i Unit.stop w
      else
        let '(nx, ny) := axis_step u tx ty in
        let w1 := try_move g i nx ny w in
        match objs w1 !! i with
        | Some u1 =>
            if (Unit.gx u1 =? tx) && (Unit.gy u1 =? ty)
            then mutate i Unit.stop w1 else w1
        | None => w1
        end
  | _ =>
      (* A numeric target has no [x] and [y]: both deltas are NaN, every
         comparison on them is false, the destination is the unit's own cell
         and neither assignment changes anything. *)
      w
  end.

Definition resolve_harvest (i : nat) (u : Unit.t) (w : world) : world :=
  let p := Unit.progress u + 1 in
  if p >=? 10 then
    let c := Z.min (Unit.carrying u + 1) 4 in
    let w1 := mutate i (λ o, Unit.set_progress 0 (Unit.set_carrying c o))
                (mutate i (Unit.set_progress p) w) in
    let w2 := emit (emitHarvest (Unit.gx u) (Unit.gy u)) w1 in
    if c >=? 2 then
      let w3 := mutate i (Unit.set_action return_) w2 in
      match find_ref (λ b, unit_type_eqb (Unit.type b) base
                           && (Unit.owner b =? Unit.owner u))
                     (objs w3) (live w3) with
      | Some (_, b) => mutate i (Unit.set_target (cell_ (Unit.gx b) (Unit.gy b))) w3
      | None => w3
      end
    else w2
  else mutate i (Unit.set_progress p) w.

Definition resolve_return (g : list (list Z)) (i : nat) (u : Unit.t) (w : world) : world :=
  match Unit.target u with
  | cell_ tx ty =>
      let dx := tx - Unit.gx u in
      let dy := ty - Unit.gy u in
      if Z.abs dx + Z.abs dy <=? 1 then
        let w1 := set_gold (w_gold w + Unit.carrying u * 25) w in
        let w2 := set_rewards
                    (Rewards.add_resources (inject_Z (Unit.carrying u) * (1#10))%Q
                       (w_rewards w1)) w1 in
        let w3 := mutate i (λ o, Unit.stop (Unit.set_carrying 0 o)) w2 in
        emit log_returned w3
      else
        let '(nx, ny) := axis_step u tx ty in
        try_move g i nx ny w
  | _ =>
      (* NaN deltas: the distance test fails, the step is onto the unit's own
         cell. *)
      w
  end.

Definition resolve_attack (g : list (list Z)) (i : nat) (u : Unit.t) (w : world) : world :=
  match Unit.target u with
  | unit_ tid =>
      match find_ref (λ t, Unit.id t =? tid) (objs w) (live w) with
      | Some (j, t) =>
          if (Unit.hp t <=? 0)%float then mutate i Unit.stop w
          else
            let def := CONFIG.UNIT_TYPES (Unit.type u) in
            if manhattan u t <=? Def.range def then
              let h := (Unit.hp t - damage (Unit.type u))%float in
              let w1 := mutate j (Unit.set_hp h) w in
              let w2 := set_rewards (Rewards.add_attack (1#20) (w_rewards w1)) w1 in
              if (h <=? 0)%float then
                let w3 := emit (emitExplosion (Unit.gx t) (Unit.gy t)) w2 in
                let w4 := emit (log_destroyed (Unit.type u) (Unit.type t)) w3 in
                let w5 := set_rewards (Rewards.add_combat (1#5) (w_rewards w4)) w4 in
                let w6 := set_live
                            (List.filter (other_id (objs w5) (Unit.id t)) (live w5))
                            w5 in
                mutate i Unit.stop w6
              else w2
            else
              let '(nx, ny) := chase_step u t in
              try_move g i nx ny w
      | None => mutate i Unit.stop w
      end
  | _ =>
      (* [t.id === u.target] is false for a cell object: nothing is found. *)
      mutate i Unit.stop w
  end.

(** The body of the loop of [processActions] for the object at index [i]. *)
Definition resolve (g : list (list Z)) (i : nat) (w : world) : world :=
  match objs w !! i with
  | None => w
  | Some u =>
      if action_eqb (Unit.action u) move && truthy (Unit.target u)
      then resolve_move g i u w
      else if action_eqb (Unit.action u) harvest
      then resolve_harvest i u w
      else if action_eqb (Unit.action u) return_ && truthy (Unit.target u)
      then resolve_return g i u w
      else if action_eqb (Unit.action u) attack && truthy (Unit.target u)
      then resolve_attack g i u w
      else w
  end.

(** The first [k] iterations of the loop of [processActions]. *)
Definition resolve_upto (g : list (list Z)) (k : nat) (w : world) : world :=
  fold_left (λ w i, resolve g i w) (seq 0 k) w.

(** Entering the loop: the iterated array is [state.units] itself. *)
Definition enter (s : state) : world :=
  mkWorld (units s) (seq 0 (length (units s))) (gold s) (rewards s) (events s).

(** Leaving the loop: [state.units] is what [live] denotes. *)
Definition leave (s : state) (w : world) : state :=
  mkState (registry w) (grid s) (fogGrid s) (w_gold w) (res_workers s) (cycle s)
    (fogEnabled s) (w_events w) (w_rewards w) (prodQueue s) (nextUnitId s).

Definition processActions (s : state) : state :=
  leave s (resolve_upto (grid s) (length (units s)) (enter s)).

(** ** The scripted opponent *)

(** The inner loop of [processAI]: the nearest unit of player 1 and its
    distance, the first one winning ties ([d < minDist]). *)
Definition nearest_enemy (u : Unit.t) (us : list Unit.t) : option (Z * Unit.t) :=
  fold_left
    (λ acc t,
       if negb (Unit.owner t =? 1) then acc
       else
         let d := manhattan u t in
         match acc with
         | None => Some (d, t)
         | Some (m, _) => if d <? m then Some (d, t) else acc
         end)
    us None.

Definition clamp (lo hi v : Z) : Z := Z.max lo (Z.min hi v).

(** One iteration of [processAI].  [draw] stands for the calls of
    [Math.random] made for this unit: [None] when [Math.random() < 0.1] is
    false, [Some (a, b)] when it is true and the two
    [Math.floor(Math.random() * 5)] are [a] and [b]. *)
Definition decide_ai (us : list Unit.t) (draw : option (Z * Z)) (u : Unit.t) : Unit.t :=
  if negb (Unit.owner u =? 2) || negb (action_eqb (Unit.action u) noop) then u
  else if Def.isBuilding (CONFIG.UNIT_TYPES (Unit.type u)) then u
  else
    match nearest_enemy u us with
    | Some (d, t) =>
        if d <=? 8 then Unit.set_target (unit_ (Unit.id t)) (Unit.set_action attack u)
        else
          match draw with
          | Some (a, b) =>
              Unit.set_target
                (cell_ (clamp 0 (CONFIG.GRID_W - 1) (Unit.gx u + a - 2))
                       (clamp 0 (CONFIG.GRID_H - 1) (Unit.gy u + b - 2)))
                (Unit.set_action move u)
          | None => u
          end
    | None =>
        match draw with
        | Some (a, b) =>
            Unit.set_target
              (cell_ (clamp 0 (CONFIG.GRID_W - 1) (Unit.gx u + a - 2))
                     (clamp 0 (CONFIG.GRID_H - 1) (Unit.gy u + b - 2)))
              (Unit.set_action move u)
        | None => u
        end
    end.

Definition set_units (us : list Unit.t) (s : state) : state :=
  mkState us (grid s) (fogGrid s) (gold s) (res_workers s) (cycle s)
    (fogEnabled s) (events s) (rewards s) (prodQueue s) (nextUnitId s).

(** [processAI] only assigns [action] and [target] of the unit it visits and
    only reads [owner], [gx] and [gy] of the others, so the loop is a map over
    the array.  [rnd k] is the draw for the unit at index [k]. *)
Definition processAI (rnd : nat → option (Z * Z)) (s : state) : state :=
  if negb (Z.rem (cycle s) 5 =? 0) then s
  else set_units (imap (λ k u, decide_ai (units s) (rnd k) u) (units s)) s.

(** ** The production queue *)

(** The object literal of [spawnUnit]: full hit points, idle, nothing carried. *)
Definition fresh_unit (ty : unit_type) (x y owner id : Z) : Unit.t :=
  let def := CONFIG.UNIT_TYPES ty in
  Unit.mk id ty owner x y (float_of_Z (Def.hp def)) (Def.hp def) noop null 0 0.

(** [state.units.push(unit)] with [id: state.nextUnitId++]. *)
Definition spawnUnit (ty : unit_type) (x y owner : Z) (s : state) : state :=
  mkState (units s ++ [fresh_unit ty x y owner (nextUnitId s)])
    (grid s) (fogGrid s) (gold s) (res_workers s) (cycle s)
    (fogEnabled s) (events s) (rewards s) (prodQueue s) (nextUnitId s + 1).

Definition set_prodQueue (q : list Order.t) (s : state) : state :=
  mkState (units s) (grid s) (fogGrid s) (gold s) (res_workers s) (cycle s)
    (fogEnabled s) (events s) (rewards s) q (nextUnitId s).

Definition log_event (e : event) (s : state) : state :=
  mkState (units s) (grid s) (fogGrid s) (gold s) (res_workers s) (cycle s)
    (fogEnabled s) (events s ++ [e]) (rewards s) (prodQueue s) (nextUnitId s).

Definition set_state_rewards (r : Rewards.t) (s : state) : state :=
  mkState (units s) (grid s) (fogGrid s) (gold s) (res_workers s) (cycle s)
    (fogEnabled s) (events s) r (prodQueue s) (nextUnitId s).

(** [state.units.filter(u => u.owner === 1 &&
    !CONFIG.UNIT_TYPES[u.type].isBuilding).length] *)
Definition mobile_p1 (us : list Unit.t) : Z :=
  Z.of_nat (length (List.filter
    (λ u, (Unit.owner u =? 1) && negb (Def.isBuilding (CONFIG.UNIT_TYPES (Unit.type u))))
    us)).

Definition set_res_workers (n : Z) (s : state) : state :=
  mkState (units s) (grid s) (fogGrid s) (gold s) n (cycle s)
    (fogEnabled s) (events s) (rewards s) (prodQueue s) (nextUnitId s).

(** The six candidate cells around the producer, in the order they are tried. *)
Definition spots (pq : Order.t) : list (Z * Z) :=
  [ (Order.gx pq + 1, Order.gy pq); (Order.gx pq - 1, Order.gy pq);
    (Order.gx pq, Order.gy pq + 1); (Order.gx pq, Order.gy pq - 1);
    (Order.gx pq + 1, Order.gy pq + 1); (Order.gx pq - 1, Order.gy pq - 1) ].

(** [spots.find(([x, y]) => isWalkable(x, y))] *)
Definition find_spot (s : state) (pq : Order.t) : option (Z * Z) :=
  List.find (λ c, isWalkable (grid s) (units s) c.1 c.2) (spots pq).

(** The body of [if (spot) { ... }]. *)
Definition materialize (pq : Order.t) (x y : Z) (s : state) : state :=
  let s1 := spawnUnit (Order.unitType pq) x y 1 s in
  let s2 := log_event (emitSpawn x y) s1 in
  let s3 := log_event (log_produced (Order.unitType pq) x y) s2 in
  let s4 := set_res_workers (mobile_p1 (units s3)) s3 in
  if unit_type_eqb (Order.unitType pq) worker
  then set_state_rewards (Rewards.add_workers (1#10) (rewards s4)) s4
  else set_state_rewards (Rewards.add_combat (1#10) (rewards s4)) s4.

Definition tick_order (pq : Order.t) : Order.t :=
  Order.mk (Order.unitType pq) (Order.gx pq) (Order.gy pq) (Order.progress pq + 1)
    (Order.total pq).

(** The body of the loop of [processProduction] at index [i]. *)
Definition produce_at (i : nat) (s : state) : state :=
  match prodQueue s !! i with
  | None => s
  | Some pq0 =>
      let pq := tick_order pq0 in
      let s1 := set_prodQueue (<[i := pq]> (prodQueue s)) s in
      if Order.progress pq >=? Order.total pq then
        let s2 := match find_spot s1 pq with
                  | Some (x, y) => materialize pq x y s1
                  | None => s1
                  end in
        set_prodQueue (delete i (prodQueue s2)) s2
      else s1
  end.

(** [for (let i = state.prodQueue.length - 1; i >= 0; i--)] *)
Definition processProduction (s : state) : state :=
  fold_left (λ s i, produce_at i s) (rev (seq 0 (length (prodQueue s)))) s.

(** ** Fog of war *)

(** [state.fogGrid[y][x]] *)
Definition fog_at (f : list (list Z)) (x y : nat) : option Z :=
  f !! y ≫= λ row, row !! x.

(** [state.fogGrid[y][x] = v], for a cell inside the grid [initFog] built. *)
Definition fog_set (x y : nat) (v : Z) (f : list (list Z)) : list (list Z) :=
  alter (λ row, <[x := v]> row) y f.

(** [for (let y = 0; y < GRID_H; y++) for (let x = 0; x < GRID_W; x++) body] *)
Definition for_cells (body : nat → nat → list (list Z) → list (list Z))
    (f : list (list Z)) : list (list Z) :=
  fold_left
    (λ f y, fold_left (λ f x, body x y f) (seq 0 (Z.to_nat CONFIG.GRID_W)) f)
    (seq 0 (Z.to_nat CONFIG.GRID_H)) f.

Definition downgrade (x y : nat) (f : list (list Z)) : list (list Z) :=
  if bool_decide (fog_at f x y = Some 2) then fog_set x y 1 f else f.

(** The values of [for (let d = -range; d <= range; d++)]. *)
Definition deltas (range : Z) : list Z :=
  map (λ k, Z.of_nat k - range) (seq 0 (Z.to_nat (2 * range + 1))).

(** The body of the two loops over [dy] and [dx] for the unit [u]. *)
Definition reveal_cell (u : Unit.t) (dx dy : Z) (f : list (list Z)) : list (list Z) :=
  let range := CONFIG.VISION_RANGE in
  if dx * dx + dy * dy >? range * range then f
  else
    let nx := Unit.gx u + dx in
    let ny := Unit.gy u + dy in
    if (nx >=? 0) && (nx <? CONFIG.GRID_W) && (ny >=? 0) && (ny <? CONFIG.GRID_H)
    then fog_set (Z.to_nat nx) (Z.to_nat ny) 2 f
    else f.

Definition reveal (f : list (list Z)) (u : Unit.t) : list (list Z) :=
  if negb (Unit.owner u =? 1) then f
  else
    fold_left
      (λ f dy, fold_left (λ f dx, reveal_cell u dx dy f)
                 (deltas CONFIG.VISION_RANGE) f)
      (deltas CONFIG.VISION_RANGE) f.

Definition set_fogGrid (f : list (list Z)) (s : state) : state :=
  mkState (units s) (grid s) f (gold s) (res_workers s) (cycle s)
    (fogEnabled s) (events s) (rewards s) (prodQueue s) (nextUnitId s).

Definition updateFog (s : state) : state :=
  if negb (fogEnabled s)
  then set_fogGrid (for_cells (λ x y f, fog_set x y 2 f) (fogGrid s)) s
  else set_fogGrid (fold_left reveal (units s) (for_cells downgrade (fogGrid s))) s.

Definition toggleFog (s : state) : state :=
  updateFog
    (mkState (units s) (grid s) (fogGrid s) (gold s) (res_workers s) (cycle s)
       (negb (fogEnabled s)) (events s) (rewards s) (prodQueue s) (nextUnitId s)).

(** ** The tick *)

(** The part of [updateUI] that writes the state. *)
Definition updateUI (s : state) : state := set_res_workers (mobile_p1 (units s)) s.

Definition bump_cycle (s : state) : state :=
  mkState (units s) (grid s) (fogGrid s) (gold s) (res_workers s) (cycle s + 1)
    (fogEnabled s) (events s) (rewards s) (prodQueue s) (nextUnitId s).

(** [gameTick]; [updateGameTime] and [updateRewards] only draw. *)
Definition gameTick (rnd : nat → option (Z * Z)) (s : state) : state :=
  updateUI (updateFog (processProduction (processAI rnd (processActions (bump_cycle s))))).

(** [n] ticks; [rnds k] are the draws of the k-th of them. *)
Fixpoint gameTicks (rnds : nat → nat → option (Z * Z)) (n : nat) (s : state) : state :=
  match n with
  | O => s
  | S n' => gameTick (rnds n') (gameTicks rnds n' s)
  end.

(** ** Commands *)

(** [const u = state.units.find(x => x.id === id); if (u) ...]: an
    assignment on the first unit with identifier [id], if there is one. *)
Fixpoint command_unit (id : Z) (f : Unit.t → Unit.t) (us : list Unit.t) : list Unit.t :=
  match us with
  | [] => []
  | u :: us' =>
      if Unit.id u =? id then f u :: us' else u :: command_unit id f us'
  end.

(** The right-click branch of [onCanvasMouseUp], with [state.selected] and
    the grid cell under the mouse as arguments (its [log] lines left out). *)
Definition rightClick (selected : list Z) (x y : Z) (s : state) : state :=
  if (x >=? 0) && (x <? CONFIG.GRID_W) && (y >=? 0) && (y <? CONFIG.GRID_H) then
    let enemy := List.find (λ u, at_cell x y u && negb (Unit.owner u =? 1)) (units s) in
    let resource := bool_decide (cell (grid s) x y = Some 2) in
    fold_left
      (λ s id,
         set_units
           (command_unit id
              (λ u,
                 match enemy with
                 | Some e => Unit.set_target (unit_ (Unit.id e)) (Unit.set_action attack u)
                 | None =>
                     if resource && unit_type_eqb (Unit.type u) worker
                     then Unit.set_progress 0
                            (Unit.set_target (cell_ x y) (Unit.set_action harvest u))
                     else Unit.set_target (cell_ x y) (Unit.set_action move u)
                 end)
              (units s))
           s)
      selected s
  else s.

(** ** The initial state ([init]) *)

(** [state.grid[y][x] = v] *)
Definition grid_set (x y : nat) (v : Z) (g : list (list Z)) : list (list Z) :=
  alter (λ row, <[x := v]> row) y g.

Definition initGrid : list (list Z) :=
  let g0 := replicate 16%nat (replicate 16%nat 0) in
  let g1 := fold_left (λ g y, grid_set 8 y 1 (grid_set 7 y 1 g)) [6; 7; 8; 9]%nat g0 in
  let g2 := grid_set 6 3 2 (grid_set 7 2 2 (grid_set 6 2 2 g1)) in
  grid_set 9 13 2 (grid_set 8 13 2 (grid_set 9 12 2 g2)).

Definition initFog : list (list Z) := replicate 16%nat (replicate 16%nat 0).

Definition empty_state : state :=
  mkState [] initGrid initFog 200 0 0 true []
    (Rewards.mk 0 0 0 0 0 0) [] 1.

Definition initUnits (s : state) : state :=
  spawnUnit worker 14 13 2
    (spawnUnit worker 13 14 2
      (spawnUnit base 14 14 2
        (spawnUnit worker 1 2 1
          (spawnUnit worker 2 1 1
            (spawnUnit base 1 1 1 s))))).

Definition init : state := updateFog (initUnits empty_state).

(** * Properties of the engine *)

(** ** Vocabulary *)

Definition pos (u : Unit.t) : Z * Z := (Unit.gx u, Unit.gy u).

(** The occupancy invariant: the units are at pairwise distinct cells. *)
Definition occupancy (us : list Unit.t) : Prop := NoDup (pos <$> us).

(** A unit's hit points are in [(0, maxHp]]. *)
Definition hp_ok (u : Unit.t) : Prop :=
  (0 <? Unit.hp u)%float = true ∧
  (Unit.hp u <=? float_of_Z (Unit.maxHp u))%float = true.

Definition carrying_ok (u : Unit.t) : Prop := 0 <= Unit.carrying u.

(** An assignment that leaves identity, position and hit points alone. *)
Definition same_body (f : Unit.t → Unit.t) : Prop :=
  ∀ u, Unit.id (f u) = Unit.id u ∧ Unit.type (f u) = Unit.type u ∧
       Unit.owner (f u) = Unit.owner u ∧ pos (f u) = pos u ∧
       Unit.hp (f u) = Unit.hp u ∧ Unit.maxHp (f u) = Unit.maxHp u.

(** [b] is [a] with other hit points. *)
Definition same_but_hp (a b : Unit.t) : Prop := ∃ h, b = Unit.set_hp h a.

(** The kinds of write one iteration of [processActions] is made of, each
    with what the code has checked before making it. *)
Inductive op (g : list (list Z)) : world → world → Prop :=
  | op_assign i f w :
      same_body f → op g w (mutate i f w)
  | op_move i x y w :
      isWalkable g (registry w) x y = true →
      op g w (mutate i (Unit.set_pos x y) w)
  | op_hit j t ty w :
      objs w !! j = Some t →
      (Unit.hp t - damage ty <=? 0)%float = false →
      op g w (mutate j (Unit.set_hp (Unit.hp t - damage ty)) w)
  | op_kill j t h w :
      objs w !! j = Some t →
      op g w (set_live
                (List.filter (other_id (alter (Unit.set_hp h) j (objs w)) (Unit.id t))
                   (live w))
                (mutate j (Unit.set_hp h) w))
  | op_emit e w : op g w (emit e w)
  | op_rewards r w : op g w (set_rewards r w)
  | op_gold z w : op g w (set_gold z w).

(** [u] sees the cell [(x, y)]: squared distance at most the squared radius. *)
Definition in_vision (u : Unit.t) (x y : nat) : Prop :=
  (Z.of_nat x - Unit.gx u) * (Z.of_nat x - Unit.gx u) +
  (Z.of_nat y - Unit.gy u) * (Z.of_nat y - Unit.gy u)
  <= CONFIG.VISION_RANGE * CONFIG.VISION_RANGE.

(** [f'] comes from [f] by writes that [J] justifies: every cell of [f] is
    still a cell of [f'], with its old value or with a new value [c'] such
    that [J x y c c']. *)
Definition fog_writes (J : nat → nat → Z → Z → Prop) (f f' : list (list Z)) : Prop :=
  ∀ x y c, fog_at f x y = Some c →
    ∃ c', fog_at f' x y = Some c' ∧ (c' = c ∨ J x y c c').

(** The three kinds of write of [updateFog]. *)
Definition J_downgrade (x y : nat) (c c' : Z) : Prop := c = 2 ∧ c' = 1.
Definition J_reveal (us : list Unit.t) (x y : nat) (c c' : Z) : Prop :=
  c' = 2 ∧ ∃ u, u ∈ us ∧ Unit.owner u = 1 ∧ in_vision u x y.
Definition J_force (x y : nat) (c c' : Z) : Prop := c' = 2.

(** An order that is still short of its total after this tick's increment. *)
Definition unfinished (pq : Order.t) : bool :=
  negb (Order.progress pq >=? Order.total pq).

(** The identifiers in the registry with their hit points. *)
Definition roster (s : state) : list (Z * float) :=
  (λ u, (Unit.id u, Unit.hp u)) <$> units s.

(** ** Scenarios *)

(** A state on the map of [initGrid] with the given units and queue. *)
Definition scene (us : list Unit.t) (q : list Order.t) : state :=
  mkState us initGrid initFog 0 0 0 true [] (Rewards.mk 0 0 0 0 0 0) q
    (1 + Z.of_nat (length us)).

(** No patrol is ever drawn. *)
Definition no_draw : nat → option (Z * Z) := λ _, None.

(** The opening position after the base at (1,1) has produced workers onto
    (0,1), (1,0), (2,2) and (0,0): with the two original workers on (2,1) and
    (1,2), all six spots around the base are taken.  One more worker is about
    to complete. *)
Definition crowded : state :=
  scene (units init ++
           [fresh_unit worker 0 1 1 7; fresh_unit worker 1 0 1 8;
            fresh_unit worker 2 2 1 9; fresh_unit worker 0 0 1 10])
        [Order.mk worker 1 1 49 50].

(** The same position one worker earlier -- (0,0) is the only free spot --
    with two orders about to complete on the same tick. *)
Definition one_spot : state :=
  scene (units init ++
           [fresh_unit worker 0 1 1 7; fresh_unit worker 1 0 1 8;
            fresh_unit worker 2 2 1 9])
        [Order.mk worker 1 1 49 50; Order.mk light 1 1 79 80].

(** A duel: a heavy unit of player 1 and a worker of player 2, adjacent,
    attacking each other. *)
Definition duel : state :=
  scene [ Unit.set_target (unit_ 2) (Unit.set_action attack (fresh_unit heavy 5 5 1 1));
          Unit.set_target (unit_ 1) (Unit.set_action attack (fresh_unit worker 6 5 2 2)) ]
        [].

(** The opening position with a third worker of player 1 on (3,1), carrying 2
    resources back to the base at (1,1); worker 2 stands on (2,1), in its way. *)
Definition blocked_return : state :=
  scene (units init ++
           [Unit.set_carrying 2
              (Unit.set_target (cell_ 1 1)
                 (Unit.set_action return_ (fresh_unit worker 3 1 1 7)))])
        [].

(** A heavy unit of player 1 (attack 4, range 1) attacking an idle light unit
    of player 2 (2 hit points) on the next cell. *)
Definition siege : state :=
  scene [ Unit.set_target (unit_ 2) (Unit.set_action attack (fresh_unit heavy 5 5 1 1));
          fresh_unit light 6 5 2 2 ]
        [].

(** Worker 2 of the opening position sent to the free cell (6,1). *)
Definition marching : state := rightClick [2] 6 1 init.

(** The opening position with a third worker of player 1 on (1,0), next to
    the base at (1,1), carrying 2 resources back to it. *)
Definition homecoming : state :=
  scene (units init ++
           [Unit.set_carrying 2
              (Unit.set_target (cell_ 1 1)
                 (Unit.set_action return_ (fresh_unit worker 1 0 1 7)))])
        [].

(** A lone worker of player 2 on (10,10), moving to the cell (10,15), five
    free cells below. *)
Definition patrol : state :=
  scene [ Unit.set_target (cell_ 10 15) (Unit.set_action move (fresh_unit worker 10 10 2 1)) ]
        [].

(** A worker of player 2 (attack 1, range 1) attacking an idle worker of
    player 1 (1 hit point) on the next cell. *)
Definition skirmish : state :=
  scene [ Unit.set_target (unit_ 2) (Unit.set_action attack (fresh_unit worker 5 5 2 1));
          fresh_unit worker 6 5 1 2 ]
        [].

(** * More of the engine: commands, the demo driver, the score *)

Definition set_gold_queue (gld : Z) (q : list Order.t) (s : state) : state :=
  mkState (units s) (grid s) (fogGrid s) gld (res_workers s) (cycle s)
    (fogEnabled s) (events s) (rewards s) q (nextUnitId s).

(** [produceUnit(type)] (its [log] lines left out). *)
Definition produceUnit (ty : unit_type) (s : state) : state :=
  let def := CONFIG.UNIT_TYPES ty in
  if gold s <? Def.cost def then s
  else
    match List.find (λ u, (Unit.owner u =? 1) && unit_type_eqb (Unit.type u) base)
                    (units s) with
    | None => s
    | Some producer =>
        set_gold_queue (gold s - Def.cost def)
          (prodQueue s ++
             [Order.mk ty (Unit.gx producer) (Unit.gy producer) 0 (Def.buildTime def)])
          s
    end.

(** [executeCommand('stop')] for the selection [selected]. *)
Definition stopCommand (selected : list Z) (s : state) : state :=
  fold_left (λ s id, set_units (command_unit id Unit.stop (units s)) s) selected s.

(** The values of [for (let x = 0; x < n; x++)]. *)
Definition upto (n : Z) : list Z := map Z.of_nat (seq 0 (Z.to_nat n)).

(** The scan of [executeCommand('harvest')]: the nearest cell holding 2 and
    its distance, rows from the top, the first one winning ties
    ([d < minD]). *)
Definition nearest_resource (g : list (list Z)) (u : Unit.t) : option (Z * (Z * Z)) :=
  fold_left
    (λ acc y,
       fold_left
         (λ acc x,
            if negb (bool_decide (cell g x y = Some 2)) then acc
            else
              let d := Z.abs (x - Unit.gx u) + Z.abs (y - Unit.gy u) in
              match acc with
              | None => Some (d, (x, y))
              | Some (m, _) => if d <? m then Some (d, (x, y)) else acc
              end)
         (upto CONFIG.GRID_W) acc)
    (upto CONFIG.GRID_H) None.

(** What [executeCommand('harvest')] does to a unit it found. *)
Definition send_to_resource (g : list (list Z)) (u : Unit.t) : Unit.t :=
  if unit_type_eqb (Unit.type u) worker then
    match nearest_resource g u with
    | Some (_, (x, y)) => Unit.set_target (cell_ x y) (Unit.set_action move u)
    | None => u
    end
  else u.

(** [executeCommand('harvest')] for the selection [selected]. *)
Definition harvestCommand (selected : list Z) (s : state) : state :=
  fold_left
    (λ s id, set_units (command_unit id (send_to_resource (grid s)) (units s)) s)
    selected s.

(** The enemy production of the demo driver, once [Math.random() > 0.85]
    holds and the type [ty] has been drawn. *)
Definition enemySpawn (ty : unit_type) (s : state) : state :=
  match List.find (λ u, (Unit.owner u =? 2) && unit_type_eqb (Unit.type u) base)
                  (units s) with
  | None => s
  | Some eBase =>
      match List.find (λ c, isWalkable (grid s) (units s) c.1 c.2)
              [ (Unit.gx eBase + 1, Unit.gy eBase); (Unit.gx eBase - 1, Unit.gy eBase);
                (Unit.gx eBase, Unit.gy eBase + 1); (Unit.gx eBase, Unit.gy eBase - 1) ] with
      | Some (x, y) => log_event (emitSpawn x y) (spawnUnit ty x y 2 s)
      | None => s
      end
  end.




(** [CONFIG.REWARD_WEIGHTS] *)
Definition REWARD_WEIGHTS : Rewards.t := Rewards.mk 10 1 1 (1#5) 1 4.

(** The [total] of [updateRewards]. *)
Definition reward_total (r : Rewards.t) : Q :=
  (Rewards.winLoss r * Rewards.winLoss REWARD_WEIGHTS
   + Rewards.resources r * Rewards.resources REWARD_WEIGHTS
   + Rewards.workers r * Rewards.workers REWARD_WEIGHTS
   + Rewards.buildings r * Rewards.buildings REWARD_WEIGHTS
   + Rewards.attack r * Rewards.attack REWARD_WEIGHTS
   + Rewards.combat r * Rewards.combat REWARD_WEIGHTS)%Q.

(** ** More vocabulary *)

(** Identifiers are pairwise distinct and below the next one to be given. *)
Definition ids_fresh (s : state) : Prop :=
  NoDup (Unit.id <$> units s) ∧ Forall (λ u, Unit.id u < nextUnitId s) (units s).

(** The unit stands inside the grid, not on a wall. *)
Definition on_board (g : list (list Z)) (u : Unit.t) : Prop :=
  0 <= Unit.gx u < CONFIG.GRID_W ∧ 0 <= Unit.gy u < CONFIG.GRID_H ∧
  cell g (Unit.gx u) (Unit.gy u) ≠ Some 1.

(** The counters of a worker are in their ranges. *)
Definition load_ok (u : Unit.t) : Prop :=
  0 <= Unit.carrying u <= 4 ∧ 0 <= Unit.progress u <= 9.

(** Some unit of player 1 among [us] has the cell within its vision radius. *)
Definition seen (us : list Unit.t) (x y : nat) : bool :=
  existsb
    (λ u, (Unit.owner u =? 1)
          && ((Z.of_nat x - Unit.gx u) * (Z.of_nat x - Unit.gx u)
              + (Z.of_nat y - Unit.gy u) * (Z.of_nat y - Unit.gy u)
              <=? CONFIG.VISION_RANGE * CONFIG.VISION_RANGE))
    us.

(** The cell is one of the 16 x 16 the fog loops run over. *)
Definition in_fog_grid (x y : nat) : bool :=
  (Z.of_nat x <? CONFIG.GRID_W) && (Z.of_nat y <? CONFIG.GRID_H).

(** [updateFog], cell by cell. *)
Definition fog_after (enabled : bool) (us : list Unit.t) (x y : nat) (c : Z) : Z :=
  if negb (in_fog_grid x y) then c
  else if negb enabled then 2
  else if seen us x y then 2
  else if c =? 2 then 1 else c.

(** A unit the opponent's script may give an order to. *)
Definition ai_eligible (u : Unit.t) : bool :=
  (Unit.owner u =? 2) && action_eqb (Unit.action u) noop
  && negb (Def.isBuilding (CONFIG.UNIT_TYPES (Unit.type u))).


(** The unit is in an action that the pass resolves: [harvest], or [move],
    [return] or [attack] with a truthy target. *)
Definition has_order (u : Unit.t) : bool :=
  match Unit.action u with
  | move | return_ | attack => truthy (Unit.target u)
  | harvest => true
  | noop | produce => false
  end.

(** The cells of the grid in the order the two nested loops of a scan visit
    them: rows from the top, each from the left. *)
Definition scan_cells : list (Z * Z) :=
  flat_map (λ y, map (λ x, (x, y)) (upto CONFIG.GRID_W)) (upto CONFIG.GRID_H).

(** The justification of a write of the reveal loops: the value written is
    Visible, the cell is inside the grid and some unit of player 1 sees it. *)
Definition J_seen (us : list Unit.t) (x y : nat) (c c' : Z) : Prop :=
  c' = 2 ∧ in_fog_grid x y = true ∧ seen us x y = true.

(** What the turn of a unit brings in: what it carries, when it is in the
    [return] action with a cell as target at Manhattan distance at most 1,
    and nothing otherwise. *)
Definition deposit (u : Unit.t) : Z :=
  match Unit.action u, Unit.target u with
  | return_, cell_ tx ty =>
      if Z.abs (tx - Unit.gx u) + Z.abs (ty - Unit.gy u) <=? 1
      then Unit.carrying u else 0
  | _, _ => 0
  end.

(** The resources brought in by the units of an array. *)
Definition deposits (us : list Unit.t) : Z := foldr (λ u n, deposit u + n) 0 us.

(** The states the engine reaches, as far as the fog is concerned: the
    opening state, and from a reached state the state after a tick, after
    [toggleFog], and after anything else the engine does, none of which writes
    [fogGrid] or [fogEnabled]. *)
Inductive fog_reachable : state → Prop :=
  | reach_init : fog_reachable init
  | reach_tick rnd s : fog_reachable s → fog_reachable (gameTick rnd s)
  | reach_toggle s : fog_reachable s → fog_reachable (toggleFog s)
  | reach_other s s' :
      fog_reachable s →
      fogGrid s' = fogGrid s → fogEnabled s' = fogEnabled s →
      fog_reachable s'.

(** ** Binary64

    The vocabulary of the one fact of floating-point arithmetic the
    invariants need: a hit that does not destroy leaves hit points that are
    positive and no larger than before. *)

(** A float that is zero or positive and finite, as a damage is. *)
Definition SF_nonneg_finite (d : spec_float) : Prop :=
  d = S754_zero false ∨ ∃ md ed, d = S754_finite false md ed.

(** The order of two positive finite floats of the format, as [SFcompare]
    decides it: by exponent, then by mantissa. *)
Definition lex_le (m2 : positive) (e2 : Z) (mx : positive) (ex : Z) : Prop :=
  e2 < ex ∨ (e2 = ex ∧ Zpos m2 <= Zpos mx).

(** What [j] right shifts have made of the integer [p]: the quotient, and the
    round and sticky bits telling whether anything was lost. *)
Definition shifted (p : Z) (j : Z) (mrs : shr_record) : Prop :=
  0 <= shr_m mrs ∧
  shr_m mrs * 2 ^ j <= p < (shr_m mrs + 1) * 2 ^ j ∧
  ((shr_r mrs || shr_s mrs) = false → shr_m mrs * 2 ^ j = p) ∧
  ((shr_r mrs || shr_s mrs) = true → shr_m mrs * 2 ^ j < p).

(** * Proofs *)

(** Boolean comparisons on [Z] as propositions. *)
Ltac zbool :=
  rewrite ?Z.geb_leb, ?Z.gtb_ltb in *;
  rewrite ?andb_true_iff, ?andb_false_iff, ?orb_true_iff, ?orb_false_iff,
    ?negb_true_iff, ?negb_false_iff,
    ?Z.ltb_lt, ?Z.ltb_ge, ?Z.leb_le, ?Z.leb_gt, ?Z.eqb_eq, ?Z.eqb_neq in *.

(** ** Binary64 subtraction

    [SFsub] aligns the two mantissas, subtracts them as integers and rounds
    the difference to the format.  The lemmas follow the rounding through
    its shifts to bound the result by the float it started from. *)

Lemma pow2_pos k : 0 <= k → 0 < 2 ^ k.
Proof. intros. apply Z.pow_pos_nonneg; lia. Qed.

Lemma pow2_succ k : 0 <= k → 2 ^ (k + 1) = 2 * 2 ^ k.
Proof. intros. rewrite Z.pow_add_r by lia. lia. Qed.

Lemma digits2_pos_spec p :
  2 ^ (Zpos (digits2_pos p) - 1) <= Zpos p < 2 ^ Zpos (digits2_pos p).
Proof.
  induction p as [p IH|p IH|]; simpl digits2_pos.
  - rewrite Pos2Z.inj_succ.
    replace (Z.succ (Zpos (digits2_pos p)) - 1) with (Zpos (digits2_pos p) - 1 + 1) by lia.
    replace (Z.succ (Zpos (digits2_pos p))) with (Zpos (digits2_pos p) + 1) by lia.
    rewrite !pow2_succ by lia. lia.
  - rewrite Pos2Z.inj_succ.
    replace (Z.succ (Zpos (digits2_pos p)) - 1) with (Zpos (digits2_pos p) - 1 + 1) by lia.
    replace (Z.succ (Zpos (digits2_pos p))) with (Zpos (digits2_pos p) + 1) by lia.
    rewrite !pow2_succ by lia. lia.
  - simpl. lia.
Qed.

(** Magnitudes order as values do. *)
Lemma digits_le a b k :
  0 <= k → Zpos a <= Zpos b * 2 ^ k →
  Zpos (digits2_pos a) <= Zpos (digits2_pos b) + k.
Proof.
  intros Hk Hab.
  destruct (digits2_pos_spec a) as [Ha _]. destruct (digits2_pos_spec b) as [_ Hb].
  assert (2 ^ (Zpos (digits2_pos a) - 1) < 2 ^ (Zpos (digits2_pos b) + k)) as Hlt.
  { rewrite (Z.pow_add_r _ _ k) by lia. pose proof (pow2_pos k Hk). nia. }
  apply Z.pow_lt_mono_r_iff in Hlt; lia.
Qed.

Lemma iter_xO p k : Zpos (Pos.iter xO p k) = Zpos p * 2 ^ Zpos k.
Proof.
  induction k as [|k IH] using Pos.peano_ind.
  - simpl. lia.
  - rewrite Pos.iter_succ, Pos2Z.inj_xO, IH, Pos2Z.inj_succ.
    replace (Z.succ (Zpos k)) with (Zpos k + 1) by lia. rewrite pow2_succ by lia. lia.
Qed.

Lemma iter_pos_invariant {A} (f : A → A) (P : Z → A → Prop) :
  (∀ j x, 0 <= j → P j x → P (j + 1) (f x)) →
  ∀ n j x, 0 <= j → P j x → P (j + Zpos n) (SpecFloat.iter_pos f n x).
Proof.
  intros Hstep. induction n as [n IH|n IH|]; intros j x Hj Hx; simpl.
  - replace (j + Zpos n~1) with (j + 1 + Zpos n + Zpos n) by lia.
    apply IH; [lia|]. apply IH; [lia|]. by apply Hstep.
  - replace (j + Zpos n~0) with (j + Zpos n + Zpos n) by lia.
    apply IH; [lia|]. by apply IH.
  - by apply Hstep.
Qed.

Lemma shifted_shr_1 p j mrs : 0 <= j → shifted p j mrs → shifted p (j + 1) (shr_1 mrs).
Proof.
  intros Hj (Hm & Hp & Hex & Hin). pose proof (pow2_pos j Hj) as Ht.
  unfold shifted. rewrite pow2_succ by done.
  destruct mrs as [m r s]. cbn [shr_m shr_r shr_s] in *.
  generalize dependent (2 ^ j). intros t Hp Hex Hin Ht.
  destruct m as [|[q|q|]|q]; try (exfalso; lia);
    cbn [shr_1 shr_m shr_r shr_s];
    destruct r, s; cbn [orb] in *;
    try specialize (Hex eq_refl); try specialize (Hin eq_refl);
    (split; [lia|]); (split; [nia|]);
    (split; intros Hf; first [discriminate Hf | nia]).
Qed.

Lemma shifted_shr p m e n :
  0 <= m → p = m →
  let '(mrs, e') := shr (shr_record_of_loc m loc_Exact) e n in
  shifted p (Z.max 0 n) mrs ∧ e' = e + Z.max 0 n.
Proof.
  intros Hm ->. unfold shr.
  assert (shifted m 0 (shr_record_of_loc m loc_Exact)) as H0.
  { unfold shifted. simpl. split_and!; try done; lia. }
  destruct n as [|k|k]; try (split; [exact H0|reflexivity || lia]).
  split; [|lia]. change (Z.max 0 (Zpos k)) with (0 + Zpos k).
  apply (iter_pos_invariant shr_1 (shifted m) (shifted_shr_1 m) k 0); [lia|done].
Qed.

Lemma round_nearest_even_spec mrs :
  let m1 := round_nearest_even (shr_m mrs) (loc_of_shr_record mrs) in
  shr_m mrs <= m1 <= shr_m mrs + 1 ∧
  ((shr_r mrs || shr_s mrs) = false → m1 = shr_m mrs).
Proof.
  destruct mrs as [m [] []]; simpl; try (split; [lia|done]).
  destruct (Z.even m); split; (lia || done).
Qed.

Lemma fexp_mono a b : a <= b → fexp prec emax a <= fexp prec emax b.
Proof. unfold fexp, emin, prec, emax. lia. Qed.

Lemma shl_align_spec p e e' :
  let '(pz, ez) := shl_align p e e' in
  ez = Z.min e e' ∧ Zpos pz = Zpos p * 2 ^ (e - ez).
Proof.
  unfold shl_align. destruct (e' - e) as [|k|k] eqn:Hk.
  - split; [lia|]. rewrite Z.sub_diag. simpl. lia.
  - split; [lia|]. rewrite Z.sub_diag. simpl. lia.
  - split; [lia|]. rewrite iter_xO. f_equal. f_equal. lia.
Qed.

(** The first shift of [binary_round_aux] and the rounding that follows. *)
Lemma shr_fexp_spec m e :
  0 <= m →
  let '(mrs, e') := shr_fexp prec emax m e loc_Exact in
  let n := Z.max 0 (fexp prec emax (Zdigits2 m + e) - e) in
  shifted m n mrs ∧ e' = e + n.
Proof. intros Hm. unfold shr_fexp. by apply shifted_shr. Qed.

Lemma bounded_spec mx ex :
  bounded prec emax mx ex = true →
  fexp prec emax (Zpos (digits2_pos mx) + ex) = ex ∧ ex <= emax - prec.
Proof.
  unfold bounded, canonical_mantissa. intros [H1 H2]%andb_prop.
  apply Z.eqb_eq in H1. apply Z.leb_le in H2. done.
Qed.

(** An integer at most the value of a float of the format rounds to at most
    that float. *)
Lemma binary_round_aux_le sx p1 e1 mx ex :
  bounded prec emax mx ex = true →
  e1 <= ex →
  Zpos p1 <= Zpos mx * 2 ^ (ex - e1) →
  binary_round_aux prec emax sx (Zpos p1) e1 loc_Exact = S754_zero sx ∨
  ∃ m2 e2, binary_round_aux prec emax sx (Zpos p1) e1 loc_Exact = S754_finite sx m2 e2 ∧
           lex_le m2 e2 mx ex.
Proof.
  intros [Hcan Hmax]%bounded_spec He Hp. unfold binary_round_aux.
  pose proof (shr_fexp_spec (Zpos p1) e1 ltac:(lia)) as H1.
  destruct (shr_fexp prec emax (Zpos p1) e1 loc_Exact) as [mrs' e'].
  cbv zeta in H1. destruct H1 as [(Hm0 & Hval & Hex & Hin) He'].
  set (n := Z.max 0 (fexp prec emax (Zdigits2 (Zpos p1) + e1) - e1)) in *.
  (* the exponent after the first shift is at most that of the bound *)
  assert (e' <= ex) as He'x.
  { subst e'. unfold n. simpl Zdigits2.
    assert (fexp prec emax (Zpos (digits2_pos p1) + e1) <= ex); [|lia].
    rewrite <- Hcan. apply fexp_mono.
    pose proof (digits_le p1 mx (ex - e1) ltac:(lia) Hp). lia. }
  assert (0 <= n) as Hn by (unfold n; lia).
  pose proof (pow2_pos n Hn) as Hpn.
  (* the rounded mantissa is at most the bound at that exponent *)
  pose proof (round_nearest_even_spec mrs') as [Hm1 Hm1ex].
  set (m1 := round_nearest_even (shr_m mrs') (loc_of_shr_record mrs')) in *.
  assert (m1 <= Zpos mx * 2 ^ (ex - e')) as Hm1x.
  { assert (2 ^ (ex - e1) = 2 ^ (ex - e') * 2 ^ n) as Hsplit.
    { rewrite <- Z.pow_add_r by lia. f_equal. lia. }
    rewrite Hsplit in Hp.
    pose proof (pow2_pos (ex - e') ltac:(lia)).
    destruct (shr_r mrs' || shr_s mrs') eqn:Hloc.
    - specialize (Hin eq_refl). nia.
    - specialize (Hex eq_refl). specialize (Hm1ex eq_refl). nia. }
  assert (0 <= m1) as Hm1nn by lia.
  pose proof (shr_fexp_spec m1 e' Hm1nn) as H2.
  destruct (shr_fexp prec emax m1 e' loc_Exact) as [mrs'' e''].
  cbv zeta in H2. destruct H2 as [(Hm2 & Hval2 & _ & _) He''].
  set (n2 := Z.max 0 (fexp prec emax (Zdigits2 m1 + e') - e')) in *.
  assert (0 <= n2) as Hn2 by (unfold n2; lia).
  pose proof (pow2_pos n2 Hn2) as Hpn2.
  destruct (shr_m mrs'') as [|m2|m2] eqn:Hm2e; [by left| |lia].
  right.
  (* the final exponent *)
  assert (e'' <= ex ∧ (e'' = ex → Zpos m2 <= Zpos mx)) as [He''x Hlast].
  { destruct m1 as [|q1|q1]; [lia| |lia].
    simpl Zdigits2 in n2.
    assert (fexp prec emax (Zpos (digits2_pos q1) + e') <= ex) as Hf2.
    { rewrite <- Hcan. apply fexp_mono.
      pose proof (digits_le q1 mx (ex - e') ltac:(lia) Hm1x). lia. }
    split; [unfold n2 in He''; lia|].
    intros Heq.
    assert (2 ^ (ex - e') = 2 ^ n2) as Hsame by (f_equal; lia).
    rewrite Hsame in Hm1x. nia. }
  assert ((e'' <=? emax - prec) = true) as -> by (apply Z.leb_le; lia).
  exists m2, e''. split; [done|]. unfold lex_le.
  destruct (Z.eq_dec e'' ex) as [Heq|Hne]; [right|left; lia]. split; [done|]. by apply Hlast.
Qed.

(** Rounding never produces a NaN, and keeps the sign it is given. *)
Lemma binary_round_aux_shape sx p1 e1 :
  let r := binary_round_aux prec emax sx (Zpos p1) e1 loc_Exact in
  r = S754_zero sx ∨ r = S754_infinity sx ∨ ∃ m2 e2, r = S754_finite sx m2 e2.
Proof.
  unfold binary_round_aux.
  pose proof (shr_fexp_spec (Zpos p1) e1 ltac:(lia)) as H1.
  destruct (shr_fexp prec emax (Zpos p1) e1 loc_Exact) as [mrs' e'].
  cbv zeta in H1. destruct H1 as [(Hm0 & _) _].
  pose proof (round_nearest_even_spec mrs') as [Hm1 _].
  set (m1 := round_nearest_even (shr_m mrs') (loc_of_shr_record mrs')) in *.
  pose proof (shr_fexp_spec m1 e' ltac:(lia)) as H2.
  destruct (shr_fexp prec emax m1 e' loc_Exact) as [mrs'' e''].
  cbv zeta in H2. destruct H2 as [(Hm2 & _) _].
  destruct (shr_m mrs'') as [|m2|m2]; [by left| |lia].
  destruct (e'' <=? emax - prec); [right; right; eauto|right; by left].
Qed.

Lemma binary_round_le sx p e mx ex :
  bounded prec emax mx ex = true →
  e <= ex →
  Zpos p <= Zpos mx * 2 ^ (ex - e) →
  binary_round prec emax sx p e = S754_zero sx ∨
  ∃ m2 e2, binary_round prec emax sx p e = S754_finite sx m2 e2 ∧ lex_le m2 e2 mx ex.
Proof.
  intros Hb He Hp. unfold binary_round.
  pose proof (shl_align_spec p e (fexp prec emax (Zpos (digits2_pos p) + e))) as Hal.
  destruct (shl_align _ _ _) as [pz ez]. destruct Hal as [Hez Hpz].
  assert (ez <= e) by lia.
  apply binary_round_aux_le; [done|lia|].
  rewrite Hpz.
  assert (2 ^ (ex - ez) = 2 ^ (ex - e) * 2 ^ (e - ez)) as ->.
  { rewrite <- Z.pow_add_r by lia. f_equal. lia. }
  pose proof (pow2_pos (e - ez) ltac:(lia)). nia.
Qed.

Lemma binary_round_shape sx p e :
  let r := binary_round prec emax sx p e in
  r = S754_zero sx ∨ r = S754_infinity sx ∨ ∃ m2 e2, r = S754_finite sx m2 e2.
Proof.
  unfold binary_round. destruct (shl_align _ _ _) as [pz ez].
  apply binary_round_aux_shape.
Qed.

Lemma SFleb_lex m2 e2 mx ex :
  lex_le m2 e2 mx ex → SFleb (S754_finite false m2 e2) (S754_finite false mx ex) = true.
Proof.
  unfold lex_le, SFleb, SFcompare. intros [Hlt|[-> Hle]].
  - apply Z.compare_lt_iff in Hlt. by rewrite Hlt.
  - rewrite Z.compare_refl.
    change (Pos.compare_cont Eq m2 mx) with (Pos.compare m2 mx).
    destruct (Pos.compare_spec m2 mx); try done. lia.
Qed.

Lemma lex_le_inv m2 e2 mx ex :
  SFleb (S754_finite false m2 e2) (S754_finite false mx ex) = true → lex_le m2 e2 mx ex.
Proof.
  unfold lex_le, SFleb, SFcompare.
  destruct (Z.compare_spec e2 ex) as [->|?|?]; [|by left|done].
  change (Pos.compare_cont Eq m2 mx) with (Pos.compare m2 mx).
  destruct (Pos.compare_spec m2 mx); try done; intros _; right; split; (done || lia).
Qed.

Lemma lex_le_trans m1 e1 m2 e2 m3 e3 :
  lex_le m1 e1 m2 e2 → lex_le m2 e2 m3 e3 → lex_le m1 e1 m3 e3.
Proof. unfold lex_le. lia. Qed.

(** Subtracting a damage from a positive float of the format: the result
    is at most zero, or a positive float at most the one it came from. *)
Lemma SF64sub_damage mx ex d :
  bounded prec emax mx ex = true →
  SF_nonneg_finite d →
  let r := SF64sub (S754_finite false mx ex) d in
  SFleb r (S754_zero false) = true ∨
  ∃ m2 e2, r = S754_finite false m2 e2 ∧ lex_le m2 e2 mx ex.
Proof.
  intros Hb [->|(md & ed & ->)]; cbv zeta.
  - right. exists mx, ex. split; [done|]. right. split; (done || lia).
  - unfold SF64sub, SFsub. cbn [cond_Zopp].
    set (ez := Z.min ex ed).
    pose proof (shl_align_spec mx ex ez) as Hx. pose proof (shl_align_spec md ed ez) as Hd.
    destruct (shl_align mx ex ez) as [mx' ex']. destruct (shl_align md ed ez) as [md' ed'].
    destruct Hx as [Hex' Hmx']. destruct Hd as [Hed' Hmd']. cbn [fst].
    assert (ex' = ez) as -> by (unfold ez in *; lia).
    unfold binary_normalize.
    destruct (Z.pos mx' - Z.pos md') as [|q|q] eqn:Hdiff.
    + by left.
    + destruct (binary_round_le false q ez mx ex Hb ltac:(unfold ez; lia) ltac:(lia))
        as [->|(m2 & e2 & -> & Hle)]; [by left|].
      right. by exists m2, e2.
    + left. destruct (binary_round_shape true q ez) as [->|[->|(m2 & e2 & ->)]]; done.
Qed.

(** The same on the primitive floats: a unit with positive hit points at
    most [M] that is hit for a damage [d] and not destroyed has positive hit
    points at most [M]. *)
Lemma float_hit (x d M : float) :
  (0 <? x)%float = true →
  (x <=? M)%float = true →
  SF_nonneg_finite (Prim2SF d) →
  (x - d <=? 0)%float = false →
  (0 <? x - d)%float = true ∧ (x - d <=? M)%float = true.
Proof.
  rewrite !ltb_spec, !leb_spec, sub_spec.
  change (Prim2SF 0) with (S754_zero false).
  pose proof (Prim2SF_valid x) as Hvx.
  destruct (Prim2SF x) as [sx|sx| |sx mx ex] eqn:Hx; try done.
  - (* infinite *)
    destruct sx; [done|]. intros _ HM [->|(md & ed & ->)] _; done.
  - destruct sx; [done|]. intros _ HM Hd Hr.
    destruct (SF64sub_damage mx ex (Prim2SF d) Hvx Hd) as [Hle|(m2 & e2 & Hr2 & Hle)];
      [congruence|].
    cbv zeta in Hr2. rewrite Hr2 in *. split; [done|].
    destruct (Prim2SF M) as [sM|sM| |sM mM eM]; try done.
    destruct sM; [done|]. apply SFleb_lex.
      eapply lex_le_trans; [exact Hle|]. by apply lex_le_inv.
Qed.

Lemma float_pos_not_le (x : float) : (0 <? x)%float = true → (x <=? 0)%float = false.
Proof.
  rewrite ltb_spec, leb_spec. change (Prim2SF 0) with (S754_zero false).
  by destruct (Prim2SF x) as [[]|[]| |[] m e].
Qed.

Lemma damage_spec ty : SF_nonneg_finite (Prim2SF (damage ty)).
Proof. destruct ty; vm_compute; first [by left | right; eauto]. Qed.

(** ** Objects and references *)

Lemma lookup_mutate i f w : objs (mutate i f w) !! i = f <$> objs w !! i.
Proof. apply list_lookup_alter_eq. Qed.

Lemma lookup_mutate_ne i j f w : i ≠ j → objs (mutate i f w) !! j = objs w !! j.
Proof. intros. by apply list_lookup_alter_ne. Qed.

Lemma lookup_mutate_Some i j f w x :
  objs (mutate i f w) !! j = Some x →
  ∃ y, objs w !! j = Some y ∧ (x = y ∨ (j = i ∧ x = f y)).
Proof.
  destruct (decide (i = j)) as [->|Hne].
  - rewrite lookup_mutate. destruct (objs w !! j) as [y|]; [|done].
    intros [= <-]. eauto.
  - rewrite lookup_mutate_ne by done. eauto.
Qed.

Lemma elem_of_registry w x :
  x ∈ registry w ↔ ∃ r, r ∈ live w ∧ objs w !! r = Some x.
Proof. unfold registry. rewrite list_elem_of_omap. naive_solver. Qed.

Lemma Forall_registry (P : Unit.t → Prop) w :
  Forall P (registry w) ↔ ∀ r x, r ∈ live w → objs w !! r = Some x → P x.
Proof.
  rewrite Forall_forall. split.
  - intros H r x Hr Hx. apply H, elem_of_registry. eauto.
  - intros H x (r & Hr & Hx)%elem_of_registry. eauto.
Qed.

Lemma find_ref_Some p os rs j t :
  find_ref p os rs = Some (j, t) → j ∈ rs ∧ os !! j = Some t ∧ p t = true.
Proof.
  induction rs as [|r rs IH]; simpl; [done|].
  destruct (os !! r) as [o|] eqn:Ho.
  - destruct (p o) eqn:Hp.
    + intros [= -> ->]. split; [left|done].
    + intros (? & ? & ?)%IH. split; [by right|done].
  - intros (? & ? & ?)%IH. split; [by right|done].
Qed.

Lemma find_ref_None p os rs :
  find_ref p os rs = None → ∀ r o, r ∈ rs → os !! r = Some o → p o = false.
Proof.
  induction rs as [|r' rs IH]; simpl; intros Hnone r o Hr Ho.
  - by apply elem_of_nil in Hr.
  - apply elem_of_cons in Hr as [->|Hr].
    + rewrite Ho in Hnone. by destruct (p o).
    + destruct (os !! r') as [o'|]; [destruct (p o'); [done|]|]; eauto.
Qed.

(** A unit-preserving assignment leaves the positions in the registry alone. *)
Lemma registry_mutate_fmap {B} (h : Unit.t → B) i f w :
  (∀ u, h (f u) = h u) →
  h <$> registry (mutate i f w) = h <$> registry w.
Proof.
  intros Hf. unfold registry; simpl.
  induction (live w) as [|r rs IH]; [done|].
  cbn [omap list_omap].
  destruct (decide (i = r)) as [Heq|Hne].
  - rewrite Heq in *. rewrite list_lookup_alter_eq.
    destruct (objs w !! r) as [o|]; csimpl; [|done].
    by rewrite Hf, IH.
  - rewrite list_lookup_alter_ne by done.
    destruct (objs w !! r) as [o|]; csimpl; [|done].
    by rewrite IH.
Qed.

Lemma isWalkable_free g us x y :
  isWalkable g us x y = true → (x, y) ∉ pos <$> us.
Proof.
  unfold isWalkable. repeat case_match; try done.
  intros Hex%negb_true_iff Hin.
  apply list_elem_of_fmap in Hin as (u & Hu & Hin).
  assert (existsb (at_cell x y) us = true) as Ht; [|congruence].
  apply existsb_exists. exists u. split; [by apply list_elem_of_In|].
  unfold pos in Hu. simplify_eq. unfold at_cell.
  by rewrite !Z.eqb_refl.
Qed.

Lemma isWalkable_in_grid g us x y :
  isWalkable g us x y = true →
  0 <= x < CONFIG.GRID_W ∧ 0 <= y < CONFIG.GRID_H ∧ cell g x y ≠ Some 1.
Proof.
  unfold isWalkable.
  destruct (_ || _) eqn:Hb; [done|].
  case_bool_decide; [done|]. intros _. zbool. repeat split; (lia || done).
Qed.

(** ** Movement *)

Lemma axis_step_spec u tx ty :
  axis_step u tx ty =
    if Z.abs (tx - Unit.gx u) >? Z.abs (ty - Unit.gy u)
    then (Unit.gx u + Z.sgn (tx - Unit.gx u), Unit.gy u)
    else (Unit.gx u, Unit.gy u + Z.sgn (ty - Unit.gy u)).
Proof.
  unfold axis_step.
  destruct (Z.abs (tx - Unit.gx u) >? Z.abs (ty - Unit.gy u)) eqn:Hgt;
    destruct (Z.abs (tx - Unit.gx u) <=? Z.abs (ty - Unit.gy u)) eqn:Hle;
    zbool; f_equal; lia.
Qed.

(** The step never stays in place when the unit is not on its target. *)
Lemma axis_step_moves u tx ty :
  pos u ≠ (tx, ty) → axis_step u tx ty ≠ pos u.
Proof.
  intros Hne. rewrite axis_step_spec. unfold pos in *.
  case_match; zbool; intros [=]; apply Hne; f_equal; lia.
Qed.

Lemma resolve_move_eq g w i u tx ty :
  objs w !! i = Some u → Unit.action u = move → Unit.target u = cell_ tx ty →
  resolve g i w = resolve_move g i u w.
Proof. intros Hu Ha Ht. unfold resolve. by rewrite Hu, Ha, Ht. Qed.

(** One iteration on a unit in the [move] action with a cell target, in any
    world: the step is along the axis of the larger absolute delta, vertically
    on a tie; if the destination is occupied or not walkable nothing changes;
    otherwise the unit moves there; and after the step the action is [noop]
    exactly when the unit stands on the target, the action and target being
    unchanged otherwise. *)
Lemma move_step g w i u tx ty :
  objs w !! i = Some u →
  Unit.action u = move →
  Unit.target u = cell_ tx ty →
  ∃ u', objs (resolve g i w) !! i = Some u' ∧
    axis_step u tx ty =
      (if Z.abs (tx - Unit.gx u) >? Z.abs (ty - Unit.gy u)
       then (Unit.gx u + Z.sgn (tx - Unit.gx u), Unit.gy u)
       else (Unit.gx u, Unit.gy u + Z.sgn (ty - Unit.gy u))) ∧
    (pos u ≠ (tx, ty) →
     isWalkable g (registry w) (axis_step u tx ty).1 (axis_step u tx ty).2 = false →
     resolve g i w = w ∧ u' = u) ∧
    (pos u ≠ (tx, ty) →
     isWalkable g (registry w) (axis_step u tx ty).1 (axis_step u tx ty).2 = true →
     pos u' = axis_step u tx ty) ∧
    (pos u = (tx, ty) → pos u' = pos u) ∧
    (Unit.action u' = noop ↔ pos u' = (tx, ty)) ∧
    (Unit.action u' ≠ noop →
     Unit.action u' = move ∧ Unit.target u' = cell_ tx ty).
Proof.
  intros Hu Ha Ht.
  rewrite (resolve_move_eq g w i u tx ty Hu Ha Ht).
  unfold resolve_move. rewrite Ht.
  destruct ((tx - Unit.gx u =? 0) && (ty - Unit.gy u =? 0)) eqn:Hat.
  - (* already on the target *)
    assert (pos u = (tx, ty)) as Hpos.
    { unfold pos. zbool. f_equal; lia. }
    exists (Unit.stop u). rewrite lookup_mutate, Hu.
    split; [done|]. split; [apply axis_step_spec|].
    repeat split; try done.
  - assert (pos u ≠ (tx, ty)) as Hpos.
    { unfold pos. intros [=]. zbool. lia. }
    destruct (axis_step u tx ty) as [nx ny] eqn:Hstep. simpl.
    unfold try_move.
    destruct (isWalkable g (registry w) nx ny) eqn:Hwalk.
    + (* the destination is free: the unit moves *)
      rewrite lookup_mutate, Hu. simpl.
      destruct ((nx =? tx) && (ny =? ty)) eqn:Harr.
      * exists (Unit.stop (Unit.set_pos nx ny u)).
        rewrite lookup_mutate, lookup_mutate, Hu.
        split; [done|]. split; [by rewrite <- Hstep, axis_step_spec|].
        zbool. destruct Harr as [-> ->].
        repeat split; try done.
      * exists (Unit.set_pos nx ny u).
        rewrite lookup_mutate, Hu.
        split; [done|]. split; [by rewrite <- Hstep, axis_step_spec|].
        assert ((nx, ny) ≠ (tx, ty)) by (intros [=]; zbool; lia).
        repeat split; simpl; try done; try congruence.
    + (* blocked: nothing changes *)
      rewrite Hu.
      destruct ((Unit.gx u =? tx) && (Unit.gy u =? ty)) eqn:Hon.
      { exfalso. apply Hpos. unfold pos. zbool. f_equal; lia. }
      exists u. split; [done|]. split; [by rewrite <- Hstep, axis_step_spec|].
      repeat split; try done; try congruence.
Qed.

(** ** Returning *)

Lemma resolve_return_eq g w i u tx ty :
  objs w !! i = Some u → Unit.action u = return_ → Unit.target u = cell_ tx ty →
  resolve g i w = resolve_return g i u w.
Proof. intros Hu Ha Ht. unfold resolve. by rewrite Hu, Ha, Ht. Qed.

(** One iteration on a unit in the [return] action with a cell target, in
    any world: at Manhattan distance at most 1 it deposits 25 gold per carried
    resource, its carried count is set to 0 and it becomes idle; at a greater
    distance nothing is deposited, the action and target are kept, and the
    unit takes the single-axis step when the destination is walkable and stays
    where it is when it is not. *)
Lemma return_step g w i u tx ty :
  objs w !! i = Some u →
  Unit.action u = return_ →
  Unit.target u = cell_ tx ty →
  (Z.abs (tx - Unit.gx u) + Z.abs (ty - Unit.gy u) <= 1 →
     objs (resolve g i w) !! i = Some (Unit.stop (Unit.set_carrying 0 u)) ∧
     w_gold (resolve g i w) = w_gold w + Unit.carrying u * 25 ∧
     Unit.carrying (Unit.stop (Unit.set_carrying 0 u)) = 0 ∧
     Unit.action (Unit.stop (Unit.set_carrying 0 u)) = noop) ∧
  (1 < Z.abs (tx - Unit.gx u) + Z.abs (ty - Unit.gy u) →
     w_gold (resolve g i w) = w_gold w ∧
     ∃ u', objs (resolve g i w) !! i = Some u' ∧
       Unit.carrying u' = Unit.carrying u ∧
       Unit.action u' = return_ ∧ Unit.target u' = cell_ tx ty ∧
       pos u' =
         if isWalkable g (registry w) (axis_step u tx ty).1 (axis_step u tx ty).2
         then axis_step u tx ty else pos u).
Proof.
  intros Hu Ha Ht.
  rewrite (resolve_return_eq g w i u tx ty Hu Ha Ht).
  unfold resolve_return. rewrite Ht. split; intros Hd.
  - destruct (_ <=? 1) eqn:Hle; zbool; [|lia].
    unfold emit; simpl. rewrite list_lookup_alter_eq, Hu. done.
  - destruct (_ <=? 1) eqn:Hle; zbool; [lia|].
    destruct (axis_step u tx ty) as [nx ny] eqn:Hstep. simpl.
    unfold try_move.
    destruct (isWalkable g (registry w) nx ny).
    + split; [done|]. exists (Unit.set_pos nx ny u).
      rewrite lookup_mutate, Hu. done.
    + split; [done|]. exists u. done.
Qed.

(** C6, refuted as stated: at distance 2 from its target the returning worker
    of [blocked_return] should step onto (2,1); that cell is occupied, and
    after the pass, and after the whole tick, the worker is where it was. *)
Lemma blocked_return_stays :
  let u := Unit.mk 7 worker 1 3 1 1 1 return_ (cell_ 1 1) 0 2 in
  units blocked_return !! 6%nat = Some u ∧
  occupancy (units blocked_return) ∧
  1 < Z.abs (1 - Unit.gx u) + Z.abs (1 - Unit.gy u) ∧
  axis_step u 1 1 = (2, 1) ∧
  units (processActions blocked_return) !! 6%nat = Some u ∧
  units (gameTick no_draw blocked_return) !! 6%nat = Some u ∧
  pos u ≠ axis_step u 1 1.
Proof.
  split_and!; try (vm_compute; reflexivity); try done.
  apply (bool_decide_unpack _). by vm_compute.
Qed.

(** ** Combat *)

Lemma resolve_attack_eq g w i u tid :
  objs w !! i = Some u → Unit.action u = attack → Unit.target u = unit_ tid →
  tid ≠ 0 →
  resolve g i w = resolve_attack g i u w.
Proof.
  intros Hu Ha Ht Hid. unfold resolve. rewrite Hu, Ha, Ht. simpl.
  by apply Z.eqb_neq in Hid as ->.
Qed.

(** What an attack does to the world, case by case. *)
Lemma attack_step g w i u tid j t :
  objs w !! i = Some u →
  Unit.action u = attack →
  Unit.target u = unit_ tid →
  tid ≠ 0 →
  find_ref (λ t, Unit.id t =? tid) (objs w) (live w) = Some (j, t) →
  (Unit.hp t <=? 0)%float = false →
  let h := (Unit.hp t - damage (Unit.type u))%float in
  let range := Def.range (CONFIG.UNIT_TYPES (Unit.type u)) in
  (manhattan u t <= range → (h <=? 0)%float = false →
     resolve g i w =
       set_rewards (Rewards.add_attack (1#20) (w_rewards w))
         (mutate j (Unit.set_hp h) w)) ∧
  (manhattan u t <= range → (h <=? 0)%float = true →
     resolve g i w =
       mkWorld
         (alter Unit.stop i (alter (Unit.set_hp h) j (objs w)))
         (List.filter (other_id (alter (Unit.set_hp h) j (objs w)) (Unit.id t))
            (live w))
         (w_gold w)
         (Rewards.add_combat (1#5) (Rewards.add_attack (1#20) (w_rewards w)))
         (w_events w ++ [emitExplosion (Unit.gx t) (Unit.gy t)]
                     ++ [log_destroyed (Unit.type u) (Unit.type t)])) ∧
  (range < manhattan u t →
     resolve g i w =
       if isWalkable g (registry w) (chase_step u t).1 (chase_step u t).2
       then mutate i (Unit.set_pos (chase_step u t).1 (chase_step u t).2) w
       else w).
Proof.
  intros Hu Ha Ht Hid Hfind Hhp h range.
  rewrite (resolve_attack_eq g w i u tid Hu Ha Ht Hid).
  unfold resolve_attack. rewrite Ht, Hfind, Hhp.
  fold range. fold h.
  repeat split.
  - intros Hin Hh. apply Z.leb_le in Hin as ->. by rewrite Hh.
  - intros Hin Hh. apply Z.leb_le in Hin as ->. rewrite Hh.
    unfold mutate, set_live, set_rewards, emit; simpl.
    by rewrite <- app_assoc.
  - intros Hout. apply Z.leb_gt in Hout as ->.
    unfold try_move. by destruct (chase_step u t).
Qed.

(** ** The elementary effects of a resolution

    Whatever the action, one iteration of the loop is a sequence of a few
    kinds of writes.  [op g] lists them with what the code has checked before
    making them; [resolve_ops] shows every iteration is such a sequence, and
    the invariants below are proved once per kind of write. *)

Lemma same_body_stop : same_body Unit.stop.
Proof. done. Qed.
Lemma same_body_action a : same_body (Unit.set_action a).
Proof. done. Qed.
Lemma same_body_target t : same_body (Unit.set_target t).
Proof. done. Qed.
Lemma same_body_progress p : same_body (Unit.set_progress p).
Proof. done. Qed.
Lemma same_body_harvested c : same_body (λ o, Unit.set_progress 0 (Unit.set_carrying c o)).
Proof. done. Qed.
Lemma same_body_deposit : same_body (λ o, Unit.stop (Unit.set_carrying 0 o)).
Proof. done. Qed.

Create HintDb ops discriminated.
#[local] Hint Resolve same_body_stop same_body_action same_body_target
  same_body_progress same_body_harvested same_body_deposit : ops.
#[local] Hint Constructors op : ops.

(** Peel the last write off the world in the goal. *)
Ltac peel :=
  lazymatch goal with
  | |- rtc (op _) _ (mutate _ _ _) =>
      eapply rtc_r; [|solve [eauto with ops]]; peel
  | |- rtc (op _) _ (emit _ _) => eapply rtc_r; [|apply op_emit]; peel
  | |- rtc (op _) _ (set_rewards _ _) => eapply rtc_r; [|apply op_rewards]; peel
  | |- rtc (op _) _ (set_gold _ _) => eapply rtc_r; [|apply op_gold]; peel
  | |- rtc (op _) _ (set_live _ _) =>
      eapply rtc_r; [|solve [eapply op_kill; eauto]]; peel
  | |- rtc (op _) _ _ => apply rtc_refl
  end.

Lemma resolve_move_ops g i u w : rtc (op g) w (resolve_move g i u w).
Proof.
  unfold resolve_move.
  destruct (Unit.target u); try apply rtc_refl.
  case_match; [peel|].
  destruct (axis_step _ _ _) as [nx ny].
  assert (rtc (op g) w (try_move g i nx ny w)) as Hmv.
  { unfold try_move. case_match; [peel | apply rtc_refl]. }
  repeat case_match; try done.
  eapply rtc_r; [exact Hmv | eauto with ops].
Qed.

Lemma resolve_harvest_ops g i u w : rtc (op g) w (resolve_harvest i u w).
Proof. unfold resolve_harvest. repeat case_match; peel. Qed.

Lemma resolve_return_ops g i u w : rtc (op g) w (resolve_return g i u w).
Proof.
  unfold resolve_return.
  destruct (Unit.target u); try apply rtc_refl.
  case_match; [peel|].
  destruct (axis_step _ _ _) as [nx ny].
  unfold try_move. case_match; [peel | apply rtc_refl].
Qed.

Lemma resolve_attack_ops g i u w : rtc (op g) w (resolve_attack g i u w).
Proof.
  unfold resolve_attack.
  destruct (Unit.target u) as [| |tid]; try peel.
  destruct (find_ref _ _ _) as [[j t]|] eqn:Hfind; [|peel].
  apply find_ref_Some in Hfind as (Hj & Ht & _).
  destruct (Unit.hp t <=? 0)%float; [peel|].
  destruct (manhattan u t <=? _).
  - destruct (_ <=? 0)%float eqn:Hh.
    + set (h := (Unit.hp t - damage (Unit.type u))%float).
      set (w1 := set_live
                   (List.filter (other_id (alter (Unit.set_hp h) j (objs w)) (Unit.id t))
                      (live w))
                   (mutate j (Unit.set_hp h) w)).
      change (rtc (op g) w
        (mutate i Unit.stop
          (set_rewards
             (Rewards.add_combat (1#5) (Rewards.add_attack (1#20) (w_rewards w)))
             (emit (log_destroyed (Unit.type u) (Unit.type t))
                (emit (emitExplosion (Unit.gx t) (Unit.gy t)) w1))))).
      subst w1. peel.
    + eapply rtc_r; [|apply op_rewards].
      eapply rtc_r; [apply rtc_refl|]. by eapply op_hit.
  - destruct (chase_step u t) as [nx ny].
    unfold try_move. case_match; [peel | apply rtc_refl].
Qed.

(** Every iteration of the loop is a sequence of elementary writes. *)
Lemma resolve_ops g i w : rtc (op g) w (resolve g i w).
Proof.
  unfold resolve. destruct (objs w !! i) as [u|]; [|apply rtc_refl].
  repeat case_match;
    auto using resolve_move_ops, resolve_harvest_ops, resolve_return_ops,
      resolve_attack_ops, rtc_refl.
Qed.

Lemma resolve_upto_S g k w :
  resolve_upto g (S k) w = resolve g k (resolve_upto g k w).
Proof. unfold resolve_upto. by rewrite seq_S, fold_left_app. Qed.

Lemma resolve_upto_ops g k w : rtc (op g) w (resolve_upto g k w).
Proof.
  induction k as [|k IH]; [apply rtc_refl|].
  rewrite resolve_upto_S. etrans; [exact IH | apply resolve_ops].
Qed.

(** An invariant of the elementary writes is an invariant of the pass. *)
Lemma ops_invariant g (I : world → Prop) :
  (∀ w w', op g w w' → I w → I w') →
  ∀ w w', rtc (op g) w w' → I w → I w'.
Proof. intros Hop w w' Hrtc. induction Hrtc; eauto. Qed.

(** ** The occupancy invariant *)

Lemma omap_alter_absent (os : list Unit.t) f i (rs : list nat) :
  i ∉ rs → omap (λ r, alter f i os !! r) rs = omap (λ r, os !! r) rs.
Proof.
  induction rs as [|r rs IH]; [done|].
  intros [Hne Hrs]%not_elem_of_cons. cbn [omap list_omap].
  rewrite list_lookup_alter_ne by done. by rewrite IH.
Qed.

Lemma moved_positions (os : list Unit.t) i x y (rs : list nat) p :
  p ∈ pos <$> omap (λ r, alter (Unit.set_pos x y) i os !! r) rs →
  p ∈ pos <$> omap (λ r, os !! r) rs ∨ p = (x, y).
Proof.
  intros (u & -> & (r & Hr & Hu)%list_elem_of_omap)%list_elem_of_fmap.
  destruct (decide (i = r)) as [->|Hne].
  - rewrite list_lookup_alter_eq in Hu.
    destruct (os !! r); simplify_eq/=. by right.
  - rewrite list_lookup_alter_ne in Hu by done.
    left. apply list_elem_of_fmap. exists u. split; [done|].
    apply list_elem_of_omap. eauto.
Qed.

Lemma move_fresh (os : list Unit.t) i x y (rs : list nat) :
  NoDup (pos <$> omap (λ r, os !! r) rs) →
  (x, y) ∉ pos <$> omap (λ r, os !! r) rs →
  NoDup (pos <$> omap (λ r, alter (Unit.set_pos x y) i os !! r) rs).
Proof.
  induction rs as [|r rs IH]; [done|].
  cbn [omap list_omap].
  destruct (decide (i = r)) as [Heq|Hne].
  - rewrite <- Heq. rewrite list_lookup_alter_eq.
    destruct (os !! i) as [o|] eqn:Ho; csimpl; [|done].
    intros [Hhd Htl]%NoDup_cons [Hxy Hfresh]%not_elem_of_cons.
    assert (i ∉ rs) as Hi.
    { intros Hi. apply Hhd. apply list_elem_of_fmap. exists o. split; [done|].
      apply list_elem_of_omap. eauto. }
    rewrite omap_alter_absent by done.
    by apply NoDup_cons.
  - rewrite list_lookup_alter_ne by done.
    destruct (os !! r) as [o|] eqn:Ho; csimpl; [|done].
    intros [Hhd Htl]%NoDup_cons [Hxy Hfresh]%not_elem_of_cons.
    apply NoDup_cons. split; [|by apply IH].
    intros [Hold | Hnew]%moved_positions; [done|].
    by apply Hxy.
Qed.

Lemma kill_sublist (os : list Unit.t) j t h (rs : list nat) :
  os !! j = Some t →
  omap (λ r, alter (Unit.set_hp h) j os !! r)
    (List.filter (other_id (alter (Unit.set_hp h) j os) (Unit.id t)) rs)
  `sublist_of` omap (λ r, os !! r) rs.
Proof.
  intros Ht. induction rs as [|r rs IH]; [done|].
  cbn [List.filter omap list_omap].
  unfold other_id at 1.
  destruct (decide (j = r)) as [<-|Hne].
  - rewrite list_lookup_alter_eq, Ht. simpl.
    rewrite Z.eqb_refl. simpl. by apply sublist_cons.
  - rewrite list_lookup_alter_ne by done.
    destruct (os !! r) as [o|] eqn:Ho.
    + destruct (negb _); cbn [omap list_omap].
      * rewrite list_lookup_alter_ne, Ho by done. by apply sublist_skip.
      * by apply sublist_cons.
    + cbn [omap list_omap]. by rewrite list_lookup_alter_ne, Ho by done.
Qed.

Lemma op_occupancy g w w' :
  op g w w' → occupancy (registry w) → occupancy (registry w').
Proof.
  unfold occupancy. intros Hop Hocc.
  destruct Hop as [i f w Hf|i x y w Hwalk|j t ty w Ht Hh|j t h w Ht|e w|r w|z w];
    try done.
  - rewrite (registry_mutate_fmap pos); [done|]. intros u. apply Hf.
  - apply isWalkable_free in Hwalk. by apply move_fresh.
  - by rewrite (registry_mutate_fmap pos).
  - eapply sublist_NoDup; [exact Hocc|].
    apply fmap_sublist. by apply kill_sublist.
Qed.

Lemma resolve_upto_occupancy g k w :
  occupancy (registry w) → occupancy (registry (resolve_upto g k w)).
Proof.
  apply (ops_invariant g (λ w, occupancy (registry w))); [apply op_occupancy|].
  apply resolve_upto_ops.
Qed.

Lemma omap_lookup_seq {A} (pre l : list A) :
  omap (λ r, (pre ++ l) !! r) (seq (length pre) (length l)) = l.
Proof.
  revert pre. induction l as [|x l IH]; intros pre; [done|].
  cbn [length seq omap list_omap].
  rewrite list_lookup_middle by done. f_equal.
  specialize (IH (pre ++ [x])).
  rewrite <- app_assoc, length_app, Nat.add_1_r in IH. exact IH.
Qed.

(** Entering the loop, [state.units] is the iterated array. *)
Lemma registry_enter s : registry (enter s) = units s.
Proof. apply (omap_lookup_seq [] (units s)). Qed.

Lemma processActions_occupancy s :
  occupancy (units s) → occupancy (units (processActions s)).
Proof.
  intros Hocc. unfold processActions; simpl.
  apply resolve_upto_occupancy. by rewrite registry_enter.
Qed.

(** ** Hit points stay in [(0, maxHp]] *)

Lemma op_hp_ok g w w' :
  op g w w' → Forall hp_ok (registry w) → Forall hp_ok (registry w').
Proof.
  intros Hop Hok.
  destruct Hop as [i f w Hf|i x y w Hwalk|j t ty w Ht Hh|j t h w Ht|e w|r w|z w];
    try done.
  - rewrite Forall_registry in Hok |- *. intros r x Hr Hx.
    apply lookup_mutate_Some in Hx as (y & Hy & [->|[-> ->]]); [by eauto|].
    specialize (Hok _ _ Hr Hy). specialize (Hf y) as (_ & _ & _ & _ & Hhp & Hmax).
    unfold hp_ok. by rewrite Hhp, Hmax.
  - rewrite Forall_registry in Hok |- *. intros r u Hr Hu.
    apply lookup_mutate_Some in Hu as (v & Hv & [->|[-> ->]]); [by eauto|].
    exact (Hok _ _ Hr Hv).
  - rewrite Forall_registry in Hok |- *. intros r u Hr Hu.
    apply lookup_mutate_Some in Hu as (v & Hv & [->|[-> ->]]); [by eauto|].
    simplify_eq. destruct (Hok _ _ Hr Ht) as [Hpos Hmax].
    unfold hp_ok; simpl. by apply float_hit; [| |apply damage_spec|].
  - rewrite Forall_forall in Hok |- *. intros u Hu. apply Hok.
    eapply elem_of_sublist; [exact Hu|]. by apply kill_sublist.
Qed.

Lemma resolve_upto_hp_ok g k w :
  Forall hp_ok (registry w) → Forall hp_ok (registry (resolve_upto g k w)).
Proof.
  apply (ops_invariant g (λ w, Forall hp_ok (registry w))); [apply op_hp_ok|].
  apply resolve_upto_ops.
Qed.

(** ** What the other phases of the tick do to the units *)

Lemma decide_ai_body us d u :
  Unit.id (decide_ai us d u) = Unit.id u ∧
  pos (decide_ai us d u) = pos u ∧
  Unit.hp (decide_ai us d u) = Unit.hp u ∧
  Unit.maxHp (decide_ai us d u) = Unit.maxHp u ∧
  Unit.carrying (decide_ai us d u) = Unit.carrying u.
Proof.
  unfold decide_ai.
  destruct (_ || _); [done|]. destruct (Def.isBuilding _); [done|].
  destruct (nearest_enemy u us) as [[d' t]|]; [destruct (d' <=? 8)|];
    try destruct d as [[a b]|]; by repeat split.
Qed.

Lemma fmap_imap_same {A B} (h : A → B) (f : nat → A → A) (l : list A) :
  (∀ k x, h (f k x) = h x) → h <$> imap f l = h <$> l.
Proof.
  revert f. induction l as [|x l IH]; intros f Hf; [done|].
  csimpl. rewrite Hf. f_equal. apply IH. intros k y. apply Hf.
Qed.

Lemma processAI_fmap {B} (h : Unit.t → B) rnd s :
  (∀ us d u, h (decide_ai us d u) = h u) →
  h <$> units (processAI rnd s) = h <$> units s.
Proof.
  intros Hh. unfold processAI. case_match; [done|]. simpl.
  by apply fmap_imap_same.
Qed.

Lemma Forall_fmap_same {A B} (h : A → B) (P : A → Prop) (R : B → Prop) (l k : list A) :
  (∀ x, P x ↔ R (h x)) → h <$> l = h <$> k → Forall P l → Forall P k.
Proof.
  intros HPR Heq Hl.
  assert (Forall R (h <$> k)) as Hk.
  { rewrite <- Heq, Forall_fmap. eapply Forall_impl; [exact Hl|].
    intros x. apply HPR. }
  rewrite Forall_fmap in Hk. eapply Forall_impl; [exact Hk|]. intros x. apply HPR.
Qed.

Lemma units_spawnUnit ty x y o s :
  units (spawnUnit ty x y o s) = units s ++ [fresh_unit ty x y o (nextUnitId s)].
Proof. done. Qed.

Lemma fresh_unit_hp_ok ty x y o id : hp_ok (fresh_unit ty x y o id).
Proof. unfold hp_ok; simpl. by destruct ty. Qed.

Lemma units_materialize pq x y s :
  units (materialize pq x y s) =
  units s ++ [fresh_unit (Order.unitType pq) x y 1 (nextUnitId s)].
Proof. unfold materialize. by case_match. Qed.

Lemma find_spot_walkable s pq x y :
  find_spot s pq = Some (x, y) →
  (x, y) ∈ spots pq ∧ isWalkable (grid s) (units s) x y = true.
Proof.
  unfold find_spot. intros [Hin Hw]%find_some. split; [|done].
  by apply list_elem_of_In.
Qed.

(** The units after one iteration of [processProduction]: unchanged, or one
    more unit on a walkable cell. *)
Lemma units_produce_at i s :
  units (produce_at i s) = units s ∨
  ∃ ty x y, isWalkable (grid s) (units s) x y = true ∧
            units (produce_at i s) = units s ++ [fresh_unit ty x y 1 (nextUnitId s)].
Proof.
  unfold produce_at.
  destruct (prodQueue s !! i) as [pq0|]; [|by left].
  case_match; [|by left].
  destruct (find_spot _ _) as [[x y]|] eqn:Hspot; [|by left].
  right. apply find_spot_walkable in Hspot as [_ Hw].
  exists (Order.unitType (tick_order pq0)), x, y. split; [done|].
  simpl. by rewrite units_materialize.
Qed.

Lemma fold_left_invariant {A B} (I : A → Prop) (f : A → B → A) (l : list B) a :
  (∀ a b, I a → I (f a b)) → I a → I (fold_left f l a).
Proof. intros Hf. revert a. induction l; simpl; eauto. Qed.

Lemma processProduction_invariant (I : state → Prop) s :
  (∀ i s, I s → I (produce_at i s)) → I s → I (processProduction s).
Proof.
  intros Hstep Hs. unfold processProduction.
  apply fold_left_invariant; [|done]. intros a b. apply Hstep.
Qed.

Lemma produce_at_occupancy i s :
  occupancy (units s) → occupancy (units (produce_at i s)).
Proof.
  intros Hocc. destruct (units_produce_at i s) as [->|(ty & x & y & Hw & ->)]; [done|].
  unfold occupancy. rewrite fmap_app. apply NoDup_app. split; [done|].
  split; [|apply NoDup_singleton].
  intros p Hp ->%list_elem_of_singleton.
  by apply isWalkable_free in Hw.
Qed.

Lemma produce_at_hp_ok i s :
  Forall hp_ok (units s) → Forall hp_ok (units (produce_at i s)).
Proof.
  intros Hok. destruct (units_produce_at i s) as [->|(ty & x & y & Hw & ->)]; [done|].
  apply Forall_app. split; [done|].
  apply Forall_singleton, fresh_unit_hp_ok.
Qed.

Lemma units_updateFog s : units (updateFog s) = units s.
Proof. unfold updateFog. by case_match. Qed.

Lemma units_gameTick rnd s :
  units (gameTick rnd s) = units (processProduction (processAI rnd (processActions (bump_cycle s)))).
Proof. unfold gameTick, updateUI. simpl. by rewrite units_updateFog. Qed.

Lemma processAI_occupancy rnd s :
  occupancy (units s) → occupancy (units (processAI rnd s)).
Proof.
  unfold occupancy. rewrite (processAI_fmap pos); [done|].
  intros us d u. apply decide_ai_body.
Qed.

Lemma processAI_hp_ok rnd s :
  Forall hp_ok (units s) → Forall hp_ok (units (processAI rnd s)).
Proof.
  apply (Forall_fmap_same (λ u, (Unit.hp u, Unit.maxHp u)) hp_ok
           (λ p, (0 <? p.1)%float = true ∧ (p.1 <=? float_of_Z p.2)%float = true));
    [done|].
  symmetry. apply processAI_fmap. intros us d u.
  destruct (decide_ai_body us d u) as (_ & _ & -> & -> & _). done.
Qed.

Lemma processActions_hp_ok s :
  Forall hp_ok (units s) → Forall hp_ok (units (processActions s)).
Proof.
  intros Hok. unfold processActions; simpl.
  apply resolve_upto_hp_ok. by rewrite registry_enter.
Qed.

Lemma gameTick_occupancy rnd s :
  occupancy (units s) → occupancy (units (gameTick rnd s)).
Proof.
  intros Hocc. rewrite units_gameTick.
  apply processProduction_invariant; [apply produce_at_occupancy|].
  by apply processAI_occupancy, processActions_occupancy.
Qed.

Lemma gameTick_hp_ok rnd s :
  Forall hp_ok (units s) → Forall hp_ok (units (gameTick rnd s)).
Proof.
  intros Hok. rewrite units_gameTick.
  apply (processProduction_invariant (λ s, Forall hp_ok (units s)));
    [apply produce_at_hp_ok|].
  by apply processAI_hp_ok, processActions_hp_ok.
Qed.

(** C2.  The occupancy invariant -- no two units of [state.units] on the same
    cell -- is preserved by a tick, and already by each of its steps: it holds
    after every iteration of the loop of [processActions] (whatever moves,
    hits and removals came before), after every iteration of the loop of
    [processProduction], after the whole tick and after any number of ticks. *)
Theorem occupancy_preserved s :
  occupancy (units s) →
  (∀ k, occupancy (registry (resolve_upto (grid s) k (enter s)))) ∧
  (∀ i, occupancy (units (produce_at i s))) ∧
  (∀ rnd, occupancy (units (gameTick rnd s))) ∧
  (∀ rnds n, occupancy (units (gameTicks rnds n s))).
Proof.
  intros Hocc. repeat split.
  - intros k. apply resolve_upto_occupancy. by rewrite registry_enter.
  - intros i. by apply produce_at_occupancy.
  - intros rnd. by apply gameTick_occupancy.
  - intros rnds n. induction n as [|n IH]; [done|].
    simpl. by apply gameTick_occupancy.
Qed.

(** A kill removes every unit carrying the victim's identifier. *)
Lemma kill_removes g w i u tid j t :
  objs w !! i = Some u →
  Unit.action u = attack →
  Unit.target u = unit_ tid →
  tid ≠ 0 →
  find_ref (λ t, Unit.id t =? tid) (objs w) (live w) = Some (j, t) →
  (Unit.hp t <=? 0)%float = false →
  manhattan u t <= Def.range (CONFIG.UNIT_TYPES (Unit.type u)) →
  (Unit.hp t - damage (Unit.type u) <=? 0)%float = true →
  ∀ x, x ∈ registry (resolve g i w) → Unit.id x ≠ Unit.id t.
Proof.
  intros Hu Ha Ht Hid Hfind Hhp Hin Hh x.
  destruct (attack_step g w i u tid j t Hu Ha Ht Hid Hfind Hhp) as (_ & Hkill & _).
  rewrite (Hkill Hin Hh). clear Hkill.
  intros (r & Hr & Hx)%elem_of_registry. simpl in Hr, Hx.
  apply list_elem_of_In, filter_In in Hr as [_ Hother].
  unfold other_id in Hother.
  destruct (decide (i = r)) as [->|Hne].
  - rewrite list_lookup_alter_eq in Hx.
    destruct (alter _ j (objs w) !! r) as [y|]; simplify_eq/=.
    by apply negb_true_iff, Z.eqb_neq in Hother.
  - rewrite list_lookup_alter_ne in Hx by done.
    rewrite Hx in Hother. by apply negb_true_iff, Z.eqb_neq in Hother.
Qed.

(** C3.  If every unit of [state.units] has its hit points in [(0, maxHp]],
    this is still so after every iteration of the loop of [processActions],
    after [processActions], after a whole tick and after any number of ticks:
    no unit with [hp <= 0] is ever in the registry.  And the iteration in which
    an attack brings the target's hit points to 0 or below leaves no unit with
    the target's identifier in the registry. *)
Theorem hp_in_range s :
  Forall hp_ok (units s) →
  (∀ k, Forall hp_ok (registry (resolve_upto (grid s) k (enter s)))) ∧
  Forall hp_ok (units (processActions s)) ∧
  (∀ rnd, Forall hp_ok (units (gameTick rnd s))) ∧
  (∀ rnds n, Forall hp_ok (units (gameTicks rnds n s))) ∧
  (∀ k i u tid j t,
     let w := resolve_upto (grid s) k (enter s) in
     objs w !! i = Some u →
     Unit.action u = attack → Unit.target u = unit_ tid → tid ≠ 0 →
     find_ref (λ t, Unit.id t =? tid) (objs w) (live w) = Some (j, t) →
     manhattan u t <= Def.range (CONFIG.UNIT_TYPES (Unit.type u)) →
     (Unit.hp t - damage (Unit.type u) <=? 0)%float = true →
     ∀ x, x ∈ registry (resolve (grid s) i w) → Unit.id x ≠ Unit.id t).
Proof.
  intros Hok.
  assert (∀ k, Forall hp_ok (registry (resolve_upto (grid s) k (enter s)))) as Hpass.
  { intros k. apply resolve_upto_hp_ok. by rewrite registry_enter. }
  repeat split; try done.
  - by apply processActions_hp_ok.
  - intros rnd. by apply gameTick_hp_ok.
  - intros rnds n. induction n as [|n IH]; [done|].
    simpl. by apply gameTick_hp_ok.
  - intros k i u tid j t w Hu Ha Ht Hid Hfind Hin Hh.
    eapply kill_removes; eauto.
    apply find_ref_Some in Hfind as (Hj & Hjt & _).
    specialize (Hpass k). rewrite Forall_registry in Hpass.
    apply float_pos_not_le. by destruct (Hpass j t Hj Hjt).
Qed.

(** ** The reward accumulators *)

Lemma Rewards_le_refl r : Rewards.le r r.
Proof. unfold Rewards.le. repeat split; apply Qle_refl. Qed.

Lemma Rewards_le_trans a b c : Rewards.le a b → Rewards.le b c → Rewards.le a c.
Proof.
  unfold Rewards.le.
  intros (?&?&?&?&?&?) (?&?&?&?&?&?). repeat split; eapply Qle_trans; eauto.
Qed.

Lemma Rewards_le_add_resources q r : (0 <= q)%Q → Rewards.le r (Rewards.add_resources q r).
Proof. intros. unfold Rewards.le; simpl. repeat split; lra. Qed.
Lemma Rewards_le_add_workers q r : (0 <= q)%Q → Rewards.le r (Rewards.add_workers q r).
Proof. intros. unfold Rewards.le; simpl. repeat split; lra. Qed.
Lemma Rewards_le_add_attack q r : (0 <= q)%Q → Rewards.le r (Rewards.add_attack q r).
Proof. intros. unfold Rewards.le; simpl. repeat split; lra. Qed.
Lemma Rewards_le_add_combat q r : (0 <= q)%Q → Rewards.le r (Rewards.add_combat q r).
Proof. intros. unfold Rewards.le; simpl. repeat split; lra. Qed.

Lemma deposit_nonneg c : 0 <= c → (0 <= inject_Z c * (1#10))%Q.
Proof.
  intros Hc. apply Qmult_le_0_compat; [|done].
  change 0%Q with (inject_Z 0). by rewrite <- Zle_Qle.
Qed.

(** Every object of the pass carries a non-negative number of resources, and
    this is all the accumulators need in order not to go down. *)
Lemma resolve_rewards g i w :
  Forall carrying_ok (objs w) →
  Forall carrying_ok (objs (resolve g i w)) ∧
  Rewards.le (w_rewards w) (w_rewards (resolve g i w)).
Proof.
  intros Hok. unfold resolve.
  destruct (objs w !! i) as [u|] eqn:Hu; [|split; [done|apply Rewards_le_refl]].
  assert (carrying_ok u) as Hcu by (by eapply Forall_lookup_1).
  unfold carrying_ok in Hcu.
  unfold resolve_move, resolve_harvest, resolve_return, resolve_attack, try_move.
  repeat case_match; simpl;
    (split;
     [ repeat (apply Forall_alter; [|intros ? _ ?; unfold carrying_ok in *; simpl; lia]);
       done
     | repeat first
         [ apply Rewards_le_refl
         | apply Rewards_le_add_resources; by apply deposit_nonneg
         | eapply Rewards_le_trans; [|apply Rewards_le_add_combat; done]
         | apply Rewards_le_add_attack; done ] ]).
Qed.

Lemma resolve_upto_rewards g k w :
  Forall carrying_ok (objs w) →
  Forall carrying_ok (objs (resolve_upto g k w)) ∧
  Rewards.le (w_rewards w) (w_rewards (resolve_upto g k w)).
Proof.
  intros Hok. induction k as [|k [IHc IHr]].
  - split; [done|apply Rewards_le_refl].
  - rewrite resolve_upto_S.
    destruct (resolve_rewards g k _ IHc) as [Hc Hr].
    split; [done|]. by eapply Rewards_le_trans.
Qed.

Lemma registry_subseteq w : registry w ⊆ objs w.
Proof.
  intros x (r & _ & Hx)%elem_of_registry. by eapply list_elem_of_lookup_2.
Qed.

Lemma processActions_rewards s :
  Forall carrying_ok (units s) →
  Forall carrying_ok (units (processActions s)) ∧
  Rewards.le (rewards s) (rewards (processActions s)).
Proof.
  intros Hok.
  destruct (resolve_upto_rewards (grid s) (length (units s)) (enter s) Hok)
    as [Hc Hr].
  split; [|exact Hr].
  unfold processActions; simpl.
  rewrite Forall_forall in Hc |- *. intros x Hx. by apply Hc, registry_subseteq.
Qed.

Lemma processAI_rewards rnd s :
  Forall carrying_ok (units s) →
  Forall carrying_ok (units (processAI rnd s)) ∧
  rewards (processAI rnd s) = rewards s.
Proof.
  intros Hok. split.
  - revert Hok.
    apply (Forall_fmap_same Unit.carrying carrying_ok (λ c, 0 <= c)); [done|].
    symmetry. apply processAI_fmap. intros us d u. apply decide_ai_body.
  - unfold processAI. by case_match.
Qed.

Lemma rewards_materialize pq x y s :
  Rewards.le (rewards s) (rewards (materialize pq x y s)).
Proof.
  unfold materialize. case_match; simpl.
  - by apply Rewards_le_add_workers.
  - by apply Rewards_le_add_combat.
Qed.

Lemma produce_at_rewards i s :
  Forall carrying_ok (units s) →
  Forall carrying_ok (units (produce_at i s)) ∧
  Rewards.le (rewards s) (rewards (produce_at i s)).
Proof.
  intros Hok. split.
  - destruct (units_produce_at i s) as [->|(ty & x & y & _ & ->)]; [done|].
    apply Forall_app. split; [done|]. by apply Forall_singleton.
  - unfold produce_at.
    destruct (prodQueue s !! i) as [pq0|]; [|apply Rewards_le_refl].
    case_match; [|apply Rewards_le_refl].
    destruct (find_spot _ _) as [[x y]|]; [|apply Rewards_le_refl].
    simpl. apply (rewards_materialize _ x y (set_prodQueue _ s)).
Qed.

Lemma processProduction_rewards s :
  Forall carrying_ok (units s) →
  Forall carrying_ok (units (processProduction s)) ∧
  Rewards.le (rewards s) (rewards (processProduction s)).
Proof.
  intros Hok.
  apply (processProduction_invariant
           (λ s', Forall carrying_ok (units s') ∧ Rewards.le (rewards s) (rewards s')));
    [|split; [done|apply Rewards_le_refl]].
  intros i s' [Hc Hr]. destruct (produce_at_rewards i s' Hc) as [Hc' Hr'].
  split; [done|]. by eapply Rewards_le_trans.
Qed.

Lemma rewards_updateFog s : rewards (updateFog s) = rewards s.
Proof. unfold updateFog. by case_match. Qed.

Lemma gameTick_rewards rnd s :
  Forall carrying_ok (units s) →
  Forall carrying_ok (units (gameTick rnd s)) ∧
  Rewards.le (rewards s) (rewards (gameTick rnd s)).
Proof.
  intros Hok.
  destruct (processActions_rewards (bump_cycle s) Hok) as [Hc1 Hr1].
  destruct (processAI_rewards rnd _ Hc1) as [Hc2 Hr2].
  destruct (processProduction_rewards _ Hc2) as [Hc3 Hr3].
  rewrite units_gameTick. split; [done|].
  unfold gameTick, updateUI; simpl. rewrite rewards_updateFog.
  eapply Rewards_le_trans; [exact Hr1|]. by rewrite <- Hr2.
Qed.

Lemma gameTicks_rewards rnds n s :
  Forall carrying_ok (units s) →
  Forall carrying_ok (units (gameTicks rnds n s)) ∧
  Rewards.le (rewards (gameTicks rnds n s)) (rewards (gameTicks rnds (S n) s)).
Proof.
  intros Hok.
  assert (Forall carrying_ok (units (gameTicks rnds n s))) as Hn.
  { induction n as [|n IH]; [done|]. simpl. by apply gameTick_rewards. }
  split; [done|]. simpl. by apply gameTick_rewards.
Qed.

(** C10.  In a state whose units carry non-negative amounts (as every unit
    does from [spawnUnit] on, and the lemma says it stays so), none of the six
    accumulators goes down: not in [processActions], not in
    [processProduction], not over a tick, and so the accumulators after [n]
    ticks are at most those after any [m >= n] ticks; [processAI],
    [updateFog] and [toggleFog] do not touch them. *)
Theorem rewards_monotone s :
  Forall carrying_ok (units s) →
  Rewards.le (rewards s) (rewards (processActions s)) ∧
  Rewards.le (rewards s) (rewards (processProduction s)) ∧
  (∀ rnd, rewards (processAI rnd s) = rewards s) ∧
  rewards (updateFog s) = rewards s ∧
  rewards (toggleFog s) = rewards s ∧
  (∀ rnd, Rewards.le (rewards s) (rewards (gameTick rnd s)) ∧
          Forall carrying_ok (units (gameTick rnd s))) ∧
  (∀ rnds n m, (n ≤ m)%nat →
     Rewards.le (rewards (gameTicks rnds n s)) (rewards (gameTicks rnds m s))).
Proof.
  intros Hok. split_and!.
  - by apply processActions_rewards.
  - by apply processProduction_rewards.
  - intros rnd. by apply processAI_rewards.
  - apply rewards_updateFog.
  - unfold toggleFog. by rewrite rewards_updateFog.
  - intros rnd. split; by apply gameTick_rewards.
  - intros rnds n m Hnm. induction Hnm as [|m Hnm IH]; [apply Rewards_le_refl|].
    eapply Rewards_le_trans; [exact IH|]. by apply gameTicks_rewards.
Qed.

(** ** Fog of war *)

Section fog_writes.
Variable J : nat → nat → Z → Z → Prop.
Hypothesis J_trans : ∀ x y a b c, J x y a b → J x y b c → J x y a c.

Lemma fog_writes_refl f : fog_writes J f f.
Proof. intros x y c Hc. eauto. Qed.

Lemma fog_writes_trans f g h :
  fog_writes J f g → fog_writes J g h → fog_writes J f h.
Proof using J_trans.
  intros Hfg Hgh x y c Hc.
  destruct (Hfg x y c Hc) as (c1 & Hc1 & H1).
  destruct (Hgh x y c1 Hc1) as (c2 & Hc2 & H2).
  exists c2. split; [done|].
  destruct H1 as [->|H1], H2 as [->|H2]; eauto.
Qed.

Lemma fog_writes_set x y v f :
  (∀ c, fog_at f x y = Some c → J x y c v) →
  fog_writes J f (fog_set x y v f).
Proof.
  intros HJ x' y' c Hc. unfold fog_at, fog_set in *.
  destruct (f !! y') as [row|] eqn:Hrow; simplify_eq/=.
  destruct (decide (y = y')) as [->|Hy].
  - rewrite list_lookup_alter_eq, Hrow. simpl.
    destruct (decide (x = x')) as [->|Hx].
    + exists v. rewrite list_lookup_insert_eq by (by eapply lookup_lt_Some).
      split; [done|]. right. apply HJ. by rewrite Hrow.
    + exists c. rewrite list_lookup_insert_ne by done. by split; [|left].
  - exists c. rewrite list_lookup_alter_ne, Hrow by done. by split; [|left].
Qed.

Lemma fog_writes_fold {A} (step : list (list Z) → A → list (list Z)) (l : list A) f :
  (∀ f a, a ∈ l → fog_writes J f (step f a)) →
  fog_writes J f (fold_left step l f).
Proof using J_trans.
  revert f. induction l as [|a l IH]; intros f Hstep; [apply fog_writes_refl|].
  simpl. eapply fog_writes_trans.
  - apply Hstep. left.
  - apply IH. intros f' a' Ha'. apply Hstep. by right.
Qed.

Lemma fog_writes_for_cells body f :
  (∀ x y f, fog_writes J f (body x y f)) →
  fog_writes J f (for_cells body f).
Proof using J_trans.
  intros Hbody. unfold for_cells.
  apply fog_writes_fold. intros f1 y _.
  apply fog_writes_fold. intros f2 x _. apply Hbody.
Qed.
End fog_writes.

Lemma downgrade_writes f : fog_writes J_downgrade f (for_cells downgrade f).
Proof.
  apply fog_writes_for_cells.
  - intros x y a b c [_ ->] [[=] _].
  - intros x y f'. unfold downgrade. case_bool_decide as Hv.
    + apply fog_writes_set. intros c Hc. split; congruence.
    + apply fog_writes_refl.
Qed.

Lemma force_writes f : fog_writes J_force f (for_cells (λ x y f, fog_set x y 2 f) f).
Proof.
  apply fog_writes_for_cells; [done|].
  intros x y f'. by apply fog_writes_set.
Qed.

Lemma reveal_cell_writes us u dx dy f :
  u ∈ us → Unit.owner u = 1 →
  fog_writes (J_reveal us) f (reveal_cell u dx dy f).
Proof.
  intros Hu Ho. unfold reveal_cell.
  destruct (_ >? _) eqn:Hfar; [apply fog_writes_refl|].
  destruct (_ && _) eqn:Hin; [|apply fog_writes_refl].
  apply fog_writes_set. intros c _. split; [done|].
  exists u. split; [done|]. split; [done|].
  unfold in_vision. zbool. destruct Hin as [[[Hx0 _] Hy0] _].
  rewrite !Z2Nat.id by lia.
  replace (Unit.gx u + dx - Unit.gx u) with dx by lia.
  replace (Unit.gy u + dy - Unit.gy u) with dy by lia. lia.
Qed.

Lemma J_reveal_trans us x y a b c :
  J_reveal us x y a b → J_reveal us x y b c → J_reveal us x y a c.
Proof. by intros _ ?. Qed.

Lemma reveal_writes us f :
  fog_writes (J_reveal us) f (fold_left reveal us f).
Proof.
  apply fog_writes_fold; [apply J_reveal_trans|].
  intros f' u Hu. unfold reveal.
  destruct (negb _) eqn:Ho; [apply fog_writes_refl|]. zbool.
  apply fog_writes_fold; [apply J_reveal_trans|]. intros f1 dy _.
  apply fog_writes_fold; [apply J_reveal_trans|]. intros f2 dx _.
  by apply reveal_cell_writes.
Qed.

Lemma fog_at_set_eq f x y v c :
  fog_at f x y = Some c → fog_at (fog_set x y v f) x y = Some v.
Proof.
  unfold fog_at, fog_set. intros Hc.
  destruct (f !! y) as [row|] eqn:Hrow; simplify_eq/=.
  rewrite list_lookup_alter_eq, Hrow. simpl.
  apply list_lookup_insert_eq. by eapply lookup_lt_Some.
Qed.

Lemma J_force_trans x y a b c : J_force x y a b → J_force x y b c → J_force x y a c.
Proof. by intros _ ?. Qed.

(** A fold of forcing writes that visits [a], where the cell is written,
    leaves the cell Visible. *)
Lemma force_fold_hit {A} (step : list (list Z) → A → list (list Z)) (l : list A)
    a x y f c :
  a ∈ l →
  (∀ f b, fog_writes J_force f (step f b)) →
  (∀ f c, fog_at f x y = Some c → fog_at (step f a) x y = Some 2) →
  fog_at f x y = Some c →
  fog_at (fold_left step l f) x y = Some 2.
Proof.
  intros Ha Hstep Hhit. revert f c.
  induction l as [|b l IH]; intros f c Hc; [by apply elem_of_nil in Ha|].
  simpl. apply elem_of_cons in Ha as [<-|Ha].
  - pose proof (Hhit f c Hc) as H2.
    destruct (fog_writes_fold J_force J_force_trans step l (step f a)
                (λ f' b' _, Hstep f' b') x y 2 H2) as (c' & Hc' & [->| ->]);
      exact Hc'.
  - destruct (Hstep f b x y c Hc) as (c1 & Hc1 & _). by eapply IH.
Qed.

(** With the fog disabled, every cell of the 16 x 16 grid ends up Visible. *)
Lemma force_all f x y c :
  (x < 16)%nat → (y < 16)%nat →
  fog_at f x y = Some c →
  fog_at (for_cells (λ x y f, fog_set x y 2 f) f) x y = Some 2.
Proof.
  intros Hx Hy Hc. unfold for_cells.
  eapply (force_fold_hit _ _ y); [|..|exact Hc].
  - apply elem_of_seq. unfold CONFIG.GRID_H. lia.
  - intros f1 y1. apply fog_writes_fold; [apply J_force_trans|].
    intros f2 x2 _. by apply fog_writes_set.
  - intros f1 c1 Hc1. eapply (force_fold_hit _ _ x); [|..|exact Hc1].
    + apply elem_of_seq. unfold CONFIG.GRID_W. lia.
    + intros f2 x2. by apply fog_writes_set.
    + intros f2 c2 Hc2. by eapply fog_at_set_eq.
Qed.

(** What one recomputation of the fog does to a cell that exists. *)
Lemma updateFog_cell s x y c :
  fog_at (fogGrid s) x y = Some c →
  ∃ c', fog_at (fogGrid (updateFog s)) x y = Some c' ∧
    (c ≠ 0 → c' ≠ 0) ∧
    (fogEnabled s = true → c = 0 → c' = 2 →
     ∃ u, u ∈ units s ∧ Unit.owner u = 1 ∧ in_vision u x y) ∧
    (fogEnabled s = false → (x < 16)%nat → (y < 16)%nat → c' = 2).
Proof.
  intros Hc. unfold updateFog.
  destruct (fogEnabled s); simpl.
  - destruct (downgrade_writes (fogGrid s) x y c Hc) as (c1 & Hc1 & H1).
    destruct (reveal_writes (units s) _ x y c1 Hc1) as (c2 & Hc2 & H2).
    exists c2. split; [done|].
    unfold J_downgrade, J_reveal in *. split_and!; [| |done].
    + intros Hne. destruct H1 as [->|[-> ->]], H2 as [->|[-> _]]; done.
    + intros _ -> ->.
      destruct H1 as [->|[? _]]; [|done]. by destruct H2 as [?|[_ Hu]].
  - destruct (force_writes (fogGrid s) x y c Hc) as (c1 & Hc1 & H1).
    exists c1. split; [done|]. split_and!; [|done|].
    + intros Hne. by destruct H1 as [-> | ->].
    + intros _ Hx Hy. pose proof (force_all _ x y c Hx Hy Hc) as Hall.
      congruence.
Qed.

Lemma fog_produce_at i s :
  fogGrid (produce_at i s) = fogGrid s ∧ fogEnabled (produce_at i s) = fogEnabled s.
Proof.
  unfold produce_at. destruct (prodQueue s !! i); [|done].
  case_match; [|done]. destruct (find_spot _ _) as [[x y]|]; [|done].
  unfold materialize. by case_match.
Qed.

Lemma fog_before_updateFog rnd s :
  let s' := processProduction (processAI rnd (processActions (bump_cycle s))) in
  fogGrid s' = fogGrid s ∧ fogEnabled s' = fogEnabled s.
Proof.
  apply (processProduction_invariant
           (λ s', fogGrid s' = fogGrid s ∧ fogEnabled s' = fogEnabled s)).
  - intros i s1 [<- <-]. apply fog_produce_at.
  - unfold processAI. by case_match.
Qed.

(** The recomputation in any state.  For a cell of the fog grid holding [c]:
    after [updateFog], after a whole tick and after [toggleFog] the cell still
    exists and, if it was not Hidden, it is not Hidden; when the
    recomputation runs with the fog enabled, a cell that goes from Hidden (0)
    to Visible (2) is within the vision radius of a unit of player 1 of
    [state.units] at that moment; and when it runs with the fog disabled,
    every cell of the 16 x 16 grid is Visible afterwards. *)
Lemma fog_recomputation s x y c :
  fog_at (fogGrid s) x y = Some c →
  (∃ c', fog_at (fogGrid (updateFog s)) x y = Some c' ∧
     (c ≠ 0 → c' ≠ 0) ∧
     (fogEnabled s = true → c = 0 → c' = 2 →
      ∃ u, u ∈ units s ∧ Unit.owner u = 1 ∧ in_vision u x y) ∧
     (fogEnabled s = false → (x < 16)%nat → (y < 16)%nat → c' = 2)) ∧
  (∀ rnd, ∃ c', fog_at (fogGrid (gameTick rnd s)) x y = Some c' ∧
     (c ≠ 0 → c' ≠ 0) ∧
     (fogEnabled s = true → c = 0 → c' = 2 →
      ∃ u, u ∈ units (gameTick rnd s) ∧ Unit.owner u = 1 ∧ in_vision u x y) ∧
     (fogEnabled s = false → (x < 16)%nat → (y < 16)%nat → c' = 2)) ∧
  (∃ c', fog_at (fogGrid (toggleFog s)) x y = Some c' ∧
     (c ≠ 0 → c' ≠ 0) ∧
     (fogEnabled s = false → c = 0 → c' = 2 →
      ∃ u, u ∈ units s ∧ Unit.owner u = 1 ∧ in_vision u x y) ∧
     (fogEnabled s = true → (x < 16)%nat → (y < 16)%nat → c' = 2)).
Proof.
  intros Hc. split_and!.
  - by apply updateFog_cell.
  - intros rnd.
    destruct (fog_before_updateFog rnd s) as [Hfog Hen].
    rewrite units_gameTick.
    set (s' := processProduction _) in *.
    rewrite <- Hfog in Hc.
    destruct (updateFog_cell s' x y c Hc) as (c' & Hc' & Hkeep & Hsee & Hoff).
    exists c'. split; [exact Hc'|]. split; [done|].
    rewrite Hen in Hsee, Hoff. by split.
  - unfold toggleFog.
    set (s' := mkState _ _ _ _ _ _ _ _ _ _ _).
    destruct (updateFog_cell s' x y c Hc) as (c' & Hc' & Hkeep & Hsee & Hoff).
    exists c'. split; [exact Hc'|]. split; [done|].
    split.
    + intros He. apply Hsee. subst s'. simpl. by rewrite He.
    + intros He. apply Hoff. subst s'. simpl. by rewrite He.
Qed.

(** Outside the ticks: in the opening position the cell (15,15) is Hidden and
    no unit of player 1 is within the vision radius of it; the player switches
    the fog off, and [toggleFog] makes the cell Visible.  The tick that
    follows finds it Visible and leaves it Visible, no unit of player 1 having
    come any nearer. *)
Lemma fog_off_reveals_unseen_cell :
  let far u := Unit.owner u = 1 → ¬ in_vision u 15 15 in
  let off := toggleFog init in
  fogEnabled init = true ∧
  fog_at (fogGrid init) 15 15 = Some 0 ∧
  Forall far (units init) ∧
  fog_at (fogGrid off) 15 15 = Some 2 ∧
  Forall far (units off) ∧
  fog_at (fogGrid (gameTick no_draw off)) 15 15 = Some 2 ∧
  Forall far (units (gameTick no_draw off)).
Proof.
  assert (∀ us, forallb (λ u, negb (Unit.owner u =? 1)
                              || (16 <? (15 - Unit.gx u) * (15 - Unit.gx u)
                                        + (15 - Unit.gy u) * (15 - Unit.gy u))) us = true →
                Forall (λ u, Unit.owner u = 1 → ¬ in_vision u 15 15) us) as Hfar.
  { intros us Hall. apply Forall_forall. intros u Hu%list_elem_of_In.
    rewrite forallb_forall in Hall. specialize (Hall u Hu).
    unfold in_vision. simpl. zbool. unfold CONFIG.VISION_RANGE. lia. }
  split_and!; try (vm_compute; reflexivity); apply Hfar; vm_compute; reflexivity.
Qed.

(** ** The production queue *)

Lemma prodQueue_materialize pq x y s :
  prodQueue (materialize pq x y s) = prodQueue s.
Proof. unfold materialize. by case_match. Qed.

(** The queue after the iteration at index [i]: the order is ticked, and it
    is taken out whenever it has reached its total, whether or not a spot
    was found. *)
Lemma prodQueue_produce_at i s pq0 :
  prodQueue s !! i = Some pq0 →
  prodQueue (produce_at i s) =
    if unfinished (tick_order pq0) then <[i := tick_order pq0]> (prodQueue s)
    else delete i (<[i := tick_order pq0]> (prodQueue s)).
Proof.
  intros Hi. unfold produce_at, unfinished. rewrite Hi.
  destruct (_ >=? _); simpl; [|done].
  destruct (find_spot _ _) as [[x y]|]; [|done].
  by rewrite prodQueue_materialize.
Qed.

Lemma production_queue_from (q1 q2 : list Order.t) s :
  prodQueue s = q1 ++ q2 →
  prodQueue (fold_left (λ s i, produce_at i s) (rev (seq 0 (length q1))) s) =
  List.filter unfinished (tick_order <$> q1) ++ q2.
Proof.
  revert q2 s. induction q1 as [|pq q1 IH] using rev_ind; intros q2 s Hq; [done|].
  rewrite length_app, Nat.add_1_r, seq_S, rev_app_distr. simpl.
  assert (prodQueue s !! length q1 = Some pq) as Hi.
  { rewrite Hq, <- app_assoc. by apply list_lookup_middle. }
  pose proof (prodQueue_produce_at _ _ _ Hi) as Hstep.
  assert (<[length q1 := tick_order pq]> (prodQueue s) = q1 ++ tick_order pq :: q2)
    as Hins.
  { rewrite Hq, <- app_assoc. simpl.
    rewrite <- (Nat.add_0_r (length q1)) at 1. by rewrite insert_app_r. }
  rewrite Hins in Hstep.
  rewrite fmap_app, List.filter_app. simpl.
  destruct (unfinished (tick_order pq)).
  - rewrite (IH (tick_order pq :: q2) _ Hstep). by rewrite <- app_assoc.
  - rewrite delete_middle in Hstep.
    rewrite (IH q2 _ Hstep). by rewrite app_nil_r.
Qed.

Lemma processProduction_queue s :
  prodQueue (processProduction s) =
  List.filter unfinished (tick_order <$> prodQueue s).
Proof.
  unfold processProduction.
  rewrite (production_queue_from (prodQueue s) [] s) by (by rewrite app_nil_r).
  by rewrite app_nil_r.
Qed.

Lemma delete_insert_same {A} (l : list A) i x : delete i (<[i := x]> l) = delete i l.
Proof.
  revert i. induction l as [|a l IH]; intros [|i]; simpl; try done.
  f_equal. apply IH.
Qed.

Lemma unfinished_spec pq :
  unfinished pq = true ↔ Order.progress pq < Order.total pq.
Proof. unfold unfinished. zbool. lia. Qed.

(** What the iteration at a completed order does. *)
Lemma produce_at_completed i s pq0 :
  prodQueue s !! i = Some pq0 →
  Order.total pq0 <= Order.progress pq0 + 1 →
  prodQueue (produce_at i s) = delete i (prodQueue s) ∧
  match find_spot s (tick_order pq0) with
  | None => units (produce_at i s) = units s
  | Some (x, y) =>
      (x, y) ∈ spots pq0 ∧ isWalkable (grid s) (units s) x y = true ∧
      units (produce_at i s) =
        units s ++ [fresh_unit (Order.unitType pq0) x y 1 (nextUnitId s)]
  end.
Proof.
  intros Hi Hdone. split.
  - rewrite (prodQueue_produce_at i s pq0 Hi).
    assert (unfinished (tick_order pq0) = false) as ->.
    { apply not_true_is_false. rewrite unfinished_spec. simpl. lia. }
    apply delete_insert_same.
  - unfold produce_at. rewrite Hi.
    assert ((Order.progress (tick_order pq0) >=? Order.total (tick_order pq0)) = true)
      as ->.
    { zbool. simpl. lia. }
    change (find_spot (set_prodQueue _ s) (tick_order pq0))
      with (find_spot s (tick_order pq0)).
    destruct (find_spot s (tick_order pq0)) as [[x y]|] eqn:Hspot; [|done].
    apply find_spot_walkable in Hspot as [Hin Hw].
    split; [done|]. split; [done|].
    simpl. by rewrite units_materialize.
Qed.

(** C1, refuted as stated: a completed order that finds none of its six spots
    free is not kept for a retry.  In [crowded] the order reaches its total,
    no spot is walkable, no unit is created -- and the queue is empty after
    the pass, and after the whole tick. *)
Lemma blocked_order_is_dropped :
  prodQueue crowded = [Order.mk worker 1 1 49 50] ∧
  occupancy (units crowded) ∧
  find_spot crowded (tick_order (Order.mk worker 1 1 49 50)) = None ∧
  units (processProduction crowded) = units crowded ∧
  prodQueue (processProduction crowded) = [] ∧
  prodQueue (gameTick no_draw crowded) = [] ∧
  ¬ (Order.mk worker 1 1 50 50 ∈ prodQueue (processProduction crowded)).
Proof.
  split_and!; try (vm_compute; reflexivity).
  - apply (bool_decide_unpack _). by vm_compute.
  - assert (prodQueue (processProduction crowded) = []) as ->
      by (vm_compute; reflexivity).
    apply not_elem_of_nil.
Qed.

(** [find] returns the first element that passes the test. *)
Lemma find_first {A} (p : A → bool) (l before : list A) x after :
  l = before ++ x :: after →
  Forall (λ c, p c = false) before → p x = true →
  List.find p l = Some x.
Proof.
  intros -> Hbefore Hx. induction Hbefore as [|c before Hc _ IH]; simpl.
  - by rewrite Hx.
  - by rewrite Hc.
Qed.

Lemma find_none_Forall {A} (p : A → bool) (l : list A) :
  Forall (λ c, p c = false) l → List.find p l = None.
Proof. induction 1 as [|c l Hc _ IH]; simpl; [done|]. by rewrite Hc. Qed.

Lemma find_cases {A} (p : A → bool) (l : list A) :
  (∃ before x after,
     l = before ++ x :: after ∧ Forall (λ c, p c = false) before ∧ p x = true) ∨
  Forall (λ c, p c = false) l.
Proof.
  induction l as [|c l [(before & x & after & -> & Hb & Hx)|Hall]].
  - by right.
  - destruct (p c) eqn:Hc.
    + left. by exists [], c, (before ++ x :: after).
    + left. exists (c :: before), x, after. split_and!; try done. by constructor.
  - destruct (p c) eqn:Hc.
    + left. by exists [], c, l.
    + right. by constructor.
Qed.

(** A pass over a queue of one order is the iteration at that order. *)
Lemma processProduction_single s pq0 :
  prodQueue s = [pq0] → processProduction s = produce_at 0 s.
Proof. intros Hq. unfold processProduction. by rewrite Hq. Qed.

(** C1, as the engine has it.  After [processProduction] the queue holds
    exactly the orders that are still short of their total after this tick's
    increment, in their order: no order stays in the queue at full progress.
    The iteration at an order that reaches its total -- and the whole pass,
    when that order is the only one queued -- always takes it out of the
    queue.  The six cells (+1,0), (-1,0), (0,+1), (0,-1), (+1,+1), (-1,-1)
    around the order's origin are tried in this order: the new unit, of
    player 1 and with the next identifier, is put on the first of them that
    is walkable, whichever cells after it are walkable too; when none of the
    six is walkable no unit is created; and one of the two always applies.
    Of the two orders of [one_spot], which complete on the same tick with one
    spot free, one materializes (the later one, the loop running from the end
    of the queue) and the other is dropped. *)
Theorem production_completion :
  (∀ s, prodQueue (processProduction s) =
        List.filter unfinished (tick_order <$> prodQueue s)) ∧
  (∀ s pq, pq ∈ prodQueue (processProduction s) →
        Order.progress pq < Order.total pq) ∧
  (∀ s i pq0 s',
     prodQueue s !! i = Some pq0 →
     Order.total pq0 <= Order.progress pq0 + 1 →
     s' = produce_at i s ∨ (prodQueue s = [pq0] ∧ s' = processProduction s) →
     let x0 := Order.gx pq0 in
     let y0 := Order.gy pq0 in
     let six := [ (x0 + 1, y0); (x0 - 1, y0); (x0, y0 + 1); (x0, y0 - 1);
                  (x0 + 1, y0 + 1); (x0 - 1, y0 - 1) ] in
     let taken := λ c : Z * Z, isWalkable (grid s) (units s) c.1 c.2 = false in
     prodQueue s' = delete i (prodQueue s) ∧
     (∀ before x y after,
        six = before ++ (x, y) :: after →
        Forall taken before →
        isWalkable (grid s) (units s) x y = true →
        units s' = units s ++ [fresh_unit (Order.unitType pq0) x y 1 (nextUnitId s)]) ∧
     (Forall taken six → units s' = units s) ∧
     ((∃ before x y after,
         six = before ++ (x, y) :: after ∧ Forall taken before ∧
         isWalkable (grid s) (units s) x y = true) ∨
      Forall taken six)) ∧
  (units (processProduction one_spot) =
     units one_spot ++ [fresh_unit light 0 0 1 10] ∧
   prodQueue (processProduction one_spot) = []).
Proof.
  split_and!.
  - apply processProduction_queue.
  - intros s pq. rewrite processProduction_queue.
    intros [_ Hun]%list_elem_of_In%filter_In. by apply unfinished_spec.
  - intros s i pq0 s' Hi Hdone Hs' x0 y0 six taken.
    assert (s' = produce_at i s) as ->.
    { destruct Hs' as [->|[Hq ->]]; [done|].
      rewrite (processProduction_single s pq0 Hq).
      rewrite Hq in Hi. by destruct i as [|[|i]]. }
    destruct (produce_at_completed i s pq0 Hi Hdone) as [Hq Hunits].
    change (find_spot s (tick_order pq0))
      with (List.find (λ c, isWalkable (grid s) (units s) c.1 c.2) six) in Hunits.
    split; [exact Hq|]. split_and!.
    + intros before x y after Hsix Hbefore Hfree.
      rewrite (find_first _ six before (x, y) after Hsix Hbefore Hfree) in Hunits.
      by destruct Hunits as (_ & _ & ->).
    + intros Hnone. by rewrite (find_none_Forall _ six Hnone) in Hunits.
    + destruct (find_cases (λ c, isWalkable (grid s) (units s) c.1 c.2) six)
        as [(before & [x y] & after & Hsix & Hbefore & Hfree)|Hnone]; [left|by right].
      by exists before, x, y, after.
  - vm_compute. reflexivity.
  - vm_compute. reflexivity.
Qed.

(** ** A unit destroyed during the pass still acts *)

Lemma op_length g w w' : op g w w' → length (objs w') = length (objs w).
Proof. destruct 1; simpl; try done; apply length_alter. Qed.

(** The array being iterated keeps its length during the pass. *)
Lemma resolve_upto_length g k s :
  length (objs (resolve_upto g k (enter s))) = length (units s).
Proof.
  apply (ops_invariant g (λ w, length (objs w) = length (units s)))
    with (w := enter s); [|apply resolve_upto_ops|done].
  intros w w' Hop <-. by eapply op_length.
Qed.

Lemma resolve_upto_split g k n w :
  (k < n)%nat →
  resolve_upto g n w =
  fold_left (λ w i, resolve g i w) (seq (S k) (n - S k)) (resolve g k (resolve_upto g k w)).
Proof.
  intros Hkn. unfold resolve_upto.
  replace n with (S k + (n - S k))%nat at 1 by lia.
  rewrite seq_app, fold_left_app. f_equal.
  by rewrite seq_S, fold_left_app.
Qed.



(** ** One unit through the pass *)

Lemma same_but_hp_refl a : same_but_hp a a.
Proof. exists (Unit.hp a). by destruct a. Qed.

Lemma same_but_hp_trans a b c : same_but_hp a b → same_but_hp b c → same_but_hp a c.
Proof. intros [h1 ->] [h2 ->]. by exists h2. Qed.

Lemma frame_mutate_other i k f w a :
  i ≠ k → objs w !! i = Some a →
  ∃ b, objs (mutate k f w) !! i = Some b ∧ same_but_hp a b.
Proof.
  intros Hne Ha. exists a. rewrite lookup_mutate_ne by done.
  split; [done|apply same_but_hp_refl].
Qed.

Lemma frame_mutate_hp i j h w a :
  objs w !! i = Some a →
  ∃ b, objs (mutate j (Unit.set_hp h) w) !! i = Some b ∧ same_but_hp a b.
Proof.
  intros Ha. destruct (decide (j = i)) as [->|Hne].
  - exists (Unit.set_hp h a). rewrite lookup_mutate, Ha. split; [done|by exists h].
  - exists a. rewrite lookup_mutate_ne by done. split; [done|apply same_but_hp_refl].
Qed.

(** The iteration at [k] leaves every other object as it was, hit points
    apart. *)
Lemma resolve_frame g k w i a :
  i ≠ k → objs w !! i = Some a →
  ∃ b, objs (resolve g k w) !! i = Some b ∧ same_but_hp a b.
Proof.
  intros Hne Ha.
  assert (∃ b, objs w !! i = Some b ∧ same_but_hp a b) as Hsame
    by (exists a; split; [done|apply same_but_hp_refl]).
  unfold resolve. destruct (objs w !! k) as [u|]; [|done].
  unfold resolve_move, resolve_harvest, resolve_return, resolve_attack, try_move.
  repeat case_match; simpl; rewrite ?(list_lookup_alter_ne _ _ k i) by done;
    try done;
    match goal with
    | |- context [alter (Unit.set_hp ?h) ?j (objs w) !! i] =>
        apply (frame_mutate_hp i j h w a Ha)
    end.
Qed.

Lemma frame_fold g (l : list nat) w i a :
  i ∉ l → objs w !! i = Some a →
  ∃ b, objs (fold_left (λ w k, resolve g k w) l w) !! i = Some b ∧ same_but_hp a b.
Proof.
  revert w a. induction l as [|k l IH]; intros w a Hni Ha.
  - exists a. split; [done|apply same_but_hp_refl].
  - apply not_elem_of_cons in Hni as [Hne Hni]. simpl.
    destruct (resolve_frame g k w i a Hne Ha) as (b & Hb & Hab).
    destruct (IH _ b Hni Hb) as (c & Hc & Hbc).
    exists c. split; [done|]. by eapply same_but_hp_trans.
Qed.

(** The unit at index [i] of [state.units] through one pass: when its turn
    comes it is as it was when the pass began, hit points apart; and at the
    end of the pass it is as its own iteration left it, hit points apart.
    What the iteration does to it is what [resolve] says of the world of that
    moment. *)
Lemma unit_through_pass s i a :
  let g := grid s in
  let w := resolve_upto g i (enter s) in
  units s !! i = Some a →
  ∃ b u' c,
    objs w !! i = Some b ∧ same_but_hp a b ∧
    objs (resolve g i w) !! i = Some u' ∧
    objs (resolve_upto g (length (units s)) (enter s)) !! i = Some c ∧
    same_but_hp u' c.
Proof.
  intros g w Ha.
  assert (i < length (units s))%nat as Hi by (by eapply lookup_lt_Some).
  destruct (frame_fold g (seq 0 i) (enter s) i a) as (b & Hb & Hab);
    [rewrite elem_of_seq; lia | done |].
  assert (is_Some (objs (resolve g i w) !! i)) as [u' Hu'].
  { apply lookup_lt_is_Some. unfold w.
    rewrite <- resolve_upto_S. by rewrite resolve_upto_length. }
  rewrite (resolve_upto_split g i (length (units s)) (enter s) Hi).
  destruct (frame_fold g (seq (S i) (length (units s) - S i)) (resolve g i w) i u')
    as (c & Hc & Huc); [rewrite elem_of_seq; lia | done |].
  exists b, u', c. done.
Qed.

(** ** Harvesting *)

Lemma resolve_harvest_eq g w i u :
  objs w !! i = Some u → Unit.action u = harvest →
  resolve g i w = resolve_harvest i u w.
Proof. intros Hu Ha. unfold resolve. by rewrite Hu, Ha. Qed.

(** A harvesting unit is resolved the same way on every terrain: the branch
    never reads [state.grid]. *)
Lemma harvest_ignores_terrain g g' w i u :
  objs w !! i = Some u → Unit.action u = harvest →
  resolve g i w = resolve g' i w.
Proof.
  intros Hu Ha.
  by rewrite (resolve_harvest_eq g w i u Hu Ha), (resolve_harvest_eq g' w i u Hu Ha).
Qed.

(** What one tick of harvesting does. *)
Lemma harvest_step g w i u :
  objs w !! i = Some u →
  Unit.action u = harvest →
  (Unit.progress u + 1 < 10 →
     resolve g i w = mutate i (Unit.set_progress (Unit.progress u + 1)) w) ∧
  (10 <= Unit.progress u + 1 →
     ∃ u', objs (resolve g i w) !! i = Some u' ∧
       Unit.progress u' = 0 ∧
       Unit.carrying u' = Z.min (Unit.carrying u + 1) 4 ∧
       pos u' = pos u ∧
       w_events (resolve g i w) = w_events w ++ [emitHarvest (Unit.gx u) (Unit.gy u)] ∧
       (Unit.carrying u' < 2 →
          Unit.action u' = harvest ∧ Unit.target u' = Unit.target u) ∧
       (2 <= Unit.carrying u' →
          Unit.action u' = return_ ∧
          ∀ b, b ∈ registry w →
               Unit.type b = base → Unit.owner b = Unit.owner u →
               ∃ b', b' ∈ registry w ∧ Unit.type b' = base ∧
                     Unit.owner b' = Unit.owner u ∧
                     Unit.target u' = cell_ (Unit.gx b') (Unit.gy b'))).
Proof.
  intros Hu Ha. rewrite (resolve_harvest_eq g w i u Hu Ha).
  unfold resolve_harvest. split; intros Hp.
  - by assert ((Unit.progress u + 1 >=? 10) = false) as -> by (zbool; lia).
  - assert ((Unit.progress u + 1 >=? 10) = true) as -> by (zbool; lia).
    set (c := Z.min (Unit.carrying u + 1) 4).
    destruct (c >=? 2) eqn:Hc; zbool.
    + set (w3 := mutate i (Unit.set_action return_) _).
      assert (objs w3 !! i =
              Some (Unit.set_action return_
                      (Unit.set_progress 0 (Unit.set_carrying c
                         (Unit.set_progress (Unit.progress u + 1) u))))) as Hu3.
      { subst w3. simpl. by rewrite !list_lookup_alter_eq, Hu. }
      destruct (find_ref _ (objs w3) (live w3)) as [[r b]|] eqn:Hfind.
      * eexists. rewrite lookup_mutate, Hu3. simpl. split; [done|].
        split_and!; try done; try (simpl; intros; lia).
        intros _. split; [done|]. intros _ _ _ _.
        apply find_ref_Some in Hfind as (Hr & Hb & Hbase).
        apply andb_true_iff in Hbase as [Hty Hown]. zbool.
        subst w3. simpl in Hr, Hb.
        assert (∃ b0, objs w !! r = Some b0 ∧ Unit.type b0 = Unit.type b ∧
                      Unit.owner b0 = Unit.owner b ∧ pos b0 = pos b)
          as (b0 & Hb0 & Hty0 & Hown0 & Hpos0).
        { destruct (decide (i = r)) as [->|Hne].
          - rewrite !list_lookup_alter_eq, Hu in Hb. simplify_eq/=. by exists u.
          - rewrite !list_lookup_alter_ne in Hb by done. by exists b. }
        exists b0. split; [apply elem_of_registry; eauto|].
        injection Hpos0 as Hx Hy. rewrite Hty0, Hown0, Hx, Hy.
        split_and!; try done. by destruct (Unit.type b).
      * eexists. rewrite Hu3. split; [done|]. simpl.
        split_and!; try done; try (simpl; intros; lia).
        intros _. split; [done|]. intros b Hb Hty Hown. exfalso.
        apply elem_of_registry in Hb as (r & Hr & Hb).
        assert (∃ b1, objs w3 !! r = Some b1 ∧ Unit.type b1 = base ∧
                      Unit.owner b1 = Unit.owner u) as (b1 & Hb1 & Hty1 & Hown1).
        { subst w3. simpl. destruct (decide (i = r)) as [->|Hne].
          - rewrite !list_lookup_alter_eq, Hb. simpl. eexists. split; [done|]. done.
          - rewrite !list_lookup_alter_ne by done. eauto. }
        pose proof (find_ref_None _ _ _ Hfind r b1 Hr Hb1) as Hno.
        simpl in Hno. by rewrite Hty1, Hown1, Z.eqb_refl in Hno.
    + eexists. simpl. rewrite !list_lookup_alter_eq, Hu. simpl. split; [done|].
      split_and!; try done; simpl; intros; lia.
Qed.

(** C5, where the engine departs from it.  From the opening position the
    player selects worker 2, standing on the free cell (2,1), and right-clicks
    the resource cell (6,2).  The worker is put in the [harvest] action where
    it stands; ten ticks later it carries 1 resource with its progress back
    to 0, twenty ticks later it carries 2 and is in the [return] action with
    the base's cell (1,1) as target, and on the next tick 50 gold are
    deposited -- all without leaving the free cell (2,1). *)
Theorem harvest_off_resource :
  let s0 := rightClick [2] 6 2 init in
  let after n := gameTicks (λ _, no_draw) n s0 in
  cell (grid s0) 6 2 = Some 2 ∧
  cell (grid s0) 2 1 = Some 0 ∧
  units s0 !! 1%nat = Some (Unit.mk 2 worker 1 2 1 1 1 harvest (cell_ 6 2) 0 0) ∧
  units (after 10%nat) !! 1%nat = Some (Unit.mk 2 worker 1 2 1 1 1 harvest (cell_ 6 2) 0 1) ∧
  units (after 20%nat) !! 1%nat = Some (Unit.mk 2 worker 1 2 1 1 1 return_ (cell_ 1 1) 0 2) ∧
  gold (after 21%nat) = gold s0 + 50.
Proof. vm_compute. by repeat split. Qed.

(** ** The theorems at work on the scenarios *)

Lemma init_occupancy : occupancy (units init).
Proof. apply (bool_decide_unpack _). by vm_compute. Qed.

(** Checking [hp_ok] on the units of a concrete state. *)
Ltac check_hp_ok :=
  vm_compute; repeat (constructor; [split; reflexivity|]); constructor.

Lemma init_hp_ok : Forall hp_ok (units init).
Proof. check_hp_ok. Qed.

Lemma init_carrying_ok : Forall carrying_ok (units init).
Proof. vm_compute. repeat constructor; discriminate. Qed.

(** Every state the opening position runs into keeps the three invariants. *)
Lemma init_runs rnds n :
  occupancy (units (gameTicks rnds n init)) ∧
  Forall hp_ok (units (gameTicks rnds n init)) ∧
  Forall carrying_ok (units (gameTicks rnds n init)).
Proof.
  induction n as [|n (Hocc & Hhp & Hc)].
  - split_and!; [apply init_occupancy | apply init_hp_ok | apply init_carrying_ok].
  - simpl. split_and!.
    + by apply gameTick_occupancy.
    + by apply gameTick_hp_ok.
    + by apply gameTick_rewards.
Qed.

Lemma occupancy_preserved_witness :
  occupancy (units init) ∧ occupancy (units (gameTick no_draw init)).
Proof.
  split; [exact init_occupancy|].
  destruct (occupancy_preserved init init_occupancy) as (_ & _ & Htick & _).
  apply Htick.
Defined.

Lemma hp_in_range_witness :
  Forall hp_ok (units duel) ∧ Forall hp_ok (units (gameTicks (λ _, no_draw) 2 duel)).
Proof.
  assert (Forall hp_ok (units duel)) as Hok by check_hp_ok.
  split; [exact Hok|].
  destruct (hp_in_range duel Hok) as (_ & _ & _ & Hticks & _).
  apply Hticks.
Defined.

Lemma rewards_monotone_witness :
  Forall carrying_ok (units siege) ∧
  Rewards.le (rewards siege) (rewards (gameTick no_draw siege)).
Proof.
  assert (Forall carrying_ok (units siege)) as Hok
    by (vm_compute; repeat constructor; discriminate).
  split; [exact Hok|].
  destruct (rewards_monotone siege Hok) as (_ & _ & _ & _ & _ & Htick & _).
  apply Htick.
Defined.

(** In [crowded] all six cells are taken: the order leaves the queue and no
    unit is made.  In [one_spot] with its first order alone, the first five
    cells are taken and the worker appears on the sixth, (0,0). *)
Lemma production_completion_witness :
  let lone := set_prodQueue [Order.mk worker 1 1 49 50] one_spot in
  (prodQueue (processProduction crowded) = [] ∧
   units (processProduction crowded) = units crowded) ∧
  (prodQueue (processProduction lone) = [] ∧
   units (processProduction lone) = units lone ++ [fresh_unit worker 0 0 1 10]).
Proof.
  intros lone.
  destruct production_completion as (_ & _ & Hdone & _).
  split.
  - destruct (Hdone crowded 0%nat (Order.mk worker 1 1 49 50)
                (processProduction crowded))
      as (Hq & _ & Hnone & _); [reflexivity | by vm_compute | by right |].
    split; [exact Hq|]. apply Hnone.
    repeat constructor.
  - destruct (Hdone lone 0%nat (Order.mk worker 1 1 49 50) (processProduction lone))
      as (Hq & Hfirst & _); [reflexivity | by vm_compute | by right |].
    split; [exact Hq|].
    apply (Hfirst [(2, 1); (0, 1); (1, 2); (1, 0); (2, 2)] 0 0 []);
      [reflexivity | repeat constructor | reflexivity].
Defined.

(** * Further properties of the engine *)

(** ** What a tick never touches *)

Lemma static_produce_at i s :
  grid (produce_at i s) = grid s ∧ nextUnitId s <= nextUnitId (produce_at i s) ∧
  gold (produce_at i s) = gold s ∧ cycle (produce_at i s) = cycle s.
Proof.
  unfold produce_at. destruct (prodQueue s !! i); [|by split_and!].
  case_match; [|by split_and!]. destruct (find_spot _ _) as [[x y]|]; [|by split_and!].
  unfold materialize. case_match; simpl; split_and!; try done; lia.
Qed.

Lemma static_before_updateFog rnd s :
  let s' := processProduction (processAI rnd (processActions (bump_cycle s))) in
  grid s' = grid s ∧ nextUnitId s <= nextUnitId s' ∧ cycle s' = cycle s + 1.
Proof.
  apply (processProduction_invariant
           (λ s', grid s' = grid s ∧ nextUnitId s <= nextUnitId s' ∧
                  cycle s' = cycle s + 1)).
  - intros i s1 (<- & Hn & <-).
    destruct (static_produce_at i s1) as (-> & Hn' & _ & ->). split_and!; [done|lia|done].
  - unfold processAI. case_match; simpl; split_and!; done || lia.
Qed.

Lemma static_updateFog s :
  grid (updateFog s) = grid s ∧ nextUnitId (updateFog s) = nextUnitId s ∧
  cycle (updateFog s) = cycle s ∧ fogEnabled (updateFog s) = fogEnabled s ∧
  gold (updateFog s) = gold s ∧ prodQueue (updateFog s) = prodQueue s.
Proof. unfold updateFog. by case_match. Qed.

Lemma grid_gameTick rnd s : grid (gameTick rnd s) = grid s.
Proof.
  destruct (static_before_updateFog rnd s) as (Hg & _).
  unfold gameTick, updateUI. simpl.
  by destruct (static_updateFog
                 (processProduction (processAI rnd (processActions (bump_cycle s)))))
    as (-> & _).
Qed.

Lemma grid_gameTicks rnds n s : grid (gameTicks rnds n s) = grid s.
Proof. induction n as [|n IH]; [done|]. cbn [gameTicks]. by rewrite grid_gameTick. Qed.

(** X17.  The terrain and the fog switch are out of a tick's reach, and the
    cycle counter advances by one per tick: after any number [n] of ticks the
    grid and [fogEnabled] are what they were and the cycle is [n] later. *)
Theorem tick_leaves_terrain rnds n s :
  grid (gameTicks rnds n s) = grid s ∧
  fogEnabled (gameTicks rnds n s) = fogEnabled s ∧
  cycle (gameTicks rnds n s) = cycle s + Z.of_nat n.
Proof.
  induction n as [|n (IHg & IHf & IHc)]; [split_and!; simpl; done || lia|].
  cbn [gameTicks]. set (s1 := gameTicks rnds n s) in *.
  destruct (static_before_updateFog (rnds n) s1) as (Hg & _ & Hc).
  destruct (fog_before_updateFog (rnds n) s1) as (_ & Hf).
  unfold gameTick, updateUI. simpl.
  destruct (static_updateFog
              (processProduction (processAI (rnds n) (processActions (bump_cycle s1)))))
    as (-> & _ & -> & -> & _).
  rewrite Hg, Hf, Hc, IHg, IHf, IHc. split_and!; try done. lia.
Qed.

(** ** Identifiers *)

Lemma op_ids g w w' :
  op g w w' → Unit.id <$> registry w' `sublist_of` Unit.id <$> registry w.
Proof.
  intros [i f w0 Hf|i x y w0 Hwalk|j t ty w0 Ht Hh|j t h w0 Ht|e w0|r w0|z w0];
    try done.
  - rewrite (registry_mutate_fmap Unit.id); [done|]. intros u. apply Hf.
  - by rewrite (registry_mutate_fmap Unit.id).
  - by rewrite (registry_mutate_fmap Unit.id).
  - apply fmap_sublist. by apply kill_sublist.
Qed.

(** The action pass creates no unit and no identifier: the identifiers in
    [state.units] afterwards are a sub-list of those before. *)
Lemma processActions_ids s :
  Unit.id <$> units (processActions s) `sublist_of` Unit.id <$> units s.
Proof.
  unfold processActions; simpl.
  rewrite <- (registry_enter s) at 2.
  apply (ops_invariant (grid s)
           (λ w, Unit.id <$> registry w `sublist_of` Unit.id <$> registry (enter s)))
    with (w := enter s); [|apply resolve_upto_ops|done].
  intros w w' Hop Hw. etrans; [by eapply op_ids|done].
Qed.

Lemma ids_fresh_alt s :
  ids_fresh s ↔
  NoDup (Unit.id <$> units s) ∧ Forall (λ i, i < nextUnitId s) (Unit.id <$> units s).
Proof. unfold ids_fresh. by rewrite Forall_fmap. Qed.

Lemma ids_fresh_sublist s s' :
  Unit.id <$> units s' `sublist_of` Unit.id <$> units s →
  nextUnitId s <= nextUnitId s' →
  ids_fresh s → ids_fresh s'.
Proof.
  rewrite !ids_fresh_alt. intros Hsub Hn [Hnd Hlt]. split.
  - by eapply sublist_NoDup.
  - rewrite Forall_forall in Hlt |- *. intros i Hi.
    pose proof (Hlt i (elem_of_sublist _ _ _ Hi Hsub)). lia.
Qed.

Lemma ids_fresh_spawnUnit ty x y o s : ids_fresh s → ids_fresh (spawnUnit ty x y o s).
Proof.
  rewrite !ids_fresh_alt. intros [Hnd Hlt]. simpl.
  rewrite fmap_app. simpl. split.
  - apply NoDup_app. split; [done|]. split; [|apply NoDup_singleton].
    intros i Hi ->%list_elem_of_singleton.
    rewrite Forall_forall in Hlt. specialize (Hlt _ Hi). lia.
  - apply Forall_app. split.
    + eapply Forall_impl; [exact Hlt|]. simpl. intros; lia.
    + apply Forall_singleton. lia.
Qed.

Lemma ids_fresh_produce_at i s : ids_fresh s → ids_fresh (produce_at i s).
Proof.
  intros Hs. unfold produce_at.
  destruct (prodQueue s !! i) as [pq0|]; [|done].
  case_match; [|done].
  destruct (find_spot _ _) as [[x y]|]; [|done].
  unfold materialize.
  pose proof (ids_fresh_spawnUnit (Order.unitType (tick_order pq0)) x y 1
                (set_prodQueue (<[i:=tick_order pq0]> (prodQueue s)) s) Hs) as Hsp.
  by case_match.
Qed.

Lemma ids_fresh_gameTick rnd s : ids_fresh s → ids_fresh (gameTick rnd s).
Proof.
  intros Hs.
  assert (ids_fresh (processActions (bump_cycle s))) as H1.
  { eapply ids_fresh_sublist; [apply processActions_ids| |exact Hs]. done. }
  assert (ids_fresh (processAI rnd (processActions (bump_cycle s)))) as H2.
  { eapply ids_fresh_sublist; [| |exact H1].
    - rewrite (processAI_fmap Unit.id); [done|]. intros us d u. apply decide_ai_body.
    - unfold processAI. by case_match. }
  pose proof (processProduction_invariant ids_fresh _ ids_fresh_produce_at H2) as H3.
  eapply ids_fresh_sublist; [| |exact H3].
  - by rewrite units_gameTick.
  - unfold gameTick, updateUI. simpl.
    by destruct (static_updateFog
                   (processProduction (processAI rnd (processActions (bump_cycle s)))))
      as (_ & -> & _).
Qed.

(** X1.  Identifiers stay unique.  If the units of [state.units] have
    pairwise distinct identifiers, all below [state.nextUnitId], this is still
    so after [spawnUnit], after a tick and after any number of ticks; the
    action pass itself creates no identifier, and [nextUnitId] never goes
    back. *)
Theorem identifiers_stay_unique s :
  ids_fresh s →
  (∀ ty x y o, ids_fresh (spawnUnit ty x y o s)) ∧
  Unit.id <$> units (processActions s) `sublist_of` Unit.id <$> units s ∧
  (∀ rnd, ids_fresh (gameTick rnd s) ∧ nextUnitId s <= nextUnitId (gameTick rnd s)) ∧
  (∀ rnds n, ids_fresh (gameTicks rnds n s)).
Proof.
  intros Hs. split_and!.
  - intros. by apply ids_fresh_spawnUnit.
  - apply processActions_ids.
  - intros rnd. split; [by apply ids_fresh_gameTick|].
    destruct (static_before_updateFog rnd s) as (_ & Hn & _).
    unfold gameTick, updateUI. simpl.
    by destruct (static_updateFog
                   (processProduction (processAI rnd (processActions (bump_cycle s)))))
      as (_ & -> & _).
  - intros rnds n. induction n; [done|]. simpl. by apply ids_fresh_gameTick.
Qed.

(** ** Units stay on the board *)

Lemma op_on_board g w w' :
  op g w w' → Forall (on_board g) (registry w) → Forall (on_board g) (registry w').
Proof.
  intros Hop Hok.
  destruct Hop as [i f w Hf|i x y w Hwalk|j t ty w Ht Hh|j t h w Ht|e w|r w|z w];
    try done.
  - rewrite Forall_registry in Hok |- *. intros r x Hr Hx.
    apply lookup_mutate_Some in Hx as (y & Hy & [->|[-> ->]]); [by eauto|].
    specialize (Hok _ _ Hr Hy). specialize (Hf y) as (_ & _ & _ & Hpos & _).
    unfold on_board, pos in *. injection Hpos as Hgx Hgy. by rewrite Hgx, Hgy.
  - rewrite Forall_registry in Hok |- *. intros r u Hr Hu.
    apply lookup_mutate_Some in Hu as (v & Hv & [->|[-> ->]]); [by eauto|].
    by apply isWalkable_in_grid in Hwalk.
  - rewrite Forall_registry in Hok |- *. intros r u Hr Hu.
    apply lookup_mutate_Some in Hu as (v & Hv & [->|[-> ->]]); [by eauto|].
    exact (Hok _ _ Hr Hv).
  - rewrite Forall_forall in Hok |- *. intros u Hu. apply Hok.
    eapply elem_of_sublist; [exact Hu|]. by apply kill_sublist.
Qed.

Lemma processActions_on_board s :
  Forall (on_board (grid s)) (units s) →
  Forall (on_board (grid s)) (units (processActions s)).
Proof.
  intros Hok. unfold processActions; simpl.
  apply (ops_invariant (grid s) (λ w, Forall (on_board (grid s)) (registry w)))
    with (w := enter s); [apply op_on_board|apply resolve_upto_ops|].
  by rewrite registry_enter.
Qed.

Lemma processAI_on_board g rnd s :
  Forall (on_board g) (units s) → Forall (on_board g) (units (processAI rnd s)).
Proof.
  apply (Forall_fmap_same pos (on_board g)
           (λ p, 0 <= p.1 < CONFIG.GRID_W ∧ 0 <= p.2 < CONFIG.GRID_H ∧
                 cell g p.1 p.2 ≠ Some 1)); [done|].
  symmetry. apply processAI_fmap. intros us d u. apply decide_ai_body.
Qed.

Lemma produce_at_on_board i s :
  Forall (on_board (grid s)) (units s) →
  Forall (on_board (grid s)) (units (produce_at i s)).
Proof.
  intros Hok. destruct (units_produce_at i s) as [->|(ty & x & y & Hw & ->)]; [done|].
  apply Forall_app. split; [done|]. apply Forall_singleton.
  by apply isWalkable_in_grid in Hw.
Qed.

Lemma gameTick_on_board rnd s :
  Forall (on_board (grid s)) (units s) →
  Forall (on_board (grid s)) (units (gameTick rnd s)).
Proof.
  intros Hok. rewrite units_gameTick.
  apply (processProduction_invariant
           (λ s', grid s' = grid s ∧ Forall (on_board (grid s)) (units s'))).
  - intros i s1 [Hg Hb]. destruct (static_produce_at i s1) as (Hg' & _).
    split; [congruence|]. rewrite <- Hg in *. by apply produce_at_on_board.
  - split; [unfold processAI; by case_match|].
    apply processAI_on_board. by apply (processActions_on_board (bump_cycle s)).
Qed.

(** X2.  Units stay on the board.  If every unit of [state.units] stands
    inside the 16 x 16 grid and not on a wall, the same holds after the action
    pass, after a tick and after any number of ticks: every move and every
    spawn goes through [isWalkable]. *)
Theorem units_stay_on_board s :
  Forall (on_board (grid s)) (units s) →
  Forall (on_board (grid s)) (units (processActions s)) ∧
  (∀ rnd, Forall (on_board (grid s)) (units (gameTick rnd s))) ∧
  (∀ rnds n, Forall (on_board (grid s)) (units (gameTicks rnds n s))).
Proof.
  intros Hok. split_and!.
  - by apply processActions_on_board.
  - intros rnd. by apply gameTick_on_board.
  - intros rnds n. induction n as [|n IH]; [done|]. cbn [gameTicks].
    rewrite <- (grid_gameTicks rnds n s) in IH |- *. by apply gameTick_on_board.
Qed.

(** ** The counters of a worker *)

Lemma resolve_load g i w :
  Forall load_ok (objs w) → Forall load_ok (objs (resolve g i w)).
Proof.
  intros Hok. unfold resolve.
  destruct (objs w !! i) as [u|] eqn:Hu; [|done].
  assert (load_ok u) as Hlu by (by eapply Forall_lookup_1).
  unfold load_ok in Hlu.
  unfold resolve_move, resolve_harvest, resolve_return, resolve_attack, try_move.
  repeat case_match; simpl; rewrite ?list_alter_alter_eq;
    repeat (apply Forall_alter;
            [|intros ? _ ?; unfold load_ok in *; simpl; zbool; lia]);
    done.
Qed.

Lemma decide_ai_load us d u :
  Unit.carrying (decide_ai us d u) = Unit.carrying u ∧
  Unit.progress (decide_ai us d u) = Unit.progress u.
Proof.
  unfold decide_ai.
  destruct (_ || _); [done|]. destruct (Def.isBuilding _); [done|].
  destruct (nearest_enemy u us) as [[d' t]|]; [destruct (d' <=? 8)|];
    try destruct d as [[a b]|]; by repeat split.
Qed.

Lemma command_unit_Forall (P : Unit.t → Prop) id f us :
  (∀ u, P u → P (f u)) → Forall P us → Forall P (command_unit id f us).
Proof.
  intros Hf. induction 1 as [|u us Hu Hus IH]; simpl; [done|].
  case_match; constructor; eauto.
Qed.

(** X8.  The counters of a worker stay in their ranges.  If every unit
    carries between 0 and 4 resources and has a harvest progress between 0 and
    9, this is still so after the action pass, after a tick, after any number
    of ticks, and after a right-click command. *)
Theorem load_stays_in_range s :
  Forall load_ok (units s) →
  Forall load_ok (units (processActions s)) ∧
  (∀ rnd, Forall load_ok (units (gameTick rnd s))) ∧
  (∀ rnds n, Forall load_ok (units (gameTicks rnds n s))) ∧
  (∀ sel x y, Forall load_ok (units (rightClick sel x y s))).
Proof.
  intros Hok.
  assert (∀ s, Forall load_ok (units s) → Forall load_ok (units (processActions s)))
    as Hpass.
  { clear. intros s Hok. unfold processActions; simpl.
    assert (Forall load_ok (objs (resolve_upto (grid s) (length (units s)) (enter s))))
      as Hobjs.
    { unfold resolve_upto. apply fold_left_invariant; [|done].
      intros w i. apply resolve_load. }
    rewrite Forall_forall in Hobjs |- *. intros u Hu.
    by apply Hobjs, registry_subseteq. }
  assert (∀ rnd s, Forall load_ok (units s) → Forall load_ok (units (gameTick rnd s)))
    as Htick.
  { clear -Hpass. intros rnd s Hok. rewrite units_gameTick.
    apply (processProduction_invariant (λ s, Forall load_ok (units s))).
    - intros i s1 H1.
      destruct (units_produce_at i s1) as [->|(ty & x & y & _ & ->)]; [done|].
      apply Forall_app. split; [done|]. apply Forall_singleton.
      unfold load_ok; simpl. lia.
    - generalize (Hpass (bump_cycle s) Hok).
      apply (Forall_fmap_same (λ u, (Unit.carrying u, Unit.progress u)) load_ok
               (λ p, 0 <= p.1 <= 4 ∧ 0 <= p.2 <= 9)); [done|].
      symmetry. apply processAI_fmap. intros us d u.
      by destruct (decide_ai_load us d u) as [-> ->]. }
  split_and!.
  - by apply Hpass.
  - intros rnd. by apply Htick.
  - intros rnds n. induction n as [|n IH]; [done|]. cbn [gameTicks]. by apply Htick.
  - intros sel x y. unfold rightClick. case_match; [|done].
    apply (fold_left_invariant (λ s, Forall load_ok (units s))); [|done].
    intros s1 id H1. simpl. apply command_unit_Forall; [|done].
    intros u Hu. unfold load_ok in *. repeat case_match; simpl; lia.
Qed.

(** ** Gold and the accumulators *)

Lemma no_deposit (r : Q) : (r == r + inject_Z 0 * (1 # 10))%Q.
Proof. change (inject_Z 0) with 0%Q. lra. Qed.

(** What one iteration does to the pool and the accumulators: some number
    [k] of carried resources is deposited, 25 gold and 0.1 of [resources]
    each; [winLoss], [workers] and [buildings] are not written. *)
Lemma resolve_accounts g i w :
  Forall carrying_ok (objs w) →
  ∃ k, 0 <= k ∧
    w_gold (resolve g i w) = w_gold w + k * 25 ∧
    (Rewards.resources (w_rewards (resolve g i w))
     == Rewards.resources (w_rewards w) + inject_Z k * (1#10))%Q ∧
    Rewards.winLoss (w_rewards (resolve g i w)) = Rewards.winLoss (w_rewards w) ∧
    Rewards.workers (w_rewards (resolve g i w)) = Rewards.workers (w_rewards w) ∧
    Rewards.buildings (w_rewards (resolve g i w)) = Rewards.buildings (w_rewards w).
Proof.
  intros Hok. unfold resolve. pose proof no_deposit as Hzero.
  destruct (objs w !! i) as [u|] eqn:Hu;
    [|exists 0; split_and!; try done; try lia; apply Hzero].
  assert (carrying_ok u) as Hcu by (by eapply Forall_lookup_1).
  unfold carrying_ok in Hcu.
  unfold resolve_move, resolve_harvest, resolve_return, resolve_attack, try_move.
  repeat case_match; simpl;
    first
      [ by (exists (Unit.carrying u); split_and!; try done)
      | exists 0; split_and!; try done; try lia; apply Hzero ].
Qed.

Lemma resolve_upto_accounts g n w :
  Forall carrying_ok (objs w) →
  ∃ k, 0 <= k ∧
    w_gold (resolve_upto g n w) = w_gold w + k * 25 ∧
    (Rewards.resources (w_rewards (resolve_upto g n w))
     == Rewards.resources (w_rewards w) + inject_Z k * (1#10))%Q ∧
    Rewards.winLoss (w_rewards (resolve_upto g n w)) = Rewards.winLoss (w_rewards w) ∧
    Rewards.workers (w_rewards (resolve_upto g n w)) = Rewards.workers (w_rewards w) ∧
    Rewards.buildings (w_rewards (resolve_upto g n w)) = Rewards.buildings (w_rewards w).
Proof.
  intros Hok. induction n as [|n (k & Hk & Hg & Hr & Hw & Hwk & Hb)].
  - exists 0. change (resolve_upto g 0 w) with w.
    split_and!; try done; try lia. apply no_deposit.
  - rewrite resolve_upto_S.
    destruct (resolve_upto_rewards g n w Hok) as [Hc _].
    destruct (resolve_accounts g n _ Hc) as (k' & Hk' & Hg' & Hr' & Hw' & Hwk' & Hb').
    exists (k + k'). split_and!; try congruence; try lia.
    rewrite Hr', Hr, inject_Z_plus. lra.
Qed.

Lemma accounts_produce_at i s :
  Rewards.resources (rewards (produce_at i s)) = Rewards.resources (rewards s) ∧
  Rewards.winLoss (rewards (produce_at i s)) = Rewards.winLoss (rewards s) ∧
  Rewards.buildings (rewards (produce_at i s)) = Rewards.buildings (rewards s) ∧
  Rewards.attack (rewards (produce_at i s)) = Rewards.attack (rewards s).
Proof.
  unfold produce_at. destruct (prodQueue s !! i); [|done].
  case_match; [|done]. destruct (find_spot _ _) as [[x y]|]; [|done].
  unfold materialize. by case_match.
Qed.

Lemma accounts_after_pass rnd s0 :
  let s' := processProduction (processAI rnd s0) in
  gold s' = gold s0 ∧
  Rewards.resources (rewards s') = Rewards.resources (rewards s0) ∧
  Rewards.winLoss (rewards s') = Rewards.winLoss (rewards s0) ∧
  Rewards.buildings (rewards s') = Rewards.buildings (rewards s0).
Proof.
  apply (processProduction_invariant
           (λ s', gold s' = gold s0 ∧
                  Rewards.resources (rewards s') = Rewards.resources (rewards s0) ∧
                  Rewards.winLoss (rewards s') = Rewards.winLoss (rewards s0) ∧
                  Rewards.buildings (rewards s') = Rewards.buildings (rewards s0))).
  - intros i s1 (<- & <- & <- & <-).
    destruct (static_produce_at i s1) as (_ & _ & -> & _).
    by destruct (accounts_produce_at i s1) as (-> & -> & -> & _).
  - unfold processAI. by case_match.
Qed.

(** X7.  Deposits are the only source of gold in a tick, and the pool and the
    [resources] accumulator move together.  In a state whose units carry
    non-negative amounts, a tick adds [25 * k] gold and [0.1 * k] to
    [rewards.resources] for one and the same number [k >= 0] of resources
    brought back; so gold never goes down in a tick, and the same holds for
    the action pass alone. *)
Theorem deposits_account s :
  Forall carrying_ok (units s) →
  (∃ k, 0 <= k ∧
     gold (processActions s) = gold s + k * 25 ∧
     (Rewards.resources (rewards (processActions s))
      == Rewards.resources (rewards s) + inject_Z k * (1#10))%Q) ∧
  (∀ rnd, ∃ k, 0 <= k ∧
     gold (gameTick rnd s) = gold s + k * 25 ∧
     (Rewards.resources (rewards (gameTick rnd s))
      == Rewards.resources (rewards s) + inject_Z k * (1#10))%Q) ∧
  (∀ rnd, gold s <= gold (gameTick rnd s)).
Proof.
  intros Hok.
  assert (∀ rnd, ∃ k, 0 <= k ∧
     gold (gameTick rnd s) = gold s + k * 25 ∧
     (Rewards.resources (rewards (gameTick rnd s))
      == Rewards.resources (rewards s) + inject_Z k * (1#10))%Q) as Htick.
  { intros rnd.
    destruct (resolve_upto_accounts (grid s) (length (units s)) (enter (bump_cycle s)) Hok)
      as (k & Hk & Hg & Hr & _).
    destruct (accounts_after_pass rnd (processActions (bump_cycle s)))
      as (Hg' & Hr' & _).
    exists k. split; [done|].
    unfold gameTick, updateUI. simpl. rewrite rewards_updateFog.
    destruct (static_updateFog
                (processProduction (processAI rnd (processActions (bump_cycle s)))))
      as (_ & _ & _ & _ & -> & _).
    rewrite Hg', Hr'. split; [exact Hg|exact Hr]. }
  split_and!; [|exact Htick|].
  - destruct (resolve_upto_accounts (grid s) (length (units s)) (enter s) Hok)
      as (k & Hk & Hg & Hr & _).
    exists k. by split_and!.
  - intros rnd. destruct (Htick rnd) as (k & Hk & -> & _). lia.
Qed.

Lemma never_scored_gameTick rnd s :
  Rewards.winLoss (rewards (gameTick rnd s)) = Rewards.winLoss (rewards s) ∧
  Rewards.buildings (rewards (gameTick rnd s)) = Rewards.buildings (rewards s).
Proof.
  destruct (accounts_after_pass rnd (processActions (bump_cycle s)))
    as (_ & _ & Hw & Hb).
  unfold gameTick, updateUI. simpl. rewrite rewards_updateFog, Hw, Hb.
  unfold processActions. simpl.
  assert (∀ n w,
    Rewards.winLoss (w_rewards (resolve_upto (grid s) n w)) = Rewards.winLoss (w_rewards w) ∧
    Rewards.buildings (w_rewards (resolve_upto (grid s) n w)) = Rewards.buildings (w_rewards w))
    as Hpass; [|apply (Hpass _ (enter (bump_cycle s)))].
  clear. intros n w. induction n as [|n [IHw IHb]]; [done|].
  rewrite resolve_upto_S, <- IHw, <- IHb. generalize (resolve_upto (grid s) n w).
  clear. intros w. unfold resolve. destruct (objs w !! n) as [u|]; [|done].
  unfold resolve_move, resolve_harvest, resolve_return, resolve_attack, try_move.
  by repeat case_match.
Qed.

(** X20.  The engine never scores a win, a loss or a building: whatever the
    state and the draws, the [winLoss] and [buildings] accumulators after any
    number of ticks are the ones it started with. *)
Theorem win_loss_never_scored rnds n s :
  Rewards.winLoss (rewards (gameTicks rnds n s)) = Rewards.winLoss (rewards s) ∧
  Rewards.buildings (rewards (gameTicks rnds n s)) = Rewards.buildings (rewards s).
Proof.
  induction n as [|n [IHw IHb]]; [done|]. cbn [gameTicks].
  destruct (never_scored_gameTick (rnds n) (gameTicks rnds n s)) as [-> ->]. done.
Qed.

(** ** The scripted opponent *)

(** What the inner loop of [processAI] returns: nothing exactly when no unit
    belongs to player 1; otherwise a unit of player 1 at minimal Manhattan
    distance, the first such one in array order. *)
Lemma nearest_enemy_spec u us :
  match nearest_enemy u us with
  | None => Forall (λ t, Unit.owner t ≠ 1) us
  | Some (d, t) =>
      ∃ i, us !! i = Some t ∧ Unit.owner t = 1 ∧ d = manhattan u t ∧
           ∀ j t', us !! j = Some t' → Unit.owner t' = 1 →
                   d <= manhattan u t' ∧ ((j < i)%nat → d < manhattan u t')
  end.
Proof.
  unfold nearest_enemy. induction us as [|x us IH] using rev_ind; [by constructor|].
  rewrite fold_left_app. cbn [fold_left].
  destruct (fold_left _ us None) as [[m t]|] eqn:Hacc.
  - destruct IH as (i & Hi & Ho & -> & Hmin).
    assert (i < length us)%nat as Hlt by (by eapply lookup_lt_Some).
    destruct (Unit.owner x =? 1) eqn:Hx; simpl.
    + apply Z.eqb_eq in Hx. destruct (manhattan u x <? manhattan u t) eqn:Hd.
      * apply Z.ltb_lt in Hd. exists (length us). split_and!; try done.
        { by rewrite lookup_app_r, Nat.sub_diag. }
        intros j t' Hj Ho'. destruct (decide (j < length us)%nat) as [Hjl|Hjl].
        -- rewrite lookup_app_l in Hj by done.
           destruct (Hmin j t' Hj Ho') as [? _]. lia.
        -- apply lookup_lt_Some in Hj as Hj'. rewrite length_app in Hj'. simpl in Hj'.
           assert (j = length us) as -> by lia.
           rewrite lookup_app_r, Nat.sub_diag in Hj by done. simplify_eq/=. lia.
      * apply Z.ltb_ge in Hd. exists i. split_and!; try done.
        { by rewrite lookup_app_l. }
        intros j t' Hj Ho'. destruct (decide (j < length us)%nat) as [Hjl|Hjl].
        -- rewrite lookup_app_l in Hj by done. by apply Hmin.
        -- apply lookup_lt_Some in Hj as Hj'. rewrite length_app in Hj'. simpl in Hj'.
           assert (j = length us) as -> by lia.
           rewrite lookup_app_r, Nat.sub_diag in Hj by done. simplify_eq/=. lia.
    + apply Z.eqb_neq in Hx. exists i. split_and!; try done.
      { by rewrite lookup_app_l. }
      intros j t' Hj Ho'. destruct (decide (j < length us)%nat) as [Hjl|Hjl].
      -- rewrite lookup_app_l in Hj by done. by apply Hmin.
      -- apply lookup_lt_Some in Hj as Hj'. rewrite length_app in Hj'. simpl in Hj'.
         assert (j = length us) as -> by lia.
         rewrite lookup_app_r, Nat.sub_diag in Hj by done. by simplify_eq/=.
  - destruct (Unit.owner x =? 1) eqn:Hx; simpl.
    + apply Z.eqb_eq in Hx. exists (length us). split_and!; try done.
      { by rewrite lookup_app_r, Nat.sub_diag. }
      intros j t' Hj Ho'. destruct (decide (j < length us)%nat) as [Hjl|Hjl].
      -- rewrite lookup_app_l in Hj by done.
         by destruct (Forall_lookup_1 _ _ _ _ IH Hj).
      -- apply lookup_lt_Some in Hj as Hj'. rewrite length_app in Hj'. simpl in Hj'.
         assert (j = length us) as -> by lia.
         rewrite lookup_app_r, Nat.sub_diag in Hj by done. simplify_eq/=. lia.
    + apply Z.eqb_neq in Hx. apply Forall_app. split; [done|]. by constructor.
Qed.

Lemma processAI_lookup rnd s k :
  units (processAI rnd s) !! k =
  if negb (Z.rem (cycle s) 5 =? 0) then units s !! k
  else decide_ai (units s) (rnd k) <$> units s !! k.
Proof.
  unfold processAI. case_match; [done|]. simpl. by rewrite list_lookup_imap.
Qed.

(** X3.  The opponent's script gives orders to nobody else.  On a cycle that
    is not a multiple of 5 [processAI] changes nothing at all.  On the others
    the array keeps its length and every unit its slot and every field but
    [action] and [target]; a unit that is not an idle, mobile unit of
    player 2 is left exactly as it was; and nothing but [state.units] is
    written. *)
Theorem opponent_frame rnd s :
  (Z.rem (cycle s) 5 ≠ 0 → processAI rnd s = s) ∧
  length (units (processAI rnd s)) = length (units s) ∧
  (∀ k u, units s !! k = Some u →
     ∃ u', units (processAI rnd s) !! k = Some u' ∧
           Unit.id u' = Unit.id u ∧ Unit.type u' = Unit.type u ∧
           Unit.owner u' = Unit.owner u ∧ pos u' = pos u ∧
           Unit.hp u' = Unit.hp u ∧ Unit.maxHp u' = Unit.maxHp u ∧
           Unit.carrying u' = Unit.carrying u ∧ Unit.progress u' = Unit.progress u ∧
           (ai_eligible u = false → u' = u)) ∧
  set_units (units s) (processAI rnd s) = s.
Proof.
  split_and!.
  - intros Hc. unfold processAI. apply Z.eqb_neq in Hc. by rewrite Hc.
  - unfold processAI. case_match; [done|]. simpl. by rewrite length_imap.
  - intros k u Hu. rewrite processAI_lookup, Hu.
    destruct (negb _); simpl.
    { exists u. by split_and!. }
    exists (decide_ai (units s) (rnd k) u). split; [done|].
    unfold ai_eligible, decide_ai.
    destruct (Unit.owner u =? 2), (action_eqb (Unit.action u) noop),
      (Def.isBuilding (CONFIG.UNIT_TYPES (Unit.type u))); simpl;
      try (by split_and!).
    destruct (nearest_enemy u (units s)) as [[d t]|]; repeat case_match;
      by split_and!.
  - unfold processAI. case_match; by destruct s.
Qed.

(** X4.  Whom the opponent attacks.  On a cycle that is a multiple of 5, an
    idle mobile unit of player 2 with some unit of player 1 within Manhattan
    distance 8 is ordered to attack, whatever the random draw: its target is
    the identifier of a unit of player 1 that no other one is nearer than,
    and of the first such unit of the array when several are equally near. *)
Theorem opponent_attacks_nearest rnd s k u :
  Z.rem (cycle s) 5 = 0 →
  units s !! k = Some u →
  ai_eligible u = true →
  (∃ e, e ∈ units s ∧ Unit.owner e = 1 ∧ manhattan u e <= 8) →
  ∃ i t,
    units s !! i = Some t ∧ Unit.owner t = 1 ∧ manhattan u t <= 8 ∧
    (∀ j t', units s !! j = Some t' → Unit.owner t' = 1 →
       manhattan u t <= manhattan u t' ∧
       ((j < i)%nat → manhattan u t < manhattan u t')) ∧
    units (processAI rnd s) !! k =
      Some (Unit.set_target (unit_ (Unit.id t)) (Unit.set_action attack u)).
Proof.
  intros Hc Hu He (e & Hin & Hoe & Hde).
  rewrite processAI_lookup, Hu. apply Z.eqb_eq in Hc. rewrite Hc. simpl.
  unfold ai_eligible in He. apply andb_prop in He as [He Hb].
  apply andb_prop in He as [Ho Ha]. apply negb_true_iff in Hb.
  unfold decide_ai. rewrite Ho, Ha, Hb. simpl.
  pose proof (nearest_enemy_spec u (units s)) as Hn.
  apply list_elem_of_lookup in Hin as [j Hj].
  destruct (nearest_enemy u (units s)) as [[d t]|].
  - destruct Hn as (i & Hi & Hot & -> & Hmin).
    destruct (Hmin j e Hj Hoe) as [Hle _].
    assert ((manhattan u t <=? 8) = true) as -> by (apply Z.leb_le; lia).
    exists i, t. split_and!; try done. lia.
  - by destruct (Forall_lookup_1 _ _ _ _ Hn Hj).
Qed.

(** X5.  Where the opponent patrols.  On a cycle that is a multiple of 5, an
    idle mobile unit of player 2 with no unit of player 1 within Manhattan
    distance 8 stays idle when the first draw is not below 0.1; otherwise it
    is ordered to move to a cell that is inside the grid, whatever the two
    offsets drawn, and at most 2 columns and 2 rows away from a unit standing
    inside the grid when the offsets are the integers 0..4 that
    [Math.floor(Math.random() * 5)] gives. *)
Theorem opponent_patrol rnd s k u :
  Z.rem (cycle s) 5 = 0 →
  units s !! k = Some u →
  ai_eligible u = true →
  (∀ e, e ∈ units s → Unit.owner e = 1 → 8 < manhattan u e) →
  match rnd k with
  | None => units (processAI rnd s) !! k = Some u
  | Some (a, b) =>
      ∃ x y,
        units (processAI rnd s) !! k =
          Some (Unit.set_target (cell_ x y) (Unit.set_action move u)) ∧
        0 <= x < CONFIG.GRID_W ∧ 0 <= y < CONFIG.GRID_H ∧
        (0 <= a <= 4 → 0 <= Unit.gx u < CONFIG.GRID_W → Z.abs (x - Unit.gx u) <= 2) ∧
        (0 <= b <= 4 → 0 <= Unit.gy u < CONFIG.GRID_H → Z.abs (y - Unit.gy u) <= 2)
  end.
Proof.
  intros Hc Hu He Hfar.
  rewrite processAI_lookup, Hu. apply Z.eqb_eq in Hc. rewrite Hc. simpl.
  unfold ai_eligible in He. apply andb_prop in He as [He Hb].
  apply andb_prop in He as [Ho Ha]. apply negb_true_iff in Hb.
  unfold decide_ai. rewrite Ho, Ha, Hb. simpl.
  pose proof (nearest_enemy_spec u (units s)) as Hn.
  assert (match nearest_enemy u (units s) with
          | Some (d, _) => (d <=? 8) = false | None => True end) as Hd.
  { destruct (nearest_enemy u (units s)) as [[d t]|]; [|done].
    destruct Hn as (i & Hi & Hot & -> & _). apply Z.leb_gt.
    apply Hfar; [|done]. by eapply list_elem_of_lookup_2. }
  assert (∀ a b, ∃ x y,
    cell_ (clamp 0 (CONFIG.GRID_W - 1) (Unit.gx u + a - 2))
          (clamp 0 (CONFIG.GRID_H - 1) (Unit.gy u + b - 2)) = cell_ x y ∧
    0 <= x < CONFIG.GRID_W ∧ 0 <= y < CONFIG.GRID_H ∧
    (0 <= a <= 4 → 0 <= Unit.gx u < CONFIG.GRID_W → Z.abs (x - Unit.gx u) <= 2) ∧
    (0 <= b <= 4 → 0 <= Unit.gy u < CONFIG.GRID_H → Z.abs (y - Unit.gy u) <= 2)) as Hcl.
  { intros a b. eexists _, _. split; [reflexivity|].
    unfold CONFIG.GRID_W, CONFIG.GRID_H, clamp. lia. }
  destruct (nearest_enemy u (units s)) as [[d t]|]; [rewrite Hd|];
    (destruct (rnd k) as [[a b]|]; [|done]);
    destruct (Hcl a b) as (x & y & -> & ? & ? & ? & ?); exists x, y;
    split_and!; auto; lia.
Qed.

(** ** Arriving ends the order *)








(** ** The life of a production order *)

Lemma prodQueue_gameTick rnd s :
  prodQueue (gameTick rnd s) = List.filter unfinished (tick_order <$> prodQueue s).
Proof.
  unfold gameTick, updateUI. simpl.
  destruct (static_updateFog
              (processProduction (processAI rnd (processActions (bump_cycle s)))))
    as (_ & _ & _ & _ & _ & ->).
  rewrite processProduction_queue. unfold processAI. by case_match.
Qed.

Lemma filter_fmap_comm {A B} (f : A → B) (p : B → bool) (l : list A) :
  List.filter p (f <$> l) = f <$> List.filter (λ x, p (f x)) l.
Proof.
  induction l as [|x l IH]; [done|]. csimpl. destruct (p (f x)); csimpl; by rewrite IH.
Qed.

Lemma filter_filter_and {A} (p q : A → bool) (l : list A) :
  List.filter p (List.filter q l) = List.filter (λ x, q x && p x) l.
Proof.
  induction l as [|x l IH]; [done|]. simpl.
  destruct (q x); simpl; [destruct (p x)|]; by rewrite IH.
Qed.

Lemma fmap_filter_ext {A B} (f g : A → B) (p q : A → bool) (l : list A) :
  (∀ x, p x = q x) → (∀ x, f x = g x) →
  f <$> List.filter p l = g <$> List.filter q l.
Proof.
  intros Hpq Hfg. rewrite (List.filter_ext p q Hpq).
  apply list_fmap_ext. intros _ x _. apply Hfg.
Qed.

Lemma iter_tick_order n pq :
  Nat.iter n tick_order pq =
  Order.mk (Order.unitType pq) (Order.gx pq) (Order.gy pq)
    (Order.progress pq + Z.of_nat n) (Order.total pq).
Proof.
  induction n as [|n IH].
  - simpl. rewrite Z.add_0_r. by destruct pq.
  - rewrite Nat.iter_succ, IH. unfold tick_order. simpl. f_equal. lia.
Qed.

(** The queue after [n + 1] ticks: the orders that are still short of their
    total, each [n + 1] further, in their order. *)
Lemma prodQueue_gameTicks rnds n s :
  prodQueue (gameTicks rnds (S n) s) =
  Nat.iter (S n) tick_order <$>
    List.filter (λ pq, Order.progress pq + Z.of_nat (S n) <? Order.total pq) (prodQueue s).
Proof.
  induction n as [|n IH].
  - cbn [gameTicks]. rewrite prodQueue_gameTick, filter_fmap_comm.
    f_equal. apply List.filter_ext. intros pq. apply eq_true_iff_eq.
    rewrite unfinished_spec, Z.ltb_lt. unfold tick_order.
    cbn [Order.progress Order.total]. lia.
  - change (gameTicks rnds (S (S n)) s) with (gameTick (rnds (S n)) (gameTicks rnds (S n) s)).
    rewrite prodQueue_gameTick, IH, !filter_fmap_comm, filter_filter_and.
    rewrite <- list_fmap_compose. apply fmap_filter_ext.
    + intros pq. rewrite iter_tick_order. apply eq_true_iff_eq.
      rewrite andb_true_iff, unfinished_spec, !Z.ltb_lt. unfold tick_order.
      cbn [Order.progress Order.total]. lia.
    + done.
Qed.

(** X6.  Ordering a unit.  [produceUnit] changes nothing when the gold is
    short of the unit's cost or the player has no base.  Otherwise it takes
    exactly the cost from the gold, leaves the units alone and appends one
    order at the coordinates of the player's first base, with progress 0 and
    the type's build time as total; and from then on the order is in the
    queue, one step further per tick, behind the orders that were there
    before, until the tick that completes it: after [n + 1] ticks the queue
    is the one the state would have had without the order, followed by the
    order at progress [n + 1] if that is below the build time, and by nothing
    if not. *)
Theorem produceUnit_lifecycle ty s :
  let def := CONFIG.UNIT_TYPES ty in
  let base_of_p1 := λ u, (Unit.owner u =? 1) && unit_type_eqb (Unit.type u) base in
  (gold s < Def.cost def ∨ List.find base_of_p1 (units s) = None →
   produceUnit ty s = s) ∧
  (∀ b, Def.cost def <= gold s → List.find base_of_p1 (units s) = Some b →
     let s' := produceUnit ty s in
     gold s' = gold s - Def.cost def ∧
     units s' = units s ∧
     prodQueue s' =
       prodQueue s ++ [Order.mk ty (Unit.gx b) (Unit.gy b) 0 (Def.buildTime def)] ∧
     ∀ rnds rnds' n,
       prodQueue (gameTicks rnds (S n) s') =
       prodQueue (gameTicks rnds' (S n) s) ++
       (if Z.of_nat (S n) <? Def.buildTime def
        then [Order.mk ty (Unit.gx b) (Unit.gy b) (Z.of_nat (S n)) (Def.buildTime def)]
        else [])).
Proof.
  intros def base_of_p1. split.
  - intros [Hg|Hb]; unfold produceUnit; fold def.
    + by assert ((gold s <? Def.cost def) = true) as -> by (zbool; lia).
    + destruct (gold s <? Def.cost def); [done|]. fold base_of_p1. by rewrite Hb.
  - intros b Hg Hb s'.
    assert (s' = set_gold_queue (gold s - Def.cost def)
                   (prodQueue s ++
                      [Order.mk ty (Unit.gx b) (Unit.gy b) 0 (Def.buildTime def)]) s)
      as Hs'.
    { unfold s', produceUnit. fold def base_of_p1.
      assert ((gold s <? Def.cost def) = false) as -> by (zbool; lia).
      by rewrite Hb. }
    rewrite Hs'. split_and!; try done.
    intros rnds rnds' n. rewrite !prodQueue_gameTicks.
    unfold set_gold_queue. cbn [prodQueue].
    rewrite List.filter_app, fmap_app. f_equal.
    cbn [List.filter Order.progress Order.total]. rewrite Z.add_0_l.
    destruct (Z.of_nat (S n) <? Def.buildTime def); [|reflexivity].
    rewrite list_fmap_singleton, iter_tick_order. by rewrite Z.add_0_l.
Qed.

(** ** A unit without an order *)

Lemma resolve_no_order g i w a :
  objs w !! i = Some a → has_order a = false → resolve g i w = w.
Proof.
  intros Ha Ho. unfold resolve. rewrite Ha. unfold has_order in Ho.
  destruct (Unit.action a); simpl; try done; by rewrite Ho.
Qed.

Lemma op_heap_ids g w w' : op g w w' → Unit.id <$> objs w' = Unit.id <$> objs w.
Proof.
  assert (∀ f i (l : list Unit.t),
            (∀ u, Unit.id (f u) = Unit.id u) →
            Unit.id <$> alter f i l = Unit.id <$> l) as Halter.
  { intros f i l Hf.
    rewrite (list_fmap_alter Unit.id f id) by (apply Forall_forall; intros; apply Hf).
    by apply list_alter_id. }
  intros [i f w0 Hf|i x y w0 Hwalk|j t ty w0 Ht Hh|j t h w0 Ht|e w0|r w0|z w0];
    simpl; try done; apply Halter; try done.
  intros u. apply Hf.
Qed.

(** The objects of the iterated array keep their identifiers and their slots
    through the pass. *)
Lemma pass_heap_ids s k :
  Unit.id <$> objs (resolve_upto (grid s) k (enter s)) = Unit.id <$> units s.
Proof.
  apply (ops_invariant (grid s) (λ w, Unit.id <$> objs w = Unit.id <$> units s))
    with (w := enter s); [|apply resolve_upto_ops|done].
  intros w w' Hop <-. by eapply op_heap_ids.
Qed.

Lemma pass_lookup_by_id s i a u :
  NoDup (Unit.id <$> units s) →
  units s !! i = Some a →
  u ∈ units (processActions s) → Unit.id u = Unit.id a →
  objs (resolve_upto (grid s) (length (units s)) (enter s)) !! i = Some u.
Proof.
  intros Hnd Ha Hu Hid. unfold processActions, leave in Hu. simpl in Hu.
  apply registry_subseteq, list_elem_of_lookup in Hu as [j Hj].
  enough (j = i) by congruence.
  eapply NoDup_lookup; [exact Hnd| |].
  - rewrite <- (pass_heap_ids s (length (units s))), list_lookup_fmap, Hj. done.
  - rewrite list_lookup_fmap, Ha. simpl. by rewrite Hid.
Qed.

Lemma pass_keeps_unordered s i a u :
  NoDup (Unit.id <$> units s) →
  units s !! i = Some a → has_order a = false →
  u ∈ units (processActions s) → Unit.id u = Unit.id a →
  same_but_hp a u.
Proof.
  intros Hnd Ha Ho Hu Hid.
  pose proof (pass_lookup_by_id s i a u Hnd Ha Hu Hid) as Hi.
  assert (i < length (units s))%nat as Hlt by (by eapply lookup_lt_Some).
  destruct (frame_fold (grid s) (seq 0 i) (enter s) i a) as (b & Hb & Hab);
    [rewrite elem_of_seq; lia | done |].
  fold (resolve_upto (grid s) i (enter s)) in Hb.
  rewrite (resolve_upto_split (grid s) i (length (units s)) (enter s) Hlt) in Hi.
  assert (has_order b = false) as Hob by (by destruct Hab as [h ->]).
  rewrite (resolve_no_order (grid s) i _ b Hb Hob) in Hi.
  destruct (frame_fold (grid s) (seq (S i) (length (units s) - S i))
              (resolve_upto (grid s) i (enter s)) i b)
    as (c & Hc & Hbc); [rewrite elem_of_seq; lia | exact Hb |].
  rewrite Hc in Hi. injection Hi as <-. by eapply same_but_hp_trans.
Qed.

(** X9.  A unit without an order is left alone.  In a state with pairwise
    distinct identifiers, take a unit that is idle (or whose action has no
    truthy target to act on).  Whatever the other units do during the action
    pass, the unit with its identifier, if it is still there afterwards, is
    the same unit with at most other hit points: same cell, same action and
    target, same load.  For a unit of player 1, and identifiers below
    [nextUnitId], the same holds over a whole tick: neither the opponent's
    script nor production touch it. *)
Theorem unordered_unit_is_left_alone s i a :
  ids_fresh s →
  units s !! i = Some a →
  has_order a = false →
  (∀ u, u ∈ units (processActions s) → Unit.id u = Unit.id a → same_but_hp a u) ∧
  (Unit.owner a = 1 →
   ∀ rnd u, u ∈ units (gameTick rnd s) → Unit.id u = Unit.id a → same_but_hp a u).
Proof.
  intros [Hnd Hlt] Ha Ho. split.
  - intros u. by apply (pass_keeps_unordered s i).
  - intros Hown rnd u. rewrite units_gameTick.
    pose proof (Forall_lookup_1 _ _ _ _ Hlt Ha) as Hida. simpl in Hida.
    enough (nextUnitId s <=
              nextUnitId (processProduction (processAI rnd (processActions (bump_cycle s)))) ∧
            ∀ u, u ∈ units (processProduction
                              (processAI rnd (processActions (bump_cycle s)))) →
                 Unit.id u = Unit.id a → same_but_hp a u) as [_ H] by apply H.
    apply (processProduction_invariant
             (λ s', nextUnitId s <= nextUnitId s' ∧
                    ∀ u, u ∈ units s' → Unit.id u = Unit.id a → same_but_hp a u)).
    + intros k s1 [Hn H1].
      destruct (static_produce_at k s1) as (_ & Hn' & _). split; [lia|].
      destruct (units_produce_at k s1) as [->|(ty & x & y & _ & ->)]; [done|].
      intros v [Hv|Hv%list_elem_of_singleton]%elem_of_app Hid; [by apply H1|].
      subst v. simpl in Hid. lia.
    + split; [unfold processAI; case_match; simpl; lia|].
      intros v Hv Hid. apply list_elem_of_lookup in Hv as [k Hk].
      rewrite processAI_lookup in Hk.
      assert (∀ v0, v0 ∈ units (processActions (bump_cycle s)) →
                    Unit.id v0 = Unit.id a → same_but_hp a v0) as Hpass.
      { intros v0. by apply (pass_keeps_unordered (bump_cycle s) i a v0). }
      destruct (negb _).
      { apply Hpass; [by eapply list_elem_of_lookup_2|done]. }
      destruct (units (processActions (bump_cycle s)) !! k) as [v0|] eqn:Hv0; [|done].
      injection Hk as <-.
      pose proof (λ us, proj1 (decide_ai_body us (rnd k) v0)) as Hid0.
      rewrite Hid0 in Hid.
      assert (same_but_hp a v0) as Hsame
        by (apply Hpass; [by eapply list_elem_of_lookup_2|done]).
      assert (Unit.owner v0 = 1) as Hown0 by (by destruct Hsame as [h ->]).
      unfold decide_ai. by rewrite Hown0.
Qed.

(** ** Commands on the selection *)

Lemma command_unit_ids id f us :
  (∀ u, Unit.id (f u) = Unit.id u) →
  Unit.id <$> command_unit id f us = Unit.id <$> us.
Proof.
  intros Hf. induction us as [|u us IH]; [done|]. simpl.
  case_match; csimpl; [by rewrite Hf|by rewrite IH].
Qed.

(** With distinct identifiers, [find] reaches the one unit that has the
    identifier. *)
Lemma command_unit_lookup id f us k u :
  NoDup (Unit.id <$> us) → us !! k = Some u →
  command_unit id f us !! k = Some (if Unit.id u =? id then f u else u).
Proof.
  revert k. induction us as [|x us IH]; intros k Hnd Hk; [done|].
  csimpl in Hnd. apply NoDup_cons in Hnd as [Hx Hnd]. simpl.
  destruct (Unit.id x =? id) eqn:Hid.
  - destruct k as [|k]; simpl in *.
    + injection Hk as <-. by rewrite Hid.
    + rewrite Hk. apply Z.eqb_eq in Hid.
      assert ((Unit.id u =? id) = false) as ->; [|done].
      apply Z.eqb_neq. intros Heq. apply Hx.
      apply list_elem_of_fmap. exists u. split; [congruence|].
      by eapply list_elem_of_lookup_2.
  - destruct k as [|k]; simpl in *.
    + injection Hk as <-. by rewrite Hid.
    + by apply IH.
Qed.

(** A command given to the selection: every selected unit gets the
    assignment, the others are unchanged, and nothing but the units is
    written. *)
Lemma commands_lookup (f : list (list Z) → Unit.t → Unit.t) sel s k u :
  (∀ g u, Unit.id (f g u) = Unit.id u) →
  (∀ g u, f g (f g u) = f g u) →
  NoDup (Unit.id <$> units s) →
  units s !! k = Some u →
  units (fold_left (λ s id, set_units (command_unit id (f (grid s)) (units s)) s) sel s)
    !! k
  = Some (if bool_decide (Unit.id u ∈ sel) then f (grid s) u else u).
Proof.
  intros Hid Hidem. revert s u. induction sel as [|id sel IH]; intros s u Hnd Hk.
  - cbn [fold_left]. rewrite Hk.
    by rewrite bool_decide_eq_false_2 by apply not_elem_of_nil.
  - cbn [fold_left].
    set (s1 := set_units (command_unit id (f (grid s)) (units s)) s).
    assert (units s1 !! k = Some (if Unit.id u =? id then f (grid s) u else u)) as Hk1
      by (by apply command_unit_lookup).
    assert (NoDup (Unit.id <$> units s1)) as Hnd1.
    { unfold s1. simpl. rewrite command_unit_ids; [done|]. apply Hid. }
    rewrite (IH s1 _ Hnd1 Hk1). f_equal.
    change (grid s1) with (grid s).
    destruct (Unit.id u =? id) eqn:Hu.
    + apply Z.eqb_eq in Hu. rewrite Hid, Hidem.
      rewrite (bool_decide_eq_true_2 (Unit.id u ∈ id :: sel)) by (subst id; left).
      by case_bool_decide.
    + apply Z.eqb_neq in Hu.
      destruct (decide (Unit.id u ∈ sel)) as [Hin|Hin].
      * rewrite !bool_decide_eq_true_2; [done|by right|done].
      * rewrite !bool_decide_eq_false_2; [done| |done].
        intros [?|?]%elem_of_cons; done.
Qed.

Lemma commands_frame (f : list (list Z) → Unit.t → Unit.t) sel s :
  let s' := fold_left (λ s id, set_units (command_unit id (f (grid s)) (units s)) s)
              sel s in
  set_units (units s) s' = s ∧ length (units s') = length (units s).
Proof.
  simpl. revert s. induction sel as [|id sel IH]; intros s; [by destruct s|].
  cbn [fold_left].
  destruct (IH (set_units (command_unit id (f (grid s)) (units s)) s)) as [H1 H2].
  split.
  - destruct s. simpl in *. 
    destruct (fold_left _ sel _); simpl in *. by simplify_eq.
  - rewrite H2. simpl. clear. induction (units s) as [|x l IHl]; [done|].
    simpl. case_match; simpl; by rewrite ?IHl.
Qed.

(** X11.  The stop command.  In a state with distinct identifiers, every
    selected unit is made idle with no target and is otherwise as it was;
    every other unit is unchanged and nothing but the units is written.  A
    unit so stopped then does nothing in the following action pass: if it is
    still there afterwards it is where it was, idle, with the load it had --
    only its hit points may differ. *)
Theorem stop_command sel s :
  NoDup (Unit.id <$> units s) →
  (∀ k u, units s !! k = Some u →
     units (stopCommand sel s) !! k =
       Some (if bool_decide (Unit.id u ∈ sel) then Unit.stop u else u)) ∧
  set_units (units s) (stopCommand sel s) = s ∧
  (∀ k u v, units s !! k = Some u → Unit.id u ∈ sel →
     v ∈ units (processActions (stopCommand sel s)) → Unit.id v = Unit.id u →
     ∃ h, v = Unit.set_hp h (Unit.stop u)).
Proof.
  intros Hnd.
  assert (∀ k u, units s !! k = Some u →
     units (stopCommand sel s) !! k =
       Some (if bool_decide (Unit.id u ∈ sel) then Unit.stop u else u)) as Hlook.
  { intros k u Hk. by apply (commands_lookup (λ _, Unit.stop) sel s k u). }
  split_and!; [exact Hlook| |].
  - apply (commands_frame (λ _, Unit.stop) sel s).
  - intros k u v Hk Hin Hv Hid.
    pose proof (Hlook k u Hk) as Hk'. rewrite bool_decide_eq_true_2 in Hk' by done.
    apply (pass_keeps_unordered (stopCommand sel s) k (Unit.stop u) v); try done.
    destruct (commands_frame (λ _, Unit.stop) sel s) as [Hfr _].
    assert (Unit.id <$> units (stopCommand sel s) = Unit.id <$> units s) as ->; [|done].
    apply list_eq. intros j. rewrite !list_lookup_fmap.
    destruct (units s !! j) as [x|] eqn:Hj.
    + rewrite (Hlook j x Hj). simpl. by case_bool_decide.
    + apply lookup_ge_None in Hj.
      rewrite (proj2 (lookup_ge_None _ _)); [done|].
      pose proof (proj2 (commands_frame (λ _, Unit.stop) sel s)) as Hlen.
      cbv beta zeta in Hlen. unfold stopCommand. by rewrite Hlen.
Qed.

(** ** The harvest command *)

(** A scan that keeps the first element of least measure among those it does
    not skip. *)
Lemma first_min_fold {A} (keep : A → bool) (d : A → Z) (l : list A) :
  match fold_left
          (λ acc t,
             if negb (keep t) then acc
             else match acc with
                  | None => Some (d t, t)
                  | Some (m, _) => if d t <? m then Some (d t, t) else acc
                  end)
          l None with
  | None => Forall (λ t, keep t = false) l
  | Some (m, t) =>
      ∃ i, l !! i = Some t ∧ keep t = true ∧ m = d t ∧
           ∀ j t', l !! j = Some t' → keep t' = true →
                   m <= d t' ∧ ((j < i)%nat → m < d t')
  end.
Proof.
  induction l as [|x l IH] using rev_ind; [by constructor|].
  rewrite fold_left_app. cbn [fold_left].
  assert (∀ j t', (l ++ [x]) !! j = Some t' →
                  (j < length l)%nat ∧ l !! j = Some t' ∨ j = length l ∧ t' = x) as Hsplit.
  { intros j t' Hj. destruct (decide (j < length l)%nat) as [Hjl|Hjl].
    - left. by rewrite lookup_app_l in Hj.
    - right. apply lookup_lt_Some in Hj as Hj'. rewrite length_app in Hj'. simpl in Hj'.
      assert (j = length l) as -> by lia.
      rewrite lookup_app_r, Nat.sub_diag in Hj by done. by simplify_eq/=. }
  destruct (fold_left _ l None) as [[m t]|] eqn:Hacc.
  - destruct IH as (i & Hi & Ho & -> & Hmin).
    assert (i < length l)%nat as Hlt by (by eapply lookup_lt_Some).
    destruct (keep x) eqn:Hx; simpl.
    + destruct (d x <? d t) eqn:Hd.
      * apply Z.ltb_lt in Hd. exists (length l). split_and!; try done.
        { by rewrite lookup_app_r, Nat.sub_diag. }
        intros j t' [[Hjl Hj]|[-> ->]]%Hsplit Ho'; [|lia].
        destruct (Hmin j t' Hj Ho') as [? _]. lia.
      * apply Z.ltb_ge in Hd. exists i. split_and!; try done.
        { by rewrite lookup_app_l. }
        intros j t' [[Hjl Hj]|[-> ->]]%Hsplit Ho'; [by apply Hmin|lia].
    + exists i. split_and!; try done.
      { by rewrite lookup_app_l. }
      intros j t' [[Hjl Hj]|[-> ->]]%Hsplit Ho'; [by apply Hmin|congruence].
  - destruct (keep x) eqn:Hx; simpl.
    + exists (length l). split_and!; try done.
      { by rewrite lookup_app_r, Nat.sub_diag. }
      intros j t' [[Hjl Hj]|[-> ->]]%Hsplit Ho'; [|lia].
      pose proof (Forall_lookup_1 _ _ _ _ IH Hj) as Hno. simpl in Hno. congruence.
    + apply Forall_app. split; [done|]. by constructor.
Qed.

Lemma fold_left_map_pair {A B C} (f : A → C → A) (h : B → C) (l : list B) a :
  fold_left f (map h l) a = fold_left (λ a x, f a (h x)) l a.
Proof. revert a. induction l as [|x l IH]; intros a; [done|]. simpl. apply IH. Qed.

(** The nested loops of the scan are one loop over [scan_cells]. *)
Lemma nearest_resource_flat g u :
  nearest_resource g u =
  fold_left
    (λ acc c,
       if negb (bool_decide (cell g c.1 c.2 = Some 2)) then acc
       else match acc with
            | None => Some (Z.abs (c.1 - Unit.gx u) + Z.abs (c.2 - Unit.gy u), c)
            | Some (m, _) =>
                if Z.abs (c.1 - Unit.gx u) + Z.abs (c.2 - Unit.gy u) <? m
                then Some (Z.abs (c.1 - Unit.gx u) + Z.abs (c.2 - Unit.gy u), c)
                else acc
            end)
    scan_cells None.
Proof.
  unfold nearest_resource, scan_cells.
  generalize (upto CONFIG.GRID_W) as xs. intros xs.
  generalize (@None (Z * (Z * Z))).
  induction (upto CONFIG.GRID_H) as [|y ys IH]; intros acc; [done|].
  cbn [fold_left flat_map]. rewrite IH, fold_left_app, fold_left_map_pair.
  reflexivity.
Qed.

Lemma scan_cells_lookup x y :
  0 <= x < CONFIG.GRID_W → 0 <= y < CONFIG.GRID_H →
  scan_cells !! Z.to_nat (y * 16 + x) = Some (x, y).
Proof.
  intros Hx Hy.
  assert (Forall (λ i, scan_cells !! i
                       = Some (Z.of_nat (i mod 16), Z.of_nat (i / 16)))
            (seq 0 256)) as Hall.
  { apply (bool_decide_unpack _). vm_compute. reflexivity. }
  unfold CONFIG.GRID_W, CONFIG.GRID_H in *.
  rewrite Forall_forall in Hall.
  rewrite (Hall (Z.to_nat (y * 16 + x))) by (apply elem_of_seq; lia).
  f_equal. f_equal.
  - rewrite Nat2Z.inj_mod, Z2Nat.id by lia. 
    change (Z.of_nat 16) with 16. rewrite Z.add_comm, Z.mod_add by lia.
    apply Z.mod_small. lia.
  - rewrite Nat2Z.inj_div, Z2Nat.id by lia.
    change (Z.of_nat 16) with 16. rewrite Z.add_comm, Z.div_add by lia.
    rewrite Z.div_small by lia. lia.
Qed.

Lemma scan_cells_NoDup : NoDup scan_cells.
Proof. apply (bool_decide_unpack _). vm_compute. reflexivity. Qed.

Lemma scan_cells_range x y :
  (x, y) ∈ scan_cells → 0 <= x < CONFIG.GRID_W ∧ 0 <= y < CONFIG.GRID_H.
Proof.
  assert (Forall (λ c, 0 <= c.1 < CONFIG.GRID_W ∧ 0 <= c.2 < CONFIG.GRID_H) scan_cells)
    as Hall.
  { apply (bool_decide_unpack _). vm_compute. reflexivity. }
  rewrite Forall_forall in Hall. intros Hin. apply (Hall _ Hin).
Qed.

(** What the scan of the harvest command finds: nothing exactly when the grid
    has no resource cell; otherwise a resource cell at least Manhattan
    distance from the unit, the first such one in scan order. *)
Lemma nearest_resource_spec g u :
  match nearest_resource g u with
  | None =>
      ∀ x y, 0 <= x < CONFIG.GRID_W → 0 <= y < CONFIG.GRID_H → cell g x y ≠ Some 2
  | Some (d, (x, y)) =>
      0 <= x < CONFIG.GRID_W ∧ 0 <= y < CONFIG.GRID_H ∧ cell g x y = Some 2 ∧
      d = Z.abs (x - Unit.gx u) + Z.abs (y - Unit.gy u) ∧
      ∀ x' y', 0 <= x' < CONFIG.GRID_W → 0 <= y' < CONFIG.GRID_H →
               cell g x' y' = Some 2 →
               d <= Z.abs (x' - Unit.gx u) + Z.abs (y' - Unit.gy u) ∧
               (y' < y ∨ (y' = y ∧ x' < x) →
                d < Z.abs (x' - Unit.gx u) + Z.abs (y' - Unit.gy u))
  end.
Proof.
  rewrite nearest_resource_flat.
  pose proof (first_min_fold
                (λ c : Z * Z, bool_decide (cell g c.1 c.2 = Some 2))
                (λ c : Z * Z, Z.abs (c.1 - Unit.gx u) + Z.abs (c.2 - Unit.gy u))
                scan_cells) as Hspec.
  cbv beta in Hspec.
  destruct (fold_left _ scan_cells None) as [[d [x y]]|].
  - destruct Hspec as (i & Hi & Hres & -> & Hmin). cbn [fst snd] in *.
    apply bool_decide_eq_true in Hres.
    destruct (scan_cells_range x y) as [Hx Hy]; [by eapply list_elem_of_lookup_2|].
    do 4 (split; [done|]).
    intros x' y' Hx' Hy' Hres'.
    pose proof (scan_cells_lookup x' y' Hx' Hy') as Hj.
    pose proof (scan_cells_lookup x y Hx Hy) as Hi'.
    assert (i = Z.to_nat (y * 16 + x)) as Hieq
      by (eapply NoDup_lookup; [apply scan_cells_NoDup|done..]).
    destruct (Hmin _ (x', y') Hj) as [Hle Hlt];
      [by apply bool_decide_eq_true|]. cbn [fst snd] in *.
    split; [done|]. intros Hbefore. apply Hlt.

    unfold CONFIG.GRID_W, CONFIG.GRID_H in *. lia.
  - intros x y Hx Hy Hres.
    pose proof (scan_cells_lookup x y Hx Hy) as Hj.
    pose proof (Forall_lookup_1 _ _ _ _ Hspec Hj) as Hno. cbn [fst snd] in Hno.
    by apply bool_decide_eq_false in Hno.
Qed.

Lemma nearest_resource_pos g u v :
  Unit.gx u = Unit.gx v → Unit.gy u = Unit.gy v →
  nearest_resource g u = nearest_resource g v.
Proof. intros Hx Hy. unfold nearest_resource. rewrite Hx, Hy. reflexivity. Qed.

Lemma send_to_resource_idem g u :
  send_to_resource g (send_to_resource g u) = send_to_resource g u.
Proof.
  unfold send_to_resource.
  destruct (unit_type_eqb (Unit.type u) worker) eqn:Hty; [|by rewrite Hty].
  destruct (nearest_resource g u) as [[d [x y]]|] eqn:Hn; [|by rewrite Hty, Hn].
  cbn [Unit.type Unit.set_target Unit.set_action]. rewrite Hty.
  rewrite (nearest_resource_pos g
             (Unit.set_target (cell_ x y) (Unit.set_action move u)) u)
    by reflexivity.
  rewrite Hn. reflexivity.
Qed.

Lemma send_to_resource_id g u : Unit.id (send_to_resource g u) = Unit.id u.
Proof.
  unfold send_to_resource. destruct (unit_type_eqb _ _); [|done].
  by destruct (nearest_resource g u) as [[d [x y]]|].
Qed.

(** X12.  The harvest command.  In a state with distinct identifiers it
    changes only the selected workers, and a selected worker only when the
    grid holds a resource cell: the worker is then ordered to move to a
    resource cell that no other is nearer to (Manhattan distance), the
    topmost and then leftmost one when several are equally near.  It is put
    in the [move] action, not in [harvest]; every other unit and the rest of
    the state are unchanged. *)
Theorem harvest_command sel s :
  NoDup (Unit.id <$> units s) →
  set_units (units s) (harvestCommand sel s) = s ∧
  ∀ k u, units s !! k = Some u →
    ∃ u', units (harvestCommand sel s) !! k = Some u' ∧
      (Unit.id u ∉ sel ∨ Unit.type u ≠ worker → u' = u) ∧
      (Unit.id u ∈ sel → Unit.type u = worker →
         ((∀ x y, 0 <= x < CONFIG.GRID_W → 0 <= y < CONFIG.GRID_H →
                  cell (grid s) x y ≠ Some 2) ∧ u' = u)
         ∨
         ∃ x y,
           u' = Unit.set_target (cell_ x y) (Unit.set_action move u) ∧
           0 <= x < CONFIG.GRID_W ∧ 0 <= y < CONFIG.GRID_H ∧
           cell (grid s) x y = Some 2 ∧
           ∀ x' y', 0 <= x' < CONFIG.GRID_W → 0 <= y' < CONFIG.GRID_H →
             cell (grid s) x' y' = Some 2 →
             Z.abs (x - Unit.gx u) + Z.abs (y - Unit.gy u)
               <= Z.abs (x' - Unit.gx u) + Z.abs (y' - Unit.gy u) ∧
             (y' < y ∨ (y' = y ∧ x' < x) →
              Z.abs (x - Unit.gx u) + Z.abs (y - Unit.gy u)
                < Z.abs (x' - Unit.gx u) + Z.abs (y' - Unit.gy u))).
Proof.
  intros Hnd. split; [apply (commands_frame send_to_resource sel s)|].
  intros k u Hk. eexists. split.
  { apply (commands_lookup send_to_resource sel s k u);
      [apply send_to_resource_id | apply send_to_resource_idem | done..]. }
  split.
  - intros [Hsel|Hty]; [by rewrite bool_decide_eq_false_2|].
    case_bool_decide; [|done]. unfold send_to_resource.
    by destruct (Unit.type u).
  - intros Hsel Hty. rewrite bool_decide_eq_true_2 by done.
    unfold send_to_resource. rewrite Hty. cbn [unit_type_eqb].
    pose proof (nearest_resource_spec (grid s) u) as Hspec.
    destruct (nearest_resource (grid s) u) as [[d [x y]]|].
    + right. destruct Hspec as (Hx & Hy & Hres & -> & Hmin).
      exists x, y. split_and!; (done || lia).
    + left. by split.
Qed.

(** ** The right-click command *)

(** X13.  The right-click command.  A click outside the grid does nothing.
    Inside the grid, in a state with distinct identifiers, the command writes
    nothing but [action], [target] and [progress] of the selected units:
    every unit keeps its slot, identifier, type, owner, cell, hit points and
    load, and a unit that is not selected is unchanged.  A selected unit is
    ordered to attack the first unit standing on the clicked cell that is not
    the player's, if there is one; failing that a worker clicked onto a
    resource cell is put in [harvest] with progress 0, and any other unit is
    ordered to move to the cell. *)
Theorem right_click sel x y s :
  NoDup (Unit.id <$> units s) →
  (¬ (0 <= x < CONFIG.GRID_W ∧ 0 <= y < CONFIG.GRID_H) → rightClick sel x y s = s) ∧
  set_units (units s) (rightClick sel x y s) = s ∧
  ∀ k u, units s !! k = Some u →
    ∃ u', units (rightClick sel x y s) !! k = Some u' ∧
      Unit.id u' = Unit.id u ∧ Unit.type u' = Unit.type u ∧
      Unit.owner u' = Unit.owner u ∧ pos u' = pos u ∧
      Unit.hp u' = Unit.hp u ∧ Unit.maxHp u' = Unit.maxHp u ∧
      Unit.carrying u' = Unit.carrying u ∧
      (Unit.id u ∉ sel → u' = u) ∧
      (Unit.id u ∈ sel → 0 <= x < CONFIG.GRID_W → 0 <= y < CONFIG.GRID_H →
       match List.find (λ e, at_cell x y e && negb (Unit.owner e =? 1)) (units s) with
       | Some e =>
           e ∈ units s ∧ pos e = (x, y) ∧ Unit.owner e ≠ 1 ∧
           u' = Unit.set_target (unit_ (Unit.id e)) (Unit.set_action attack u)
       | None =>
           if bool_decide (cell (grid s) x y = Some 2) && unit_type_eqb (Unit.type u) worker
           then u' = Unit.set_progress 0
                       (Unit.set_target (cell_ x y) (Unit.set_action harvest u))
           else u' = Unit.set_target (cell_ x y) (Unit.set_action move u)
       end).
Proof.
  intros Hnd.
  destruct ((x >=? 0) && (x <? CONFIG.GRID_W) && (y >=? 0) && (y <? CONFIG.GRID_H))
    eqn:Hin.
  2:{ assert (rightClick sel x y s = s) as Hsame
        by (unfold rightClick; by rewrite Hin).
      rewrite Hsame. split_and!; [done|by destruct s|].
      intros k u Hk. exists u. split_and!; try done.
      intros _ Hx Hy. exfalso. zbool. lia. }
  assert (0 <= x < CONFIG.GRID_W ∧ 0 <= y < CONFIG.GRID_H) as Hgrid by (zbool; lia).
  set (f := λ u : Unit.t,
         match List.find (λ e, at_cell x y e && negb (Unit.owner e =? 1)) (units s) with
         | Some e => Unit.set_target (unit_ (Unit.id e)) (Unit.set_action attack u)
         | None =>
             if bool_decide (cell (grid s) x y = Some 2)
                && unit_type_eqb (Unit.type u) worker
             then Unit.set_progress 0
                    (Unit.set_target (cell_ x y) (Unit.set_action harvest u))
             else Unit.set_target (cell_ x y) (Unit.set_action move u)
         end).
  assert (rightClick sel x y s =
          fold_left (λ s0 id, set_units (command_unit id ((λ _, f) (grid s0)) (units s0)) s0)
            sel s) as Hfold.
  { unfold rightClick. rewrite Hin. reflexivity. }
  rewrite Hfold.
  assert (∀ u, Unit.id (f u) = Unit.id u ∧ Unit.type (f u) = Unit.type u ∧
               Unit.owner (f u) = Unit.owner u ∧ pos (f u) = pos u ∧
               Unit.hp (f u) = Unit.hp u ∧ Unit.maxHp (f u) = Unit.maxHp u ∧
               Unit.carrying (f u) = Unit.carrying u) as Hbody.
  { intros u. unfold f. by repeat case_match. }
  split_and!.
  - intros Hout. by destruct Hout.
  - apply (commands_frame (λ _, f) sel s).
  - intros k u Hk. eexists. split.
    { apply (commands_lookup (λ _, f) sel s k u); try done.
      - intros _ v. apply Hbody.
      - intros _ v. unfold f.
        destruct (List.find _ (units s)); [done|].
        destruct (bool_decide _), (unit_type_eqb (Unit.type v) worker) eqn:Hty;
          simpl; by rewrite ?Hty. }
    cbv beta. case_bool_decide as Hsel.
    + destruct (Hbody u) as (? & ? & ? & ? & ? & ? & ?). split_and!; try done.
      intros _ _ _. unfold f.
      destruct (List.find _ (units s)) as [e|] eqn:Hfind; [|by case_match].
      apply find_some in Hfind as [He Hcell]. apply list_elem_of_In in He.
      apply andb_prop in Hcell as [Hat Hown]. unfold at_cell in Hat.
      apply andb_prop in Hat as [Hex Hey]. apply Z.eqb_eq in Hex, Hey.
      apply negb_true_iff, Z.eqb_neq in Hown.
      split_and!; try done. unfold pos. by rewrite Hex, Hey.
    + by split_and!.
Qed.

(** ** The enemy's production in the demo *)

Lemma enemySpawn_cases ty s :
  enemySpawn ty s = s ∨
  ∃ b x y,
    List.find (λ u, (Unit.owner u =? 2) && unit_type_eqb (Unit.type u) base) (units s)
      = Some b ∧
    (x, y) ∈ [ (Unit.gx b + 1, Unit.gy b); (Unit.gx b - 1, Unit.gy b);
               (Unit.gx b, Unit.gy b + 1); (Unit.gx b, Unit.gy b - 1) ] ∧
    isWalkable (grid s) (units s) x y = true ∧
    enemySpawn ty s = log_event (emitSpawn x y) (spawnUnit ty x y 2 s).
Proof.
  unfold enemySpawn.
  destruct (List.find _ (units s)) as [b|] eqn:Hb; [|by left].
  destruct (List.find _ [_; _; _; _]) as [[x y]|] eqn:Hspot; [|by left].
  right. exists b, x, y. apply find_some in Hspot as [Hin Hw].
  split_and!; try done. by apply list_elem_of_In.
Qed.

Lemma enemy_base_test u :
  (Unit.owner u =? 2) && unit_type_eqb (Unit.type u) base = true ↔
  Unit.owner u = 2 ∧ Unit.type u = base.
Proof.
  rewrite andb_true_iff, Z.eqb_eq.
  split; intros [Ho Hty]; (split; [done|]); by destruct (Unit.type u).
Qed.

(** X14.  The enemy's production in the demo driver.  The base is the first
    unit of [state.units] that is a base of player 2, and the four cells
    (+1,0), (-1,0), (0,+1), (0,-1) next to it are tried in this order: one
    unit of player 2 -- a fresh one with the next identifier, full hit points
    and no order -- is added on the first of them that is walkable, with one
    spawn effect emitted and neither gold, queue nor rewards written.  Nothing
    at all changes when none of the four cells is walkable, and when player 2
    has no base.  Distinct cells, hit points in range, distinct identifiers
    and units on the board are all preserved. *)
Theorem enemy_spawn ty s :
  occupancy (units s) → Forall hp_ok (units s) → ids_fresh s →
  Forall (on_board (grid s)) (units s) →
  (∀ pre b post,
     units s = pre ++ b :: post →
     Forall (λ u, ¬ (Unit.owner u = 2 ∧ Unit.type u = base)) pre →
     Unit.owner b = 2 → Unit.type b = base →
     let four := [ (Unit.gx b + 1, Unit.gy b); (Unit.gx b - 1, Unit.gy b);
                   (Unit.gx b, Unit.gy b + 1); (Unit.gx b, Unit.gy b - 1) ] in
     let taken := λ c : Z * Z, isWalkable (grid s) (units s) c.1 c.2 = false in
     (∀ before x y after,
        four = before ++ (x, y) :: after →
        Forall taken before →
        isWalkable (grid s) (units s) x y = true →
        units (enemySpawn ty s) = units s ++ [fresh_unit ty x y 2 (nextUnitId s)] ∧
        events (enemySpawn ty s) = events s ++ [emitSpawn x y] ∧
        nextUnitId (enemySpawn ty s) = nextUnitId s + 1 ∧
        gold (enemySpawn ty s) = gold s ∧ grid (enemySpawn ty s) = grid s ∧
        prodQueue (enemySpawn ty s) = prodQueue s ∧
        rewards (enemySpawn ty s) = rewards s) ∧
     (Forall taken four → enemySpawn ty s = s) ∧
     ((∃ before x y after,
         four = before ++ (x, y) :: after ∧ Forall taken before ∧
         isWalkable (grid s) (units s) x y = true) ∨
      Forall taken four)) ∧
  (enemySpawn ty s = s ∨
   ∃ b x y,
     b ∈ units s ∧ Unit.owner b = 2 ∧ Unit.type b = base ∧
     Z.abs (x - Unit.gx b) + Z.abs (y - Unit.gy b) = 1 ∧
     isWalkable (grid s) (units s) x y = true ∧
     units (enemySpawn ty s) = units s ++ [fresh_unit ty x y 2 (nextUnitId s)] ∧
     events (enemySpawn ty s) = events s ++ [emitSpawn x y] ∧
     nextUnitId (enemySpawn ty s) = nextUnitId s + 1 ∧
     gold (enemySpawn ty s) = gold s ∧ grid (enemySpawn ty s) = grid s ∧
     prodQueue (enemySpawn ty s) = prodQueue s ∧
     rewards (enemySpawn ty s) = rewards s) ∧
  ((∀ b, b ∈ units s → ¬ (Unit.owner b = 2 ∧ Unit.type b = base)) →
   enemySpawn ty s = s) ∧
  occupancy (units (enemySpawn ty s)) ∧
  Forall hp_ok (units (enemySpawn ty s)) ∧
  ids_fresh (enemySpawn ty s) ∧
  Forall (on_board (grid s)) (units (enemySpawn ty s)).
Proof.
  intros Hocc Hhp Hids Hboard. split.
  { intros pre b post Hsplit Hpre Hown Hty four taken.
    assert (List.find (λ u, (Unit.owner u =? 2) && unit_type_eqb (Unit.type u) base)
              (units s) = Some b) as Hb.
    { apply (find_first _ _ pre b post Hsplit); [|by apply enemy_base_test].
      eapply Forall_impl; [exact Hpre|]. simpl. intros u Hu.
      apply not_true_is_false. by rewrite enemy_base_test. }
    split_and!.
    - intros before x y after Hfour Hbefore Hfree.
      unfold enemySpawn. rewrite Hb. fold four.
      by rewrite (find_first (λ c, isWalkable (grid s) (units s) c.1 c.2)
                    four before (x, y) after Hfour Hbefore Hfree).
    - intros Hnone. unfold enemySpawn. rewrite Hb. fold four.
      by rewrite (find_none_Forall (λ c, isWalkable (grid s) (units s) c.1 c.2)
                    four Hnone).
    - destruct (find_cases (λ c, isWalkable (grid s) (units s) c.1 c.2) four)
        as [(before & [x y] & after & Hfour & Hbefore & Hfree)|Hnone]; [left|by right].
      by exists before, x, y, after. }
  destruct (enemySpawn_cases ty s) as [Hsame|(b & x & y & Hb & Hspot & Hw & Hs')].
  { rewrite Hsame. split_and!; try done. by left. }
  apply find_some in Hb as Hb'. destruct Hb' as [Hbin Hbase].
  apply list_elem_of_In in Hbin. apply andb_prop in Hbase as [Hown Hty].
  apply Z.eqb_eq in Hown.
  assert (Unit.type b = base) as Hty' by (by destruct (Unit.type b)).
  rewrite Hs'. split_and!.
  - right. exists b, x, y. split_and!; try done.
    repeat (apply elem_of_cons in Hspot as [[= -> ->]|Hspot]; [lia|]).
    by apply elem_of_nil in Hspot.
  - intros Hno. by destruct (Hno b Hbin).
  - simpl. unfold occupancy. rewrite fmap_app. apply NoDup_app. split; [done|].
    split; [|apply NoDup_singleton].
    intros p Hp ->%list_elem_of_singleton. by apply isWalkable_free in Hw.
  - simpl. apply Forall_app. split; [done|]. apply Forall_singleton.
    apply fresh_unit_hp_ok.
  - by apply (ids_fresh_spawnUnit ty x y 2 s) in Hids.
  - simpl. apply Forall_app. split; [done|]. apply Forall_singleton.
    by apply isWalkable_in_grid in Hw.
Qed.

(** ** The fog, cell by cell *)

Lemma fog_at_set_ne f x y v x' y' :
  (x, y) ≠ (x', y') → fog_at (fog_set x y v f) x' y' = fog_at f x' y'.
Proof.
  intros Hne. unfold fog_at, fog_set.
  destruct (decide (y = y')) as [->|Hy].
  - rewrite list_lookup_alter_eq. destruct (f !! y') as [row|]; [|done]. simpl.
    apply list_lookup_insert_ne. congruence.
  - by rewrite list_lookup_alter_ne.
Qed.

Lemma fog_at_set f x y v x' y' :
  fog_at (fog_set x y v f) x' y' =
  if bool_decide ((x, y) = (x', y')) then (λ _, v) <$> fog_at f x y
  else fog_at f x' y'.
Proof.
  case_bool_decide as Heq.
  - injection Heq as <- <-. destruct (fog_at f x y) as [c|] eqn:Hc.
    + by erewrite fog_at_set_eq.
    + unfold fog_at, fog_set in *. rewrite list_lookup_alter_eq.
      destruct (f !! y) as [row|]; [|done]. simpl in *.
      apply lookup_ge_None. rewrite length_insert. by apply lookup_ge_None.
  - by apply fog_at_set_ne.
Qed.

Lemma fog_at_downgrade f x y x' y' :
  fog_at (downgrade x y f) x' y' =
  if bool_decide ((x, y) = (x', y'))
  then (λ c, if c =? 2 then 1 else c) <$> fog_at f x y
  else fog_at f x' y'.
Proof.
  unfold downgrade. case_bool_decide as Hv.
  - rewrite fog_at_set, Hv. by case_bool_decide.
  - case_bool_decide as Heq; [|done]. injection Heq as <- <-.
    destruct (fog_at f x y) as [c|]; [|done]. simpl. f_equal.
    destruct (c =? 2) eqn:Hc; [|done]. apply Z.eqb_eq in Hc. congruence.
Qed.

(** A loop whose iteration at [a0] applies [h] to the cell and whose other
    iterations leave the cell alone. *)
Lemma fold_touch {A} `{EqDecision A}
    (step : list (list Z) → A → list (list Z)) (h : Z → Z) (l : list A) a0 x y f :
  NoDup l →
  (∀ f a, a ≠ a0 → fog_at (step f a) x y = fog_at f x y) →
  (∀ f, fog_at (step f a0) x y = h <$> fog_at f x y) →
  fog_at (fold_left step l f) x y =
  if bool_decide (a0 ∈ l) then h <$> fog_at f x y else fog_at f x y.
Proof.
  intros Hnd Hother Hhit. revert f.
  induction Hnd as [|a l Hna Hnd IH]; intros f; [done|].
  cbn [fold_left]. rewrite IH. destruct (decide (a = a0)) as [->|Hne].
  - rewrite (bool_decide_eq_false_2 (a0 ∈ l)) by done.
    rewrite (bool_decide_eq_true_2 (a0 ∈ a0 :: l)) by left. apply Hhit.
  - rewrite (Hother f a Hne).
    destruct (decide (a0 ∈ l)) as [Hin|Hin].
    + rewrite !bool_decide_eq_true_2; [done|by right|done].
    + rewrite !bool_decide_eq_false_2; [done| |done].
      intros [?|?]%elem_of_cons; done.
Qed.

Lemma for_cells_pointwise body (h : Z → Z) f x y :
  (∀ x0 y0 f x' y',
     fog_at (body x0 y0 f) x' y' =
     if bool_decide ((x0, y0) = (x', y')) then h <$> fog_at f x0 y0
     else fog_at f x' y') →
  fog_at (for_cells body f) x y =
  if in_fog_grid x y then h <$> fog_at f x y else fog_at f x y.
Proof.
  intros Hbody. unfold for_cells.
  assert (∀ l y0 f, y0 ≠ y →
            fog_at (fold_left (λ f x0, body x0 y0 f) l f) x y = fog_at f x y) as Hrow.
  { intros l y0 f0 Hy. revert f0. induction l as [|x0 l IH]; intros f0; [done|].
    simpl. rewrite IH, Hbody. rewrite bool_decide_eq_false_2; [done|]. congruence. }
  rewrite (fold_touch _ (λ c, if Z.of_nat x <? CONFIG.GRID_W then h c else c) _ y).
  - unfold in_fog_grid.
    destruct (Z.of_nat y <? CONFIG.GRID_H) eqn:Hy; zbool.
    + rewrite bool_decide_eq_true_2
        by (apply elem_of_seq; unfold CONFIG.GRID_H in *; lia).
      rewrite andb_true_r. destruct (fog_at f x y); [|by case_match].
      simpl. by case_match.
    + rewrite bool_decide_eq_false_2
        by (rewrite elem_of_seq; unfold CONFIG.GRID_H in *; lia).
      by rewrite andb_false_r.
  - apply NoDup_seq.
  - intros f0 y0 Hy. by apply Hrow.
  - intros f0. rewrite (fold_touch _ h _ x).
    + destruct (Z.of_nat x <? CONFIG.GRID_W) eqn:Hx; zbool.
      * by rewrite bool_decide_eq_true_2
          by (apply elem_of_seq; unfold CONFIG.GRID_W in *; lia).
      * rewrite bool_decide_eq_false_2
          by (rewrite elem_of_seq; unfold CONFIG.GRID_W in *; lia).
        by destruct (fog_at f0 x y).
    + apply NoDup_seq.
    + intros f1 x0 Hx. rewrite Hbody. rewrite bool_decide_eq_false_2; [done|].
      congruence.
    + intros f1. rewrite Hbody. by rewrite bool_decide_eq_true_2.
Qed.

Lemma seen_spec us x y :
  seen us x y = true ↔ ∃ u, u ∈ us ∧ Unit.owner u = 1 ∧ in_vision u x y.
Proof.
  unfold seen, in_vision. rewrite existsb_exists. split.
  - intros (u & Hu & Hc). apply andb_prop in Hc as [Ho Hd]. zbool.
    exists u. split; [by apply list_elem_of_In|done].
  - intros (u & Hu & Ho & Hd). exists u. split; [by apply list_elem_of_In|].
    apply andb_true_intro. zbool. done.
Qed.

Lemma J_seen_trans us x y a b c : J_seen us x y a b → J_seen us x y b c → J_seen us x y a c.
Proof. by intros _ ?. Qed.

(** The reveal loops write Visible, only inside the grid, and only on cells
    that some unit of player 1 sees. *)
Lemma reveal_writes_seen us f : fog_writes (J_seen us) f (fold_left reveal us f).
Proof.
  apply fog_writes_fold; [apply J_seen_trans|].
  intros f' u Hu. unfold reveal.
  destruct (negb _) eqn:Ho; [apply fog_writes_refl|]. zbool.
  apply fog_writes_fold; [apply J_seen_trans|]. intros f1 dy _.
  apply fog_writes_fold; [apply J_seen_trans|]. intros f2 dx _.
  unfold reveal_cell.
  destruct (_ >? _) eqn:Hfar; [apply fog_writes_refl|].
  destruct (_ && _) eqn:Hin; [|apply fog_writes_refl].
  apply fog_writes_set. intros c _. zbool. destruct Hin as [[[Hx0 Hx1] Hy0] Hy1].
  split; [done|]. split.
  - unfold in_fog_grid. rewrite !Z2Nat.id by lia. apply andb_true_intro. zbool. done.
  - apply seen_spec. exists u. split; [done|]. split; [done|].
    unfold in_vision. rewrite !Z2Nat.id by lia.
    replace (Unit.gx u + dx - Unit.gx u) with dx by lia.
    replace (Unit.gy u + dy - Unit.gy u) with dy by lia. lia.
Qed.

Lemma reveal_force f u : fog_writes J_force f (reveal f u).
Proof.
  unfold reveal. destruct (negb _); [apply fog_writes_refl|].
  apply fog_writes_fold; [apply J_force_trans|]. intros f1 dy _.
  apply fog_writes_fold; [apply J_force_trans|]. intros f2 dx _.
  unfold reveal_cell. repeat case_match; try apply fog_writes_refl.
  by apply fog_writes_set.
Qed.

Lemma elem_of_deltas d : -4 <= d <= 4 → d ∈ deltas CONFIG.VISION_RANGE.
Proof.
  intros Hd. unfold deltas, CONFIG.VISION_RANGE.
  apply list_elem_of_In, in_map_iff. exists (Z.to_nat (d + 4)). split; [lia|].
  apply in_seq. lia.
Qed.

(** A unit of player 1 makes every cell of the grid it sees Visible. *)
Lemma reveal_hits f u x y c :
  Unit.owner u = 1 → in_vision u x y → in_fog_grid x y = true →
  fog_at f x y = Some c →
  fog_at (reveal f u) x y = Some 2.
Proof.
  intros Ho Hsee Hin Hc. unfold reveal.
  assert (negb (Unit.owner u =? 1) = false) as -> by (zbool; done).
  unfold in_vision, CONFIG.VISION_RANGE in Hsee.
  unfold in_fog_grid in Hin. apply andb_prop in Hin as [Hx Hy]. zbool.
  set (dx := Z.of_nat x - Unit.gx u) in *.
  set (dy := Z.of_nat y - Unit.gy u) in *.
  assert (-4 <= dx <= 4 ∧ -4 <= dy <= 4) as [Hdx Hdy] by nia.
  eapply (force_fold_hit _ _ dy); [by apply elem_of_deltas| | |exact Hc].
  - intros f1 dy1. apply fog_writes_fold; [apply J_force_trans|].
    intros f2 dx2 _. unfold reveal_cell. repeat case_match; try apply fog_writes_refl.
    by apply fog_writes_set.
  - intros f1 c1 Hc1.
    eapply (force_fold_hit _ _ dx); [by apply elem_of_deltas| | |exact Hc1].
    + intros f2 dx2. unfold reveal_cell. repeat case_match; try apply fog_writes_refl.
      by apply fog_writes_set.
    + intros f2 c2 Hc2. unfold reveal_cell, CONFIG.VISION_RANGE.
      assert ((dx * dx + dy * dy >? 4 * 4) = false) as -> by (zbool; lia).
      replace (Unit.gx u + dx) with (Z.of_nat x) by (unfold dx; lia).
      replace (Unit.gy u + dy) with (Z.of_nat y) by (unfold dy; lia).
      assert ((Z.of_nat x >=? 0) && (Z.of_nat x <? CONFIG.GRID_W)
              && (Z.of_nat y >=? 0) && (Z.of_nat y <? CONFIG.GRID_H) = true) as ->.
      { repeat (apply andb_true_intro; split); zbool; lia. }
      rewrite !Nat2Z.id. by eapply fog_at_set_eq.
Qed.

Lemma reveal_all us f x y c :
  fog_at f x y = Some c →
  fog_at (fold_left reveal us f) x y =
  Some (if in_fog_grid x y && seen us x y then 2 else c).
Proof.
  intros Hc.
  destruct (in_fog_grid x y && seen us x y) eqn:Hs.
  - apply andb_prop in Hs as [Hin Hseen].
    apply seen_spec in Hseen as (u & Hu & Ho & Hsee).
    eapply (force_fold_hit _ _ u); [exact Hu| | |exact Hc].
    + intros f1 b. apply reveal_force.
    + intros f1 c1 Hc1. by eapply reveal_hits.
  - destruct (reveal_writes_seen us f x y c Hc) as (c' & Hc' & [->|(_ & Hin & Hseen)]);
      [done|]. by rewrite Hin, Hseen in Hs.
Qed.

Lemma updateFog_exact s x y c :
  fog_at (fogGrid s) x y = Some c →
  fog_at (fogGrid (updateFog s)) x y =
  Some (fog_after (fogEnabled s) (units s) x y c).
Proof.
  intros Hc. unfold updateFog, fog_after.
  destruct (fogEnabled s); simpl.
  - assert (fog_at (for_cells downgrade (fogGrid s)) x y =
            Some (if in_fog_grid x y then (if c =? 2 then 1 else c) else c)) as Hd.
    { rewrite (for_cells_pointwise downgrade (λ c, if c =? 2 then 1 else c)), Hc.
      - by destruct (in_fog_grid x y).
      - intros. apply fog_at_downgrade. }
    rewrite (reveal_all _ _ x y _ Hd).
    destruct (in_fog_grid x y); simpl; [|done]. by destruct (seen (units s) x y).
  - rewrite (for_cells_pointwise (λ x y f, fog_set x y 2 f) (λ _, 2)), Hc.
    + by destruct (in_fog_grid x y).
    + intros. apply fog_at_set.
Qed.

(** X18.  What a recomputation of the fog leaves in a cell.  With the fog
    disabled every cell of the 16 x 16 grid is Visible.  With the fog enabled
    a cell of the grid is Visible exactly when some unit of player 1 has it
    within its vision radius at that moment; a cell that no unit sees is
    Explored if it was Visible and keeps its value otherwise.  Cells outside
    the 16 x 16 grid are never written.  The same holds for the fog after a
    tick, with the units the tick ends with. *)
Theorem fog_recomputed_exactly s x y c :
  fog_at (fogGrid s) x y = Some c →
  fog_at (fogGrid (updateFog s)) x y =
    Some (fog_after (fogEnabled s) (units s) x y c) ∧
  (∀ rnd, fog_at (fogGrid (gameTick rnd s)) x y =
            Some (fog_after (fogEnabled s) (units (gameTick rnd s)) x y c)) ∧
  (fogEnabled s = true → in_fog_grid x y = true →
   (fog_at (fogGrid (updateFog s)) x y = Some 2 ↔
    ∃ u, u ∈ units s ∧ Unit.owner u = 1 ∧ in_vision u x y)).
Proof.
  intros Hc. split_and!.
  - by apply updateFog_exact.
  - intros rnd. destruct (fog_before_updateFog rnd s) as [Hfog Hen].
    rewrite units_gameTick. unfold gameTick, updateUI. simpl.
    rewrite <- Hfog in Hc. rewrite (updateFog_exact _ x y c Hc). by rewrite Hen.
  - intros Hen Hin. rewrite (updateFog_exact s x y c Hc), <- seen_spec.
    unfold fog_after. rewrite Hin, Hen. simpl.
    destruct (seen (units s) x y); [done|].
    split; [|done]. intros [= Heq]. destruct (c =? 2) eqn:Hc2; [done|].
    apply Z.eqb_neq in Hc2. done.
Qed.

(** X19.  Recomputing the fog twice is recomputing it once, and switching
    the fog off and on again leaves no cell of the grid Hidden: after the two
    toggles a cell of the grid is Visible if a unit of player 1 sees it and
    Explored if not, whatever it was before. *)
Theorem fog_recomputed_twice s x y c :
  fog_at (fogGrid s) x y = Some c →
  fog_at (fogGrid (updateFog (updateFog s))) x y = fog_at (fogGrid (updateFog s)) x y ∧
  (fogEnabled s = true → in_fog_grid x y = true →
   fog_at (fogGrid (toggleFog (toggleFog s))) x y =
     Some (if seen (units s) x y then 2 else 1)).
Proof.
  intros Hc. split.
  - pose proof (updateFog_exact s x y c Hc) as H1.
    rewrite (updateFog_exact _ x y _ H1), H1. f_equal.
    destruct (static_updateFog s) as (_ & _ & _ & -> & _).
    rewrite units_updateFog. unfold fog_after.
    destruct (in_fog_grid x y); simpl; [|done].
    destruct (fogEnabled s); simpl; [|done].
    destruct (seen (units s) x y); [done|].
    destruct (c =? 2) eqn:Hc2; [done|]. by rewrite Hc2.
  - intros Hen Hin. unfold toggleFog.
    set (s1 := mkState _ _ _ _ _ _ (negb (fogEnabled s)) _ _ _ _).
    assert (fog_at (fogGrid s1) x y = Some c) as Hc1 by done.
    pose proof (updateFog_exact s1 x y c Hc1) as H1.
    set (s2 := mkState _ _ _ _ _ _ (negb (fogEnabled (updateFog s1))) _ _ _ _).
    assert (fog_at (fogGrid s2) x y = Some (fog_after (fogEnabled s1) (units s1) x y c))
      as Hc2 by done.
    rewrite (updateFog_exact s2 x y _ Hc2).
    assert (fogEnabled s2 = true) as ->.
    { unfold s2. simpl. destruct (static_updateFog s1) as (_ & _ & _ & -> & _).
      unfold s1. simpl. by rewrite Hen. }
    assert (units s2 = units s) as ->.
    { unfold s2. simpl. by rewrite units_updateFog. }
    assert (fogEnabled s1 = false) as -> by (unfold s1; simpl; by rewrite Hen).
    f_equal. unfold fog_after. rewrite Hin. simpl.
    by destruct (seen (units s) x y).
Qed.

(** ** An attack order without a victim *)

Lemma find_ref_absent p os rs :
  (∀ t, t ∈ omap (λ r, os !! r) rs → p t = false) → find_ref p os rs = None.
Proof.
  intros Hno. destruct (find_ref p os rs) as [[j t]|] eqn:Hfind; [|done].
  apply find_ref_Some in Hfind as (Hj & Ht & Hp).
  rewrite Hno in Hp; [done|]. apply list_elem_of_omap. eauto.
Qed.

(** X21.  An attack order that has lost its victim ends.  A unit in the
    [attack] action whose target is a cell, or the identifier of no unit of
    [state.units], or of a unit whose hit points are not positive, becomes
    idle with no target when its turn comes; nothing else in the world
    changes: no unit moves or is hit, no event is emitted, no reward is
    given. *)
Theorem attack_without_victim g w i u :
  objs w !! i = Some u →
  Unit.action u = attack →
  truthy (Unit.target u) = true →
  (∀ tid t, Unit.target u = unit_ tid → t ∈ registry w → Unit.id t = tid →
            (Unit.hp t <=? 0)%float = true) →
  resolve g i w = mutate i Unit.stop w.
Proof.
  intros Hu Ha Ht Hgone. unfold resolve. rewrite Hu, Ha, Ht. simpl.
  unfold resolve_attack. destruct (Unit.target u) as [|tx ty|tid] eqn:Htgt; try done.
  destruct (find_ref _ (objs w) (live w)) as [[j t]|] eqn:Hfind; [|done].
  apply find_ref_Some in Hfind as (Hj & Hjt & Hid). apply Z.eqb_eq in Hid.
  assert ((Unit.hp t <=? 0)%float = true) as Hdead.
  { apply (Hgone tid t); [done| |done]. apply elem_of_registry. eauto. }
  by rewrite Hdead.
Qed.

(** ** One cell per tick *)

(** Its own iteration moves a unit by at most one cell on each axis, and on
    one axis only unless it is chasing a target of an attack. *)
Lemma resolve_step_bound g i w a :
  objs w !! i = Some a →
  ∃ b, objs (resolve g i w) !! i = Some b ∧
       Z.abs (Unit.gx b - Unit.gx a) <= 1 ∧ Z.abs (Unit.gy b - Unit.gy a) <= 1 ∧
       (Unit.action a ≠ attack →
        Z.abs (Unit.gx b - Unit.gx a) + Z.abs (Unit.gy b - Unit.gy a) <= 1).
Proof.
  intros Ha.
  assert (∀ w1 : world, objs w1 = objs w →
            ∃ b, objs w1 !! i = Some b ∧
              Z.abs (Unit.gx b - Unit.gx a) <= 1 ∧ Z.abs (Unit.gy b - Unit.gy a) <= 1 ∧
              (Unit.action a ≠ attack →
               Z.abs (Unit.gx b - Unit.gx a) + Z.abs (Unit.gy b - Unit.gy a) <= 1))
    as Hstay.
  { intros w1 ->. exists a. split; [done|]. lia. }
  unfold resolve. rewrite Ha.
  unfold resolve_move, resolve_harvest, resolve_return, resolve_attack, try_move,
    axis_step, chase_step.
  repeat case_match; simplify_eq/=;
    try (by apply Hstay);
    repeat match goal with
    | |- context [alter ?f i ?l !! i] => rewrite (list_lookup_alter_eq f l i)
    | |- context [alter ?f ?j ?l !! i] =>
        destruct (decide (j = i)) as [->|?];
        [rewrite (list_lookup_alter_eq f l i)
        |rewrite (list_lookup_alter_ne f l j i) by done]
    end; rewrite ?Ha; simpl;
    eexists; (split; [done|]); simpl; zbool; try lia.
  split_and!; [lia..|]. intros Hne.
  destruct (Unit.action a); simpl in *; intuition congruence.
Qed.

Lemma pass_step_bound s i a u :
  NoDup (Unit.id <$> units s) →
  units s !! i = Some a →
  u ∈ units (processActions s) → Unit.id u = Unit.id a →
  Z.abs (Unit.gx u - Unit.gx a) <= 1 ∧ Z.abs (Unit.gy u - Unit.gy a) <= 1 ∧
  (Unit.action a ≠ attack →
   Z.abs (Unit.gx u - Unit.gx a) + Z.abs (Unit.gy u - Unit.gy a) <= 1).
Proof.
  intros Hnd Ha Hu Hid.
  pose proof (pass_lookup_by_id s i a u Hnd Ha Hu Hid) as Hi.
  assert (i < length (units s))%nat as Hlt by (by eapply lookup_lt_Some).
  destruct (frame_fold (grid s) (seq 0 i) (enter s) i a) as (b & Hb & Hab);
    [rewrite elem_of_seq; lia | done |].
  fold (resolve_upto (grid s) i (enter s)) in Hb.
  rewrite (resolve_upto_split (grid s) i (length (units s)) (enter s) Hlt) in Hi.
  destruct (resolve_step_bound (grid s) i _ b Hb) as (c & Hc & Hx & Hy & Hxy).
  destruct (frame_fold (grid s) (seq (S i) (length (units s) - S i))
              (resolve (grid s) i (resolve_upto (grid s) i (enter s))) i c)
    as (d & Hd & Hcd); [rewrite elem_of_seq; lia | exact Hc |].
  rewrite Hd in Hi. injection Hi as <-.
  destruct Hab as [h1 ->]. destruct Hcd as [h2 ->]. simpl in *. done.
Qed.

(** The units a tick ends with that were there before it: each is a unit the
    action pass ended with, with at most another action and target. *)
Lemma tick_unit_origin rnd s u :
  u ∈ units (gameTick rnd s) → Unit.id u < nextUnitId s →
  ∃ v, v ∈ units (processActions (bump_cycle s)) ∧
       Unit.id u = Unit.id v ∧ pos u = pos v ∧ Unit.hp u = Unit.hp v ∧
       Unit.carrying u = Unit.carrying v ∧ Unit.progress u = Unit.progress v ∧
       (Unit.action v ≠ noop → u = v).
Proof.
  rewrite units_gameTick. intros Hu Hid.
  set (s1 := processAI rnd (processActions (bump_cycle s))).
  assert (nextUnitId s <= nextUnitId (processProduction s1) ∧
          (u ∈ units (processProduction s1) → u ∈ units s1)) as [_ Hin].
  { apply (processProduction_invariant
             (λ s', nextUnitId s <= nextUnitId s' ∧ (u ∈ units s' → u ∈ units s1))).
    - intros k s2 [Hn H2].
      destruct (static_produce_at k s2) as (_ & Hn' & _). split; [lia|].
      destruct (units_produce_at k s2) as [->|(ty & x & y & _ & ->)]; [done|].
      intros [Hv|Hv%list_elem_of_singleton]%elem_of_app; [by apply H2|].
      subst u. simpl in Hid. lia.
    - split; [|done]. unfold s1, processAI. case_match; simpl; lia. }
  apply Hin, list_elem_of_lookup in Hu as [k Hk]. unfold s1 in Hk.
  rewrite processAI_lookup in Hk. destruct (negb _).
  - exists u. split; [by eapply list_elem_of_lookup_2|done].
  - destruct (units (processActions (bump_cycle s)) !! k) as [v|] eqn:Hv; [|done].
    injection Hk as <-. exists v. split; [by eapply list_elem_of_lookup_2|].
    destruct (decide_ai_body (units (processActions (bump_cycle s))) (rnd k) v)
      as (? & ? & ? & ? & ?).
    destruct (decide_ai_load (units (processActions (bump_cycle s))) (rnd k) v)
      as [_ ?].
    split_and!; try done.
    intros Hact. unfold decide_ai.
    assert (action_eqb (Unit.action v) noop = false) as ->
      by (by destruct (Unit.action v)).
    by rewrite orb_true_r.
Qed.

(** X22.  One cell per tick, whatever the unit's speed.  In a state with
    distinct identifiers below [nextUnitId], a unit that is still there after
    a tick (or after the action pass alone) stands at most one column and one
    row from where it stood; unless it was in the [attack] action, it has
    moved along one axis only.  The bound is the same for every unit type:
    the [speed] of [CONFIG.UNIT_TYPES] plays no part in the simulation. *)
Theorem one_cell_per_tick s i a :
  ids_fresh s →
  units s !! i = Some a →
  (∀ u, u ∈ units (processActions s) → Unit.id u = Unit.id a →
     Z.abs (Unit.gx u - Unit.gx a) <= 1 ∧ Z.abs (Unit.gy u - Unit.gy a) <= 1 ∧
     (Unit.action a ≠ attack →
      Z.abs (Unit.gx u - Unit.gx a) + Z.abs (Unit.gy u - Unit.gy a) <= 1)) ∧
  (∀ rnd u, u ∈ units (gameTick rnd s) → Unit.id u = Unit.id a →
     Z.abs (Unit.gx u - Unit.gx a) <= 1 ∧ Z.abs (Unit.gy u - Unit.gy a) <= 1 ∧
     (Unit.action a ≠ attack →
      Z.abs (Unit.gx u - Unit.gx a) + Z.abs (Unit.gy u - Unit.gy a) <= 1)).
Proof.
  intros [Hnd Hlt] Ha. split.
  - intros u. by apply (pass_step_bound s i).
  - intros rnd u Hu Hid.
    pose proof (Forall_lookup_1 _ _ _ _ Hlt Ha) as Hida. simpl in Hida.
    destruct (tick_unit_origin rnd s u Hu) as (v & Hv & Hidv & Hpos & _); [lia|].
    injection Hpos as -> ->.
    apply (pass_step_bound (bump_cycle s) i a v); try done. congruence.
Qed.

(** ** Harvesting, tick by tick *)

(** A unit the pass ends with is what its own iteration made of it, hit
    points apart; and the iteration found it as the pass began, hit points
    apart. *)
Lemma pass_own_iteration s i a u :
  NoDup (Unit.id <$> units s) →
  units s !! i = Some a →
  u ∈ units (processActions s) → Unit.id u = Unit.id a →
  ∃ w b c,
    objs w !! i = Some b ∧ same_but_hp a b ∧
    objs (resolve (grid s) i w) !! i = Some c ∧ same_but_hp c u.
Proof.
  intros Hnd Ha Hu Hid.
  pose proof (pass_lookup_by_id s i a u Hnd Ha Hu Hid) as Hi.
  assert (i < length (units s))%nat as Hlt by (by eapply lookup_lt_Some).
  destruct (frame_fold (grid s) (seq 0 i) (enter s) i a) as (b & Hb & Hab);
    [rewrite elem_of_seq; lia | done |].
  fold (resolve_upto (grid s) i (enter s)) in Hb.
  rewrite (resolve_upto_split (grid s) i (length (units s)) (enter s) Hlt) in Hi.
  assert (is_Some (objs (resolve (grid s) i (resolve_upto (grid s) i (enter s))) !! i))
    as [c Hc].
  { apply lookup_lt_is_Some. rewrite <- resolve_upto_S. by rewrite resolve_upto_length. }
  destruct (frame_fold (grid s) (seq (S i) (length (units s) - S i))
              (resolve (grid s) i (resolve_upto (grid s) i (enter s))) i c)
    as (d & Hd & Hcd); [rewrite elem_of_seq; lia | exact Hc |].
  rewrite Hd in Hi. injection Hi as <-.
  by exists (resolve_upto (grid s) i (enter s)), b, c.
Qed.

(** X10.  Harvesting, tick by tick.  In a state with distinct identifiers
    below [nextUnitId], a unit in the [harvest] action that is still there
    after a tick has not moved; below 9 its progress has gone up by one and
    nothing else about its order has changed; at 9 its progress is back to 0
    and it carries one more resource (4 at most), and it is in [harvest]
    again when it now carries less than 2 and in [return] otherwise.  The
    terrain under the unit and its target play no part. *)
Theorem harvest_tick s i a :
  ids_fresh s →
  units s !! i = Some a →
  Unit.action a = harvest →
  ∀ rnd u, u ∈ units (gameTick rnd s) → Unit.id u = Unit.id a →
    pos u = pos a ∧
    (Unit.progress a + 1 < 10 →
       Unit.progress u = Unit.progress a + 1 ∧ Unit.carrying u = Unit.carrying a ∧
       Unit.action u = harvest ∧ Unit.target u = Unit.target a) ∧
    (10 <= Unit.progress a + 1 →
       Unit.progress u = 0 ∧ Unit.carrying u = Z.min (Unit.carrying a + 1) 4 ∧
       (Unit.carrying u < 2 → Unit.action u = harvest ∧ Unit.target u = Unit.target a) ∧
       (2 <= Unit.carrying u → Unit.action u = return_)).
Proof.
  intros [Hnd Hlt] Ha Hact rnd u Hu Hid.
  pose proof (Forall_lookup_1 _ _ _ _ Hlt Ha) as Hida. simpl in Hida.
  destruct (tick_unit_origin rnd s u Hu) as (v & Hv & Hidv & _ & _ & _ & _ & Huv);
    [lia|].
  destruct (pass_own_iteration (bump_cycle s) i a v Hnd Ha Hv) as
    (w & b & c & Hb & [h1 ->] & Hc & [h2 ->]); [congruence|].
  change (grid (bump_cycle s)) with (grid s) in Hc.
  destruct (harvest_step (grid s) w i _ Hb Hact) as [Hlow Hhigh].
  simpl in Hlow, Hhigh.
  destruct (decide (Unit.progress a + 1 < 10)) as [Hp|Hp].
  - rewrite (Hlow Hp), lookup_mutate, Hb in Hc. simpl in Hc. injection Hc as <-.
    rewrite Huv; [|by simpl; rewrite Hact]. simpl.
    split_and!; try done. intros; lia.
  - destruct Hhigh as (c' & Hc' & Hp0 & Hcar & Hpos & _ & Hless & Hmore); [lia|].
    rewrite Hc in Hc'. injection Hc' as <-.
    assert (Unit.action c ≠ noop) as Hnn.
    { destruct (decide (Unit.carrying c < 2)) as [Hl|Hl].
      - destruct (Hless Hl) as [Hr _]. by rewrite Hr.
      - destruct (Hmore ltac:(lia)) as [Hr _]. by rewrite Hr. }
    rewrite Huv by done. simpl.
    split; [done|]. split; [intros; lia|]. intros _.
    split; [done|]. split; [done|]. split; [exact Hless|].
    intros Hm. by destruct (Hmore Hm).
Qed.

(** ** The total reward *)

Lemma reward_total_le a b : Rewards.le a b → (reward_total a <= reward_total b)%Q.
Proof.
  intros (H1 & H2 & H3 & H4 & H5 & H6). unfold reward_total, REWARD_WEIGHTS. simpl.
  lra.
Qed.

Lemma gameTicks_carrying rnds n s :
  Forall carrying_ok (units s) → Forall carrying_ok (units (gameTicks rnds n s)).
Proof. intros Hok. by apply gameTicks_rewards. Qed.

(** X16.  The total that [updateRewards] displays never goes down.  In a
    state whose units carry non-negative amounts, the weighted total of the
    six accumulators after a tick is at least the total before it, and the
    total after [n] ticks is at most the total after any [m >= n] ticks.  A
    tick changes the total by what it adds to [resources], [workers] and
    [attack] plus four times what it adds to [combat]: the two accumulators
    with the weights 10 and 0.2, [winLoss] and [buildings], never move. *)
Theorem reward_total_never_drops s :
  Forall carrying_ok (units s) →
  (∀ rnd,
     (reward_total (rewards s) <= reward_total (rewards (gameTick rnd s)))%Q ∧
     (reward_total (rewards (gameTick rnd s)) - reward_total (rewards s) ==
      (Rewards.resources (rewards (gameTick rnd s)) - Rewards.resources (rewards s))
      + (Rewards.workers (rewards (gameTick rnd s)) - Rewards.workers (rewards s))
      + (Rewards.attack (rewards (gameTick rnd s)) - Rewards.attack (rewards s))
      + 4 * (Rewards.combat (rewards (gameTick rnd s)) - Rewards.combat (rewards s)))%Q) ∧
  (∀ rnds n m, (n ≤ m)%nat →
     (reward_total (rewards (gameTicks rnds n s))
      <= reward_total (rewards (gameTicks rnds m s)))%Q).
Proof.
  intros Hok. split.
  - intros rnd. split.
    + apply reward_total_le. by apply gameTick_rewards.
    + destruct (never_scored_gameTick rnd s) as [Hw Hb]. revert Hw Hb.
      generalize (rewards (gameTick rnd s)). intros r' Hw Hb.
      unfold reward_total, REWARD_WEIGHTS. simpl. rewrite Hw, Hb. ring.
  - intros rnds n m Hnm. induction Hnm as [|m Hnm IH]; [apply Qle_refl|].
    eapply Qle_trans; [exact IH|]. apply reward_total_le.
    cbn [gameTicks]. apply gameTick_rewards. by apply gameTicks_carrying.
Qed.

(** ** What production adds *)

Lemma produce_at_adds i s :
  ∃ new,
    units (produce_at i s) = units s ++ new ∧
    nextUnitId (produce_at i s) = nextUnitId s + Z.of_nat (length new) ∧
    Forall (λ u, Unit.owner u = 1 ∧ Unit.action u = noop ∧ Unit.target u = null ∧
                 Unit.hp u = float_of_Z (Unit.maxHp u) ∧ Unit.carrying u = 0 ∧
                 nextUnitId s <= Unit.id u < nextUnitId (produce_at i s)) new ∧
    gold (produce_at i s) = gold s.
Proof.
  unfold produce_at.
  assert (∃ new : list Unit.t,
            units s = units s ++ new ∧ nextUnitId s = nextUnitId s + Z.of_nat (length new) ∧
            Forall (λ u, Unit.owner u = 1 ∧ Unit.action u = noop ∧ Unit.target u = null ∧
                         Unit.hp u = float_of_Z (Unit.maxHp u) ∧ Unit.carrying u = 0 ∧
                         nextUnitId s <= Unit.id u < nextUnitId s) new ∧
            gold s = gold s) as Hnone.
  { exists []. rewrite app_nil_r. split_and!; try done. simpl. lia. }
  destruct (prodQueue s !! i) as [pq0|]; [|exact Hnone].
  case_match; [|exact Hnone].
  destruct (find_spot _ _) as [[x y]|]; [|exact Hnone].
  exists [fresh_unit (Order.unitType (tick_order pq0)) x y 1 (nextUnitId s)].
  unfold materialize. case_match; simpl; split_and!; try done;
    apply Forall_singleton; simpl; split_and!; try done; lia.
Qed.

(** X23.  What production adds.  The production pass never removes or
    changes a unit: the units afterwards are the units before followed by the
    new ones.  Every new unit belongs to player 1, is idle with full hit
    points and nothing carried, and has one of the identifiers from the old
    [nextUnitId] up to the new one, which has advanced by the number of new
    units.  No gold is given back for an order that is dropped: the pass does
    not write the gold. *)
Theorem production_only_adds s :
  ∃ new,
    units (processProduction s) = units s ++ new ∧
    nextUnitId (processProduction s) = nextUnitId s + Z.of_nat (length new) ∧
    Forall (λ u, Unit.owner u = 1 ∧ Unit.action u = noop ∧ Unit.target u = null ∧
                 Unit.hp u = float_of_Z (Unit.maxHp u) ∧ Unit.carrying u = 0 ∧
                 nextUnitId s <= Unit.id u < nextUnitId (processProduction s)) new ∧
    gold (processProduction s) = gold s.
Proof.
  apply (processProduction_invariant
           (λ s', ∃ new,
              units s' = units s ++ new ∧
              nextUnitId s' = nextUnitId s + Z.of_nat (length new) ∧
              Forall (λ u, Unit.owner u = 1 ∧ Unit.action u = noop ∧
                           Unit.target u = null ∧
                           Unit.hp u = float_of_Z (Unit.maxHp u) ∧ Unit.carrying u = 0 ∧
                           nextUnitId s <= Unit.id u < nextUnitId s') new ∧
              gold s' = gold s)).
  - intros i s1 (new & Hu & Hn & Hall & Hg).
    destruct (produce_at_adds i s1) as (new' & Hu' & Hn' & Hall' & Hg').
    exists (new ++ new'). rewrite Hu', Hu, Hn', Hn, Hg', Hg, length_app, app_assoc.
    split_and!; try done; [lia|].
    apply Forall_app. split.
    + eapply Forall_impl; [exact Hall|]. simpl. intros u (?&?&?&?&?&?).
      split_and!; try done; lia.
    + eapply Forall_impl; [exact Hall'|]. simpl. intros u (?&?&?&?&?&?).
      split_and!; try done; lia.
  - exists []. rewrite app_nil_r. split_and!; try done. simpl. lia.
Qed.

(** ** The further properties at work on the scenarios *)

Lemma init_ids_fresh : ids_fresh init.
Proof. apply ids_fresh_alt. split; apply (bool_decide_unpack _); by vm_compute. Qed.

Lemma init_on_board : Forall (on_board (grid init)) (units init).
Proof.
  vm_compute.
  repeat (constructor; [repeat split; (discriminate || (intros ?; discriminate))|]).
  constructor.
Qed.

Lemma init_load_ok : Forall load_ok (units init).
Proof. vm_compute. repeat (constructor; [repeat split; discriminate|]). constructor. Qed.

Lemma harvesting_ids_fresh : ids_fresh (rightClick [2] 6 2 init).
Proof. apply ids_fresh_alt. split; apply (bool_decide_unpack _); by vm_compute. Qed.

Lemma marching_ids : NoDup (Unit.id <$> units marching).
Proof. apply (bool_decide_unpack _). by vm_compute. Qed.

Lemma identifiers_stay_unique_witness :
  ids_fresh init ∧ ids_fresh (gameTick no_draw init).
Proof.
  split; [exact init_ids_fresh|].
  destruct (identifiers_stay_unique init init_ids_fresh) as (_ & _ & Htick & _).
  apply Htick.
Defined.

Lemma units_stay_on_board_witness :
  Forall (on_board (grid init)) (units init) ∧
  Forall (on_board (grid init)) (units (gameTick no_draw init)).
Proof.
  split; [exact init_on_board|].
  destruct (units_stay_on_board init init_on_board) as (_ & Htick & _).
  apply Htick.
Defined.

Lemma load_stays_in_range_witness :
  Forall load_ok (units init) ∧ Forall load_ok (units (gameTick no_draw init)).
Proof.
  split; [exact init_load_ok|].
  destruct (load_stays_in_range init init_load_ok) as (_ & Htick & _).
  apply Htick.
Defined.

Lemma deposits_account_witness :
  Forall carrying_ok (units init) ∧ gold init <= gold (gameTick no_draw init).
Proof.
  split; [exact init_carrying_ok|].
  destruct (deposits_account init init_carrying_ok) as (_ & _ & Hup).
  apply Hup.
Defined.

Lemma opponent_attacks_nearest_witness :
  ∃ t, Unit.owner t = 1 ∧
       units (processAI no_draw siege) !! 1%nat =
         Some (Unit.set_target (unit_ (Unit.id t))
                 (Unit.set_action attack (fresh_unit light 6 5 2 2))).
Proof.
  set (heavy1 := Unit.set_target (unit_ 2)
                   (Unit.set_action attack (fresh_unit heavy 5 5 1 1))).
  assert (∃ e, e ∈ units siege ∧ Unit.owner e = 1
               ∧ manhattan (fresh_unit light 6 5 2 2) e <= 8) as Hnear.
  { exists heavy1. split; [left|]. split; [reflexivity|]. by vm_compute. }
  destruct (opponent_attacks_nearest no_draw siege 1 (fresh_unit light 6 5 2 2)
              eq_refl eq_refl eq_refl Hnear) as (i & t & _ & Ho & _ & _ & Hk).
  exists t. split; [exact Ho|exact Hk].
Defined.

Lemma opponent_patrol_witness :
  ∃ x y,
    units (processAI (λ _, Some (0, 4)) init) !! 4%nat =
      Some (Unit.set_target (cell_ x y)
              (Unit.set_action move (fresh_unit worker 13 14 2 5))) ∧
    0 <= x < CONFIG.GRID_W ∧ 0 <= y < CONFIG.GRID_H.
Proof.
  assert (∀ e, e ∈ units init → Unit.owner e = 1 →
               8 < manhattan (fresh_unit worker 13 14 2 5) e) as Hfar.
  { assert (Forall (λ e, Unit.owner e = 1 →
                         8 < manhattan (fresh_unit worker 13 14 2 5) e) (units init))
      as Hall.
    { vm_compute.
      repeat (constructor; [intros ?; first [reflexivity | discriminate]|]).
      constructor. }
    intros e He. exact (proj1 (Forall_forall _ _) Hall e He). }
  pose proof (opponent_patrol (λ _, Some (0, 4)) init 4 (fresh_unit worker 13 14 2 5)
                eq_refl eq_refl eq_refl Hfar) as (x & y & Hk & Hx & Hy & _).
  exists x, y. split; [exact Hk|]. split; [exact Hx|exact Hy].
Defined.

Lemma unordered_unit_is_left_alone_witness :
  ids_fresh init ∧
  ∀ rnd u, u ∈ units (gameTick rnd init) → Unit.id u = 2 →
           same_but_hp (fresh_unit worker 2 1 1 2) u.
Proof.
  split; [exact init_ids_fresh|].
  destruct (unordered_unit_is_left_alone init 1 (fresh_unit worker 2 1 1 2)
              init_ids_fresh eq_refl eq_refl) as [_ Htick].
  apply Htick. reflexivity.
Defined.

Lemma harvest_tick_witness :
  ids_fresh (rightClick [2] 6 2 init) ∧
  ∀ rnd u, u ∈ units (gameTick rnd (rightClick [2] 6 2 init)) → Unit.id u = 2 →
           pos u = (2, 1) ∧ Unit.progress u = 1 ∧ Unit.action u = harvest.
Proof.
  split; [exact harvesting_ids_fresh|]. intros rnd u Hu Hid.
  destruct (harvest_tick (rightClick [2] 6 2 init) 1
              (Unit.mk 2 worker 1 2 1 1 1 harvest (cell_ 6 2) 0 0)
              harvesting_ids_fresh eq_refl eq_refl rnd u Hu Hid)
    as (Hpos & Hlow & _).
  destruct Hlow as (Hp & _ & Ha & _); [by vm_compute|].
  split; [exact Hpos|]. split; [exact Hp|exact Ha].
Defined.

Lemma stop_command_witness :
  NoDup (Unit.id <$> units marching) ∧
  units (stopCommand [2] marching) !! 1%nat = Some (fresh_unit worker 2 1 1 2).
Proof.
  split; [exact marching_ids|].
  destruct (stop_command [2] marching marching_ids) as (Hlook & _).
  exact (Hlook 1%nat (Unit.mk 2 worker 1 2 1 1 1 move (cell_ 6 1) 0 0) eq_refl).
Defined.

Lemma harvest_command_witness :
  NoDup (Unit.id <$> units init) ∧
  set_units (units init) (harvestCommand [2] init) = init.
Proof.
  destruct init_ids_fresh as [Hnd _]. split; [exact Hnd|].
  destruct (harvest_command [2] init Hnd) as [Hframe _]. exact Hframe.
Defined.

Lemma right_click_witness :
  NoDup (Unit.id <$> units init) ∧
  set_units (units init) (rightClick [2] 6 2 init) = init.
Proof.
  destruct init_ids_fresh as [Hnd _]. split; [exact Hnd|].
  destruct (right_click [2] 6 2 init Hnd) as (_ & Hframe & _). exact Hframe.
Defined.

(** In the opening position the enemy's base, fourth in [state.units], stands
    on (14,14): (15,14) is free and the new unit appears there. *)
Lemma enemy_spawn_witness :
  units (enemySpawn light init) = units init ++ [fresh_unit light 15 14 2 7] ∧
  occupancy (units (enemySpawn light init)) ∧ ids_fresh (enemySpawn light init).
Proof.
  destruct (enemy_spawn light init init_occupancy init_hp_ok init_ids_fresh
              init_on_board) as (Hfirst & _ & _ & Hocc & _ & Hids & _).
  split; [|split; [exact Hocc|exact Hids]].
  destruct (Hfirst (take 3 (units init)) (fresh_unit base 14 14 2 4)
              (drop 4 (units init))) as (Hspot & _);
    [reflexivity | repeat constructor; intros [? ?]; discriminate
    | reflexivity | reflexivity |].
  apply (Hspot [] 15 14 [(13, 14); (14, 15); (14, 13)]);
    [reflexivity | constructor | reflexivity].
Defined.

Lemma fog_recomputed_exactly_witness :
  fog_at (fogGrid init) 15 15 = Some 0 ∧
  fog_at (fogGrid (gameTick no_draw init)) 15 15 =
    Some (fog_after true (units (gameTick no_draw init)) 15 15 0).
Proof.
  assert (fog_at (fogGrid init) 15 15 = Some 0) as Hc by (vm_compute; reflexivity).
  split; [exact Hc|].
  destruct (fog_recomputed_exactly init 15 15 0 Hc) as (_ & Htick & _).
  apply Htick.
Defined.

Lemma fog_recomputed_twice_witness :
  fog_at (fogGrid init) 15 15 = Some 0 ∧
  fog_at (fogGrid (updateFog (updateFog init))) 15 15 =
    fog_at (fogGrid (updateFog init)) 15 15.
Proof.
  assert (fog_at (fogGrid init) 15 15 = Some 0) as Hc by (vm_compute; reflexivity).
  split; [exact Hc|].
  destruct (fog_recomputed_twice init 15 15 0 Hc) as (Htwice & _). exact Htwice.
Defined.

Lemma attack_without_victim_witness :
  let u := Unit.set_target (unit_ 9) (Unit.set_action attack (fresh_unit heavy 5 5 1 1)) in
  resolve initGrid 0 (enter (scene [u] [])) = mutate 0 Unit.stop (enter (scene [u] [])).
Proof.
  intros u.
  apply (attack_without_victim initGrid (enter (scene [u] [])) 0 u eq_refl eq_refl eq_refl).
  intros tid t Htid Ht Hid. exfalso.
  injection Htid as <-.
  change (registry (enter (scene [u] []))) with [u] in Ht.
  apply list_elem_of_singleton in Ht. subst t. discriminate Hid.
Defined.

Lemma one_cell_per_tick_witness :
  ids_fresh marching ∧
  ∀ rnd u, u ∈ units (gameTick rnd marching) → Unit.id u = 2 →
           Z.abs (Unit.gx u - 2) <= 1 ∧ Z.abs (Unit.gy u - 1) <= 1.
Proof.
  assert (ids_fresh marching) as Hids.
  { apply ids_fresh_alt. split; apply (bool_decide_unpack _); by vm_compute. }
  split; [exact Hids|]. intros rnd u Hu Hid.
  destruct (one_cell_per_tick marching 1
              (Unit.mk 2 worker 1 2 1 1 1 move (cell_ 6 1) 0 0) Hids eq_refl)
    as [_ Htick].
  destruct (Htick rnd u Hu Hid) as (Hx & Hy & _). split; [exact Hx|exact Hy].
Defined.

Lemma reward_total_never_drops_witness :
  Forall carrying_ok (units init) ∧
  (reward_total (rewards init) <= reward_total (rewards (gameTick no_draw init)))%Q.
Proof.
  split; [exact init_carrying_ok|].
  destruct (reward_total_never_drops init init_carrying_ok) as [Htick _].
  destruct (Htick no_draw) as [Hle _]. exact Hle.
Defined.

Lemma produceUnit_lifecycle_witness :
  gold (produceUnit worker init) = gold init - 50 ∧
  prodQueue (gameTicks (λ _, no_draw) 50 (produceUnit worker init)) =
    prodQueue (gameTicks (λ _, no_draw) 50 init) ++ [].
Proof.
  destruct (produceUnit_lifecycle worker init) as [_ Hok].
  destruct (Hok (fresh_unit base 1 1 1 1)) as (Hg & _ & _ & Hq);
    [by vm_compute | reflexivity |].
  split; [exact Hg|]. exact (Hq (λ _, no_draw) (λ _, no_draw) 49%nat).
Defined.

(** * The fog and the orders, tick by tick *)

(** ** The fog on the states the engine reaches *)

Lemma initFog_cell x y : in_fog_grid x y = true → fog_at initFog x y = Some 0.
Proof.
  unfold in_fog_grid, CONFIG.GRID_W, CONFIG.GRID_H. intros Hin. zbool.
  unfold fog_at, initFog.
  rewrite (lookup_replicate_2 16 (replicate 16 0) y) by lia.
  exact (lookup_replicate_2 16 0 x ltac:(lia)).
Qed.

Lemma gameTick_fog rnd s :
  fogEnabled (gameTick rnd s) = fogEnabled s ∧
  ∀ x y c, fog_at (fogGrid s) x y = Some c →
    fog_at (fogGrid (gameTick rnd s)) x y =
      Some (fog_after (fogEnabled s) (units (gameTick rnd s)) x y c).
Proof.
  destruct (fog_before_updateFog rnd s) as [Hfog Hen]. split.
  - unfold gameTick, updateUI. simpl.
    destruct (static_updateFog
                (processProduction (processAI rnd (processActions (bump_cycle s)))))
      as (_ & _ & _ & -> & _).
    exact Hen.
  - intros x y c Hc. rewrite units_gameTick. unfold gameTick, updateUI. simpl.
    rewrite <- Hfog in Hc. rewrite (updateFog_exact _ x y c Hc). by rewrite Hen.
Qed.

(** In a reached state the fog grid has its 16 x 16 cells, and they are all
    Visible whenever the fog is disabled: [fogEnabled] is only ever written
    by [toggleFog], which recomputes the fog at once. *)
Lemma fog_reachable_inv s :
  fog_reachable s →
  (∀ x y, in_fog_grid x y = true → is_Some (fog_at (fogGrid s) x y)) ∧
  (fogEnabled s = false →
   ∀ x y, in_fog_grid x y = true → fog_at (fogGrid s) x y = Some 2).
Proof.
  induction 1 as [|rnd s _ [Hshape Hoff]|s _ [Hshape Hoff]|s s' _ IH Hf He].
  - split; [|done]. intros x y Hin. unfold init.
    rewrite (updateFog_exact _ x y 0); [done|]. by apply initFog_cell.
  - destruct (gameTick_fog rnd s) as [Hen Hcell]. split.
    + intros x y Hin. destruct (Hshape x y Hin) as [c Hc].
      by rewrite (Hcell x y c Hc).
    + rewrite Hen. intros Hdis x y Hin. destruct (Hshape x y Hin) as [c Hc].
      rewrite (Hcell x y c Hc). unfold fog_after. by rewrite Hin, Hdis.
  - unfold toggleFog. set (s1 := mkState _ _ _ _ _ _ _ _ _ _ _).
    destruct (static_updateFog s1) as (_ & _ & _ & Hen & _). split.
    + intros x y Hin. destruct (Hshape x y Hin) as [c Hc].
      by rewrite (updateFog_exact s1 x y c Hc).
    + rewrite Hen. intros Hdis x y Hin. destruct (Hshape x y Hin) as [c Hc].
      rewrite (updateFog_exact s1 x y c Hc). unfold fog_after. by rewrite Hin, Hdis.
  - by rewrite Hf, He.
Qed.

(** C8.  In every state the engine reaches -- from the opening state by
    ticks, by [toggleFog] and by whatever else leaves the fog alone -- and
    for every cell of the fog grid, holding [c] before a tick and [c'] after
    it: if the cell goes from Hidden (0) to Visible (2), some unit of player 1
    among the units the tick ends with, on which the fog is recomputed, has
    it within the vision radius; and a cell that is not Hidden is not Hidden
    after the tick, nor after any number of ticks.  With the fog disabled the
    tick forces every cell of the grid to Visible, and these are cells that
    [toggleFog] had made Visible already.  The facts of [fog_recomputation]
    on [updateFog], one tick and [toggleFog] in an arbitrary state follow. *)
Theorem fog_transitions s x y c :
  fog_at (fogGrid s) x y = Some c →
  (fog_reachable s →
   ∀ rnd, ∃ c', fog_at (fogGrid (gameTick rnd s)) x y = Some c' ∧
     (c = 0 → c' = 2 →
      ∃ u, u ∈ units (gameTick rnd s) ∧ Unit.owner u = 1 ∧ in_vision u x y) ∧
     (c ≠ 0 → c' ≠ 0) ∧
     (fogEnabled s = false → in_fog_grid x y = true → c = 2 ∧ c' = 2)) ∧
  (∀ rnds n, ∃ c', fog_at (fogGrid (gameTicks rnds n s)) x y = Some c' ∧
     (c ≠ 0 → c' ≠ 0)) ∧
  (∃ c', fog_at (fogGrid (updateFog s)) x y = Some c' ∧
     (c ≠ 0 → c' ≠ 0) ∧
     (fogEnabled s = true → c = 0 → c' = 2 →
      ∃ u, u ∈ units s ∧ Unit.owner u = 1 ∧ in_vision u x y) ∧
     (fogEnabled s = false → (x < 16)%nat → (y < 16)%nat → c' = 2)) ∧
  (∀ rnd, ∃ c', fog_at (fogGrid (gameTick rnd s)) x y = Some c' ∧
     (c ≠ 0 → c' ≠ 0) ∧
     (fogEnabled s = true → c = 0 → c' = 2 →
      ∃ u, u ∈ units (gameTick rnd s) ∧ Unit.owner u = 1 ∧ in_vision u x y) ∧
     (fogEnabled s = false → (x < 16)%nat → (y < 16)%nat → c' = 2)) ∧
  (∃ c', fog_at (fogGrid (toggleFog s)) x y = Some c' ∧
     (c ≠ 0 → c' ≠ 0) ∧
     (fogEnabled s = false → c = 0 → c' = 2 →
      ∃ u, u ∈ units s ∧ Unit.owner u = 1 ∧ in_vision u x y) ∧
     (fogEnabled s = true → (x < 16)%nat → (y < 16)%nat → c' = 2)).
Proof.
  intros Hc.
  destruct (fog_recomputation s x y c Hc) as (Hupd & Htick & Htoggle).
  split; [|split; [|by split_and!]].
  - intros Hreach rnd.
    destruct (fog_reachable_inv s Hreach) as [_ Hoff].
    destruct (gameTick_fog rnd s) as [_ Hcell].
    exists (fog_after (fogEnabled s) (units (gameTick rnd s)) x y c).
    split; [by apply Hcell|]. unfold fog_after. split_and!.
    + intros -> Hvis. destruct (in_fog_grid x y) eqn:Hin; [|done].
      destruct (fogEnabled s) eqn:Hen.
      * destruct (seen (units (gameTick rnd s)) x y) eqn:Hseen; [|done].
        by apply seen_spec.
      * specialize (Hoff eq_refl x y Hin). congruence.
    + intros Hne. destruct (in_fog_grid x y); [|done].
      destruct (fogEnabled s); [|done].
      destruct (seen _ x y); [done|].
      by destruct (c =? 2).
    + intros Hdis Hin. rewrite Hin, Hdis. split; [|done].
      specialize (Hoff Hdis x y Hin). congruence.
  - intros rnds n. clear Hupd Htick Htoggle. induction n as [|n IH].
    + exists c. done.
    + destruct IH as (c1 & Hc1 & Hkeep1). cbn [gameTicks].
      destruct (fog_recomputation _ x y c1 Hc1) as (_ & Hstep & _).
      destruct (Hstep (rnds n)) as (c2 & Hc2 & Hkeep2 & _).
      exists c2. split; [done|]. auto.
Qed.

(** The fog switched off in the opening position: the cell (15,15), Visible
    since the toggle, is Visible after the next tick. *)
Lemma fog_transitions_witness :
  fog_at (fogGrid (toggleFog init)) 15 15 = Some 2 ∧
  fog_reachable (toggleFog init) ∧
  fog_at (fogGrid (gameTick no_draw (toggleFog init))) 15 15 = Some 2.
Proof.
  assert (fog_at (fogGrid (toggleFog init)) 15 15 = Some 2) as Hc
    by (vm_compute; reflexivity).
  assert (fog_reachable (toggleFog init)) as Hreach
    by (apply reach_toggle, reach_init).
  split; [exact Hc|]. split; [exact Hreach|].
  destruct (fog_transitions (toggleFog init) 15 15 2 Hc) as (Htick & _).
  destruct (Htick Hreach no_draw) as (c' & Hc' & _ & _ & Hoff).
  destruct Hoff as [_ ->]; [reflexivity | reflexivity | exact Hc'].
Defined.

(** ** From the iteration to the pass and the tick *)

Lemma resolve_fold_ops g l w : rtc (op g) w (fold_left (λ w i, resolve g i w) l w).
Proof.
  revert w. induction l as [|k l IH]; intros w; simpl; [done|].
  etrans; [apply resolve_ops|apply IH].
Qed.

(** A unit that is missing from the registry stays missing to the end of the
    pass. *)
Lemma gone_for_good g l w tid :
  (∀ x, x ∈ registry w → Unit.id x ≠ tid) →
  ∀ x, x ∈ registry (fold_left (λ w i, resolve g i w) l w) → Unit.id x ≠ tid.
Proof.
  intros Hgone x Hx Hid.
  assert (Unit.id <$> registry (fold_left (λ w i, resolve g i w) l w)
          `sublist_of` Unit.id <$> registry w) as Hsub.
  { apply (ops_invariant g
             (λ w', Unit.id <$> registry w' `sublist_of` Unit.id <$> registry w))
      with (w := w); [|apply resolve_fold_ops|done].
    intros w1 w2 Hop Hw1. etrans; [by eapply op_ids|done]. }
  assert (tid ∈ Unit.id <$> registry w) as Hin.
  { eapply elem_of_sublist; [|exact Hsub]. rewrite <- Hid. by apply list_elem_of_fmap_2. }
  apply list_elem_of_fmap in Hin as (y & Hy & Hyin). by apply (Hgone y).
Qed.

(** Owner, type and identifier of the objects of the iterated array are
    never written. *)
Lemma op_heap_static g w w' :
  op g w w' →
  (λ u, (Unit.id u, Unit.owner u, Unit.type u)) <$> objs w' =
  (λ u, (Unit.id u, Unit.owner u, Unit.type u)) <$> objs w.
Proof.
  assert (∀ f i (l : list Unit.t),
            (∀ u, (Unit.id (f u), Unit.owner (f u), Unit.type (f u))
                  = (Unit.id u, Unit.owner u, Unit.type u)) →
            (λ u, (Unit.id u, Unit.owner u, Unit.type u)) <$> alter f i l =
            (λ u, (Unit.id u, Unit.owner u, Unit.type u)) <$> l) as Halter.
  { intros f i l Hf.
    rewrite (list_fmap_alter _ f id) by (apply Forall_forall; intros; apply Hf).
    by apply list_alter_id. }
  intros [i f w0 Hf|i x y w0 Hwalk|j t ty w0 Ht Hh|j t h w0 Ht|e w0|r w0|z w0];
    simpl; try done; apply Halter; try done.
  intros u. destruct (Hf u) as (-> & -> & -> & _). done.
Qed.

(** The unit with the identifier of [a] that the pass ends with is what the
    iteration at the index of [a] made of it, hit points apart; that
    iteration found [a] as it was when the pass began, hit points apart, in
    the world the earlier iterations had left. *)
Lemma pass_turn s i a u :
  NoDup (Unit.id <$> units s) →
  units s !! i = Some a →
  u ∈ units (processActions s) → Unit.id u = Unit.id a →
  let w := resolve_upto (grid s) i (enter s) in
  ∃ b c,
    objs w !! i = Some b ∧ same_but_hp a b ∧
    objs (resolve (grid s) i w) !! i = Some c ∧ same_but_hp c u.
Proof.
  intros Hnd Ha Hu Hid w.
  pose proof (pass_lookup_by_id s i a u Hnd Ha Hu Hid) as Hi.
  destruct (unit_through_pass s i a Ha) as (b & c & d & Hb & Hab & Hc & Hd & Hcd).
  rewrite Hd in Hi. injection Hi as <-. by exists b, c.
Qed.

Lemma decide_ai_cases us d u :
  decide_ai us d u = u ∨
  (Unit.owner u = 2 ∧ Unit.action u = noop ∧
   (Unit.action (decide_ai us d u) = attack ∨ Unit.action (decide_ai us d u) = move)).
Proof.
  unfold decide_ai.
  destruct (negb (Unit.owner u =? 2) || negb (action_eqb (Unit.action u) noop)) eqn:Hc;
    [by left|].
  apply orb_false_elim in Hc as [Ho Ha].
  apply negb_false_iff, Z.eqb_eq in Ho. apply negb_false_iff in Ha.
  assert (Unit.action u = noop) as Hnoop by (by destruct (Unit.action u)).
  destruct (Def.isBuilding _); [by left|].
  destruct (nearest_enemy u us) as [[d' t]|]; [destruct (d' <=? 8)|];
    try destruct d as [[a b]|]; try (by left); right; split_and!; try done; simpl; auto.
Qed.

(** A unit a tick ends with that was there before it is a unit the action
    pass ended with; the opponent's script may have given it an order if it
    was an idle unit of player 2 on a cycle that is a multiple of 5, and
    nothing else has touched it. *)
Lemma tick_unit_source rnd s u :
  u ∈ units (gameTick rnd s) → Unit.id u < nextUnitId s →
  ∃ v, v ∈ units (processActions (bump_cycle s)) ∧
       Unit.id u = Unit.id v ∧ pos u = pos v ∧ Unit.carrying u = Unit.carrying v ∧
       (u = v ∨
        (Z.rem (cycle s + 1) 5 = 0 ∧ Unit.owner v = 2 ∧ Unit.action v = noop ∧
         (Unit.action u = attack ∨ Unit.action u = move))).
Proof.
  rewrite units_gameTick. intros Hu Hid.
  set (s1 := processAI rnd (processActions (bump_cycle s))).
  assert (nextUnitId s <= nextUnitId (processProduction s1) ∧
          (u ∈ units (processProduction s1) → u ∈ units s1)) as [_ Hin].
  { apply (processProduction_invariant
             (λ s', nextUnitId s <= nextUnitId s' ∧ (u ∈ units s' → u ∈ units s1))).
    - intros k s2 [Hn H2].
      destruct (static_produce_at k s2) as (_ & Hn' & _). split; [lia|].
      destruct (units_produce_at k s2) as [->|(ty & x & y & _ & ->)]; [done|].
      intros [Hv|Hv%list_elem_of_singleton]%elem_of_app; [by apply H2|].
      subst u. simpl in Hid. lia.
    - split; [|done]. unfold s1, processAI. case_match; simpl; lia. }
  apply Hin, list_elem_of_lookup in Hu as [k Hk]. unfold s1 in Hk.
  rewrite processAI_lookup in Hk.
  change (cycle (processActions (bump_cycle s))) with (cycle s + 1) in Hk.
  destruct (Z.rem (cycle s + 1) 5 =? 0) eqn:Hcad; cbn [negb] in Hk.
  - apply Z.eqb_eq in Hcad.
    destruct (units (processActions (bump_cycle s)) !! k) as [v|] eqn:Hv; [|done].
    injection Hk as <-. exists v. split; [by eapply list_elem_of_lookup_2|].
    destruct (decide_ai_body (units (processActions (bump_cycle s))) (rnd k) v)
      as (? & ? & ? & ? & ?).
    split_and!; try done.
    destruct (decide_ai_cases (units (processActions (bump_cycle s))) (rnd k) v)
      as [Heq|(Ho & Hn & Hact)]; [left; exact Heq|]. right.
    split; [done|]. split; [done|]. split; [done|]. exact Hact.
  - exists u. split; [by eapply list_elem_of_lookup_2|]. split_and!; try done. by left.
Qed.

(** The unit with the identifier of [a] that a pass ends with has the owner
    and the type of [a]. *)
Lemma pass_keeps_owner s i a u :
  NoDup (Unit.id <$> units s) →
  units s !! i = Some a →
  u ∈ units (processActions s) → Unit.id u = Unit.id a →
  Unit.owner u = Unit.owner a ∧ Unit.type u = Unit.type a.
Proof.
  intros Hnd Ha Hu Hid.
  pose proof (pass_lookup_by_id s i a u Hnd Ha Hu Hid) as Hi.
  assert ((λ u, (Unit.id u, Unit.owner u, Unit.type u)) <$>
            objs (resolve_upto (grid s) (length (units s)) (enter s)) =
          (λ u, (Unit.id u, Unit.owner u, Unit.type u)) <$> units s) as Hstatic.
  { apply (ops_invariant (grid s)
             (λ w, (λ u, (Unit.id u, Unit.owner u, Unit.type u)) <$> objs w =
                   (λ u, (Unit.id u, Unit.owner u, Unit.type u)) <$> units s))
      with (w := enter s); [|apply resolve_upto_ops|done].
    intros w w' Hop <-. by eapply op_heap_static. }
  apply (f_equal (λ l, l !! i)) in Hstatic.
  rewrite !list_lookup_fmap, Hi, Ha in Hstatic. simpl in Hstatic.
  by injection Hstatic as _ -> ->.
Qed.

(** ** Who is still there after the pass *)

Lemma lookup_alter_dec {A} (f : A → A) (l : list A) x r :
  alter f x l !! r = if decide (x = r) then f <$> l !! r else l !! r.
Proof.
  destruct (decide (x = r)) as [->|?];
    [apply list_lookup_alter_eq | by apply list_lookup_alter_ne].
Qed.

(** No iteration gives an attack order: an object that is attacking after
    it was attacking the same target before it. *)
Lemma resolve_orders g k w r o' :
  objs (resolve g k w) !! r = Some o' →
  ∃ o, objs w !! r = Some o ∧ Unit.id o' = Unit.id o ∧
       (Unit.action o' = attack →
        Unit.action o = attack ∧ Unit.target o' = Unit.target o).
Proof.
  intros Ho'.
  assert (∀ w1 : world, objs w1 = objs w → objs w1 !! r = Some o' →
            ∃ o, objs w !! r = Some o ∧ Unit.id o' = Unit.id o ∧
                 (Unit.action o' = attack →
                  Unit.action o = attack ∧ Unit.target o' = Unit.target o)) as Hsame.
  { intros w1 Heq H. rewrite Heq in H. exists o'. split_and!; auto. }
  revert Ho'. unfold resolve. destruct (objs w !! k) as [u|] eqn:Hu; [|by apply Hsame].
  unfold resolve_move, resolve_harvest, resolve_return, resolve_attack, try_move.
  repeat case_match; simplify_eq/=; try (by apply Hsame);
    intros Ho'; rewrite ?lookup_alter_dec in Ho';
    repeat case_decide;
    destruct (objs w !! r) as [o|] eqn:Hr; simplify_eq/=;
    eexists; (split; [done|]); split; done.
Qed.

(** The registry after an iteration: as before, or filtered on the
    identifier that an attacker had as its target. *)
Lemma resolve_live g k w :
  live (resolve g k w) = live w ∨
  ∃ u j t h,
    objs w !! k = Some u ∧ Unit.action u = attack ∧
    Unit.target u = unit_ (Unit.id t) ∧ objs w !! j = Some t ∧
    live (resolve g k w) =
      List.filter (other_id (alter (Unit.set_hp h) j (objs w)) (Unit.id t)) (live w).
Proof.
  unfold resolve. destruct (objs w !! k) as [u|] eqn:Hu; [|by left].
  unfold resolve_move, resolve_harvest, resolve_return, resolve_attack, try_move.
  repeat case_match; simplify_eq/=; try (by left).
  right.
  match goal with
  | H : find_ref _ _ _ = Some (?j, ?t) |- _ =>
      apply find_ref_Some in H as (Hj & Hjt & Hid); apply Z.eqb_eq in Hid;
      exists u, j, t
  end.
  eexists. split; [done|]. split; [by destruct (Unit.action u)|].
  split; [congruence|]. split; [done|]. reflexivity.
Qed.

(** A unit that no unit of [state.units] is attacking is in [state.units]
    after the pass. *)
Lemma survives_pass s i a :
  units s !! i = Some a →
  (∀ v, v ∈ units s → Unit.action v = attack → Unit.target v ≠ unit_ (Unit.id a)) →
  ∃ u, u ∈ units (processActions s) ∧ Unit.id u = Unit.id a.
Proof.
  intros Ha Hsafe.
  assert (i < length (units s))%nat as Hi by (by eapply lookup_lt_Some).
  enough (∀ n, let w := resolve_upto (grid s) n (enter s) in
               i ∈ live w ∧
               (∃ o, objs w !! i = Some o ∧ Unit.id o = Unit.id a) ∧
               (∀ r o, objs w !! r = Some o → Unit.action o = attack →
                       Unit.target o ≠ unit_ (Unit.id a))) as Hinv.
  { destruct (Hinv (length (units s))) as (Hlive & (o & Ho & Hid) & _).
    exists o. split; [|done]. unfold processActions. simpl.
    apply elem_of_registry. eauto. }
  induction n as [|n (Hlive & (o & Ho & Hid) & Hno)].
  - change (resolve_upto (grid s) 0 (enter s)) with (enter s). simpl. split_and!.
    + apply elem_of_seq. lia.
    + eauto.
    + intros r o Ho. apply Hsafe. by eapply list_elem_of_lookup_2.
  - simpl. rewrite resolve_upto_S.
    set (w := resolve_upto (grid s) n (enter s)) in *.
    assert (∃ o', objs (resolve (grid s) n w) !! i = Some o' ∧ Unit.id o' = Unit.id a)
      as (o' & Ho' & Hid').
    { destruct (lookup_lt_is_Some_2 (objs (resolve (grid s) n w)) i) as [o' Ho'].
      - unfold w. rewrite <- resolve_upto_S, resolve_upto_length. done.
      - exists o'. split; [done|].
        destruct (resolve_orders _ _ _ _ _ Ho') as (o0 & Ho0 & Hid0 & _). congruence. }
    split_and!.
    + destruct (resolve_live (grid s) n w) as [->|(u & j & t & h & Hu & Hact & Htgt & Hjt & ->)];
        [done|].
      apply list_elem_of_In, filter_In. split; [by apply list_elem_of_In|].
      unfold other_id.
      assert (∃ x, alter (Unit.set_hp h) j (objs w) !! i = Some x ∧ Unit.id x = Unit.id a)
        as (x & -> & Hx).
      { destruct (decide (j = i)) as [->|Hne].
        - rewrite list_lookup_alter_eq, Ho. simpl. eauto.
        - rewrite list_lookup_alter_ne by done. eauto. }
      apply negb_true_iff, Z.eqb_neq. rewrite Hx. intros Heq.
      apply (Hno n u Hu Hact). by rewrite Htgt, Heq.
    + eauto.
    + intros r o1 Ho1 Hact1.
      destruct (resolve_orders _ _ _ _ _ Ho1) as (o0 & Ho0 & _ & Hkeep).
      destruct (Hkeep Hact1) as [Hact0 ->]. by apply (Hno r o0).
Qed.

Lemma survives_tick rnd s i a :
  units s !! i = Some a →
  (∀ v, v ∈ units s → Unit.action v = attack → Unit.target v ≠ unit_ (Unit.id a)) →
  ∃ u, u ∈ units (gameTick rnd s) ∧ Unit.id u = Unit.id a.
Proof.
  intros Ha Hsafe. rewrite units_gameTick.
  apply (processProduction_invariant (λ s', ∃ u, u ∈ units s' ∧ Unit.id u = Unit.id a)).
  - intros k s1 (u & Hu & Hid). exists u. split; [|done].
    destruct (units_produce_at k s1) as [->|(ty & x & y & _ & ->)]; [done|].
    apply elem_of_app. by left.
  - destruct (survives_pass (bump_cycle s) i a Ha Hsafe) as (v & Hv & Hid).
    apply list_elem_of_lookup in Hv as [k Hk].
    destruct (lookup_lt_is_Some_2 (units (processAI rnd (processActions (bump_cycle s)))) k)
      as [u Hu].
    { pose proof (processAI_fmap Unit.id rnd (processActions (bump_cycle s))
                    (λ us d u, proj1 (decide_ai_body us d u))) as Hids.
      apply (f_equal length) in Hids. rewrite !length_fmap in Hids. rewrite Hids.
      by eapply lookup_lt_Some. }
    exists u. split; [by eapply list_elem_of_lookup_2|].
    pose proof (processAI_fmap Unit.id rnd (processActions (bump_cycle s))
                  (λ us d u, proj1 (decide_ai_body us d u))) as Hids.
    apply (f_equal (λ l, l !! k)) in Hids.
    rewrite !list_lookup_fmap, Hu, Hk in Hids. simpl in Hids. congruence.
Qed.

(** ** Moving *)

Lemma move_pass s i a tx ty u :
  NoDup (Unit.id <$> units s) →
  units s !! i = Some a →
  Unit.action a = move →
  Unit.target a = cell_ tx ty →
  u ∈ units (processActions s) → Unit.id u = Unit.id a →
  let w := resolve_upto (grid s) i (enter s) in
  let dest :=
    if Z.abs (tx - Unit.gx a) >? Z.abs (ty - Unit.gy a)
    then (Unit.gx a + Z.sgn (tx - Unit.gx a), Unit.gy a)
    else (Unit.gx a, Unit.gy a + Z.sgn (ty - Unit.gy a)) in
  (pos a ≠ (tx, ty) → isWalkable (grid s) (registry w) dest.1 dest.2 = false →
     resolve (grid s) i w = w ∧
     pos u = pos a ∧ Unit.action u = move ∧ Unit.target u = cell_ tx ty) ∧
  (pos a ≠ (tx, ty) → isWalkable (grid s) (registry w) dest.1 dest.2 = true →
     pos u = dest) ∧
  (pos a = (tx, ty) → pos u = pos a) ∧
  (Unit.action u = noop ↔ pos u = (tx, ty)) ∧
  (Unit.action u ≠ noop → Unit.action u = move ∧ Unit.target u = cell_ tx ty).
Proof.
  intros Hnd Ha Hact Htgt Hu Hid w dest.
  destruct (pass_turn s i a u Hnd Ha Hu Hid) as (b & c & Hb & [h1 ->] & Hc & [h2 ->]).
  fold w in Hb, Hc.
  destruct (move_step (grid s) w i _ tx ty Hb Hact Htgt)
    as (u' & Hu' & Hax & Hblk & Hfree & Hon & Hiff & Hkeep).
  rewrite Hc in Hu'. injection Hu' as <-.
  rewrite Hax in Hblk, Hfree. clear Hax.
  change (pos (Unit.set_hp h1 a)) with (pos a) in *.
  change (Unit.gx (Unit.set_hp h1 a)) with (Unit.gx a) in *.
  change (Unit.gy (Unit.set_hp h1 a)) with (Unit.gy a) in *.
  fold dest in Hblk, Hfree.
  change (pos (Unit.set_hp h2 c)) with (pos c).
  change (Unit.action (Unit.set_hp h2 c)) with (Unit.action c).
  change (Unit.target (Unit.set_hp h2 c)) with (Unit.target c).
  split_and!; try done.
  intros Hne Hwalk. destruct (Hblk Hne Hwalk) as [Hw ->].
  split; [exact Hw|]. done.
Qed.

(** C9.  A unit of [state.units] in the [move] action with a cell as target,
    in a state with distinct identifiers below [nextUnitId].  Its step goes
    to the next cell on the axis of the larger absolute delta, the vertical
    one on a tie.  [w] is the world when the loop of [processActions] reaches
    the unit: the cell is tested against the terrain and the units of the
    registry of that moment.  For the unit with its identifier after the
    pass: if the unit was not on its target and the cell is occupied or not
    walkable, the iteration changes nothing and the unit has kept its
    position, its [move] action and its target; if the cell is walkable the
    unit stands on it; a unit already on its target has not moved; and the
    action is [noop] exactly when the unit stands on its target, the [move]
    order being kept otherwise.  The same holds after the whole tick, with
    one exception: on a cycle that is a multiple of 5 the opponent's script
    may already have given a new order to a unit of player 2 that arrived.
    And the unit is in [state.units] after the pass and after the tick
    whenever no unit was attacking it. *)
Theorem move_resolution s i a tx ty :
  ids_fresh s →
  units s !! i = Some a →
  Unit.action a = move →
  Unit.target a = cell_ tx ty →
  let w := resolve_upto (grid s) i (enter s) in
  let dest :=
    if Z.abs (tx - Unit.gx a) >? Z.abs (ty - Unit.gy a)
    then (Unit.gx a + Z.sgn (tx - Unit.gx a), Unit.gy a)
    else (Unit.gx a, Unit.gy a + Z.sgn (ty - Unit.gy a)) in
  (∀ u, u ∈ units (processActions s) → Unit.id u = Unit.id a →
     (pos a ≠ (tx, ty) → isWalkable (grid s) (registry w) dest.1 dest.2 = false →
        resolve (grid s) i w = w ∧
        pos u = pos a ∧ Unit.action u = move ∧ Unit.target u = cell_ tx ty) ∧
     (pos a ≠ (tx, ty) → isWalkable (grid s) (registry w) dest.1 dest.2 = true →
        pos u = dest) ∧
     (pos a = (tx, ty) → pos u = pos a) ∧
     (Unit.action u = noop ↔ pos u = (tx, ty)) ∧
     (Unit.action u ≠ noop → Unit.action u = move ∧ Unit.target u = cell_ tx ty)) ∧
  (∀ rnd u, u ∈ units (gameTick rnd s) → Unit.id u = Unit.id a →
     (pos a ≠ (tx, ty) → isWalkable (grid s) (registry w) dest.1 dest.2 = false →
        pos u = pos a ∧ Unit.action u = move ∧ Unit.target u = cell_ tx ty) ∧
     (pos a ≠ (tx, ty) → isWalkable (grid s) (registry w) dest.1 dest.2 = true →
        pos u = dest) ∧
     (pos a = (tx, ty) → pos u = pos a) ∧
     (Unit.action u = noop → pos u = (tx, ty)) ∧
     (pos u ≠ (tx, ty) → Unit.action u = move ∧ Unit.target u = cell_ tx ty) ∧
     (Unit.owner a ≠ 2 ∨ Z.rem (cycle s + 1) 5 ≠ 0 →
      pos u = (tx, ty) → Unit.action u = noop)) ∧
  ((∀ v, v ∈ units s → Unit.action v = attack → Unit.target v ≠ unit_ (Unit.id a)) →
   (∃ u, u ∈ units (processActions s) ∧ Unit.id u = Unit.id a) ∧
   (∀ rnd, ∃ u, u ∈ units (gameTick rnd s) ∧ Unit.id u = Unit.id a)).
Proof.
  intros [Hnd Hlt] Ha Hact Htgt w dest. split; [|split].
  - intros u Hu Hid. by apply (move_pass s i a tx ty u).
  - intros rnd u Hu Hid.
    pose proof (Forall_lookup_1 _ _ _ _ Hlt Ha) as Hida. simpl in Hida.
    destruct (tick_unit_source rnd s u Hu) as (v & Hv & Hidv & Hpos & _ & Hsrc); [lia|].
    assert (Unit.id v = Unit.id a) as Hidva by congruence.
    destruct (move_pass (bump_cycle s) i a tx ty v Hnd Ha Hact Htgt Hv Hidva)
      as (Hblk & Hfree & Hon & Hiff & Hkeep).
    destruct (pass_keeps_owner (bump_cycle s) i a v Hnd Ha Hv Hidva) as [Hown _].
    change (resolve_upto (grid (bump_cycle s)) i (enter (bump_cycle s))) with w
      in Hblk, Hfree.
    fold dest in Hblk, Hfree.
    rewrite Hpos.
    assert (Unit.action v ≠ noop → u = v) as Hsame.
    { intros Hn. by destruct Hsrc as [?|(_ & _ & ? & _)]. }
    split_and!.
    + intros Hne Hwalk. destruct (Hblk Hne Hwalk) as (_ & Hp & Hm & Ht).
      rewrite Hsame by (by rewrite Hm). done.
    + exact Hfree.
    + exact Hon.
    + intros Hidle. apply Hiff.
      destruct Hsrc as [->|(_ & _ & _ & [Hx|Hx])]; [done|congruence..].
    + intros Hne.
      assert (Unit.action v ≠ noop) as Hn by (by rewrite Hiff).
      rewrite (Hsame Hn). by apply Hkeep.
    + intros Hfree' Hat.
      destruct Hsrc as [->|(Hcad & Hown2 & _)]; [by apply Hiff|].
      destruct Hfree' as [Ho|Hc]; [congruence|done].
  - intros Hsafe. split; [by eapply survives_pass|].
    intros rnd. by eapply survives_tick.
Qed.

(** The exception at work.  The worker of [patrol] reaches its target on the
    fifth tick: the action pass leaves it idle on (10,15), and the opponent's
    script, which runs on that cycle, sends it on at once (here to (8,13), the
    draw being (0,0)), so that the tick ends with the unit on its former
    target and in the [move] action again. *)
Lemma arrival_then_new_order :
  let before := gameTicks (λ _, no_draw) 4 patrol in
  let draw : nat → option (Z * Z) := λ _, Some (0, 0) in
  units before = [Unit.mk 1 worker 2 10 14 1 1 move (cell_ 10 15) 0 0] ∧
  cycle before = 4 ∧
  units (processActions (bump_cycle before)) =
    [Unit.mk 1 worker 2 10 15 1 1 noop null 0 0] ∧
  units (gameTick draw before) =
    [Unit.mk 1 worker 2 10 15 1 1 move (cell_ 8 13) 0 0].
Proof. vm_compute. by repeat split. Qed.

(** ** Returning *)

Lemma deposits_app l a : deposits (l ++ [a]) = deposits l + deposit a.
Proof. unfold deposits. induction l as [|b l IH]; simpl; [lia|]. rewrite IH. lia. Qed.

(** What the iteration at an object adds to the gold. *)
Lemma resolve_gold g i w b :
  objs w !! i = Some b → w_gold (resolve g i w) = w_gold w + 25 * deposit b.
Proof.
  intros Hb. unfold resolve. rewrite Hb.
  unfold deposit, resolve_move, resolve_harvest, resolve_return, resolve_attack, try_move.
  destruct (Unit.action b), (Unit.target b) as [|tx ty|tid]; simpl;
    repeat case_match; simpl; lia.
Qed.

Lemma pass_gold s k :
  (k <= length (units s))%nat →
  w_gold (resolve_upto (grid s) k (enter s)) = gold s + 25 * deposits (take k (units s)).
Proof.
  induction k as [|k IH]; intros Hk.
  - change (resolve_upto (grid s) 0 (enter s)) with (enter s). simpl. lia.
  - destruct (lookup_lt_is_Some_2 (units s) k) as [a Ha]; [lia|].
    destruct (frame_fold (grid s) (seq 0 k) (enter s) k a) as (b & Hb & [h ->]);
      [rewrite elem_of_seq; lia | done |].
    fold (resolve_upto (grid s) k (enter s)) in Hb.
    rewrite resolve_upto_S, (resolve_gold _ _ _ _ Hb), IH by lia.
    rewrite (take_S_r _ _ _ Ha), deposits_app.
    change (deposit (Unit.set_hp h a)) with (deposit a). lia.
Qed.

Lemma processActions_gold s : gold (processActions s) = gold s + 25 * deposits (units s).
Proof.
  unfold processActions. simpl. rewrite pass_gold by done. by rewrite firstn_all.
Qed.

Lemma gameTick_gold rnd s : gold (gameTick rnd s) = gold s + 25 * deposits (units s).
Proof.
  destruct (accounts_after_pass rnd (processActions (bump_cycle s))) as (Hg & _).
  unfold gameTick, updateUI. simpl.
  destruct (static_updateFog
              (processProduction (processAI rnd (processActions (bump_cycle s)))))
    as (_ & _ & _ & _ & -> & _).
  rewrite Hg. apply (processActions_gold (bump_cycle s)).
Qed.

Lemma return_pass s i a tx ty u :
  NoDup (Unit.id <$> units s) →
  units s !! i = Some a →
  Unit.action a = return_ →
  Unit.target a = cell_ tx ty →
  u ∈ units (processActions s) → Unit.id u = Unit.id a →
  let w := resolve_upto (grid s) i (enter s) in
  let dest :=
    if Z.abs (tx - Unit.gx a) >? Z.abs (ty - Unit.gy a)
    then (Unit.gx a + Z.sgn (tx - Unit.gx a), Unit.gy a)
    else (Unit.gx a, Unit.gy a + Z.sgn (ty - Unit.gy a)) in
  (Z.abs (tx - Unit.gx a) + Z.abs (ty - Unit.gy a) <= 1 →
     Unit.carrying u = 0 ∧ Unit.action u = noop ∧ Unit.target u = null ∧
     pos u = pos a) ∧
  (1 < Z.abs (tx - Unit.gx a) + Z.abs (ty - Unit.gy a) →
     Unit.carrying u = Unit.carrying a ∧
     Unit.action u = return_ ∧ Unit.target u = cell_ tx ty ∧
     pos u = if isWalkable (grid s) (registry w) dest.1 dest.2 then dest else pos a).
Proof.
  intros Hnd Ha Hact Htgt Hu Hid w dest.
  destruct (pass_turn s i a u Hnd Ha Hu Hid) as (b & c & Hb & [h1 ->] & Hc & [h2 ->]).
  fold w in Hb, Hc.
  destruct (return_step (grid s) w i _ tx ty Hb Hact Htgt) as [Hnear Hfar].
  rewrite axis_step_spec in Hfar.
  change (Unit.gx (Unit.set_hp h1 a)) with (Unit.gx a) in *.
  change (Unit.gy (Unit.set_hp h1 a)) with (Unit.gy a) in *.
  change (pos (Unit.set_hp h1 a)) with (pos a) in *.
  fold dest in Hfar.
  split.
  - intros Hd. destruct (Hnear Hd) as (Hc' & _).
    rewrite Hc in Hc'. injection Hc' as ->. done.
  - intros Hd. destruct (Hfar Hd) as (_ & u' & Hu' & Hcar & Hact' & Htgt' & Hpos).
    rewrite Hc in Hu'. injection Hu' as <-. done.
Qed.

(** C6, as the engine has it.  A unit of [state.units] in the [return]
    action with a cell as target, in a state with distinct identifiers below
    [nextUnitId]; [w] is the world when the loop of [processActions] reaches
    it.  The pass, and the whole tick, add to [state.resources.gold], the
    only pool the engine keeps, 25 times what was carried by the units that
    were in [return] at Manhattan distance at most 1 from their target, and
    nothing else.  At distance at most 1 the unit is one of them: its
    iteration adds 25 per carried resource, and the unit with its identifier
    after the pass carries 0 and is idle with no target, where it stood (after
    the tick too, save that the opponent's script may have given a unit of
    player 2 a new order on a cycle that is a multiple of 5).  At a greater
    distance the unit deposits nothing and keeps what it carries, its action
    and its target; it stands on the next cell on the axis of the larger
    absolute delta (the vertical one on a tie) if that cell was walkable when
    its turn came, and where it stood if not.  And the unit is in
    [state.units] after the pass and after the tick whenever no unit was
    attacking it. *)
Theorem return_resolution s i a tx ty :
  ids_fresh s →
  units s !! i = Some a →
  Unit.action a = return_ →
  Unit.target a = cell_ tx ty →
  let d := Z.abs (tx - Unit.gx a) + Z.abs (ty - Unit.gy a) in
  let w := resolve_upto (grid s) i (enter s) in
  let dest :=
    if Z.abs (tx - Unit.gx a) >? Z.abs (ty - Unit.gy a)
    then (Unit.gx a + Z.sgn (tx - Unit.gx a), Unit.gy a)
    else (Unit.gx a, Unit.gy a + Z.sgn (ty - Unit.gy a)) in
  gold (processActions s) = gold s + 25 * deposits (units s) ∧
  (∀ rnd, gold (gameTick rnd s) = gold s + 25 * deposits (units s)) ∧
  (d <= 1 →
     deposit a = Unit.carrying a ∧
     w_gold (resolve (grid s) i w) = w_gold w + 25 * Unit.carrying a ∧
     (∀ u, u ∈ units (processActions s) → Unit.id u = Unit.id a →
        Unit.carrying u = 0 ∧ Unit.action u = noop ∧ Unit.target u = null ∧
        pos u = pos a) ∧
     (∀ rnd u, u ∈ units (gameTick rnd s) → Unit.id u = Unit.id a →
        Unit.carrying u = 0 ∧ pos u = pos a ∧
        (Unit.owner a ≠ 2 ∨ Z.rem (cycle s + 1) 5 ≠ 0 →
         Unit.action u = noop ∧ Unit.target u = null))) ∧
  (1 < d →
     deposit a = 0 ∧
     w_gold (resolve (grid s) i w) = w_gold w ∧
     (∀ u, u ∈ units (processActions s) → Unit.id u = Unit.id a →
        Unit.carrying u = Unit.carrying a ∧
        Unit.action u = return_ ∧ Unit.target u = cell_ tx ty ∧
        pos u = if isWalkable (grid s) (registry w) dest.1 dest.2
                then dest else pos a) ∧
     (∀ rnd u, u ∈ units (gameTick rnd s) → Unit.id u = Unit.id a →
        Unit.carrying u = Unit.carrying a ∧
        Unit.action u = return_ ∧ Unit.target u = cell_ tx ty ∧
        pos u = if isWalkable (grid s) (registry w) dest.1 dest.2
                then dest else pos a)) ∧
  ((∀ v, v ∈ units s → Unit.action v = attack → Unit.target v ≠ unit_ (Unit.id a)) →
   (∃ u, u ∈ units (processActions s) ∧ Unit.id u = Unit.id a) ∧
   (∀ rnd, ∃ u, u ∈ units (gameTick rnd s) ∧ Unit.id u = Unit.id a)).
Proof.
  intros [Hnd Hlt] Ha Hact Htgt d w dest.
  pose proof (Forall_lookup_1 _ _ _ _ Hlt Ha) as Hida. simpl in Hida.
  assert (i < length (units s))%nat as Hi by (by eapply lookup_lt_Some).
  destruct (frame_fold (grid s) (seq 0 i) (enter s) i a) as (b & Hb & [h ->]);
    [rewrite elem_of_seq; lia | done |].
  fold (resolve_upto (grid s) i (enter s)) in Hb. fold w in Hb.
  pose proof (resolve_gold (grid s) i w _ Hb) as Hgold.
  change (deposit (Unit.set_hp h a)) with (deposit a) in Hgold.
  split; [apply processActions_gold|]. split; [intros rnd; apply gameTick_gold|].
  split; [|split].
  - intros Hd.
    assert (deposit a = Unit.carrying a) as Hdep.
    { unfold deposit. rewrite Hact, Htgt.
      by destruct (Z.leb_spec (Z.abs (tx - Unit.gx a) + Z.abs (ty - Unit.gy a)) 1);
        [|unfold d in Hd; lia]. }
    split; [exact Hdep|]. split; [by rewrite Hgold, Hdep|]. split.
    + intros u Hu Hid.
      by destruct (return_pass s i a tx ty u Hnd Ha Hact Htgt Hu Hid) as [Hnear _];
        apply Hnear.
    + intros rnd u Hu Hid.
      destruct (tick_unit_source rnd s u Hu) as (v & Hv & Hidv & Hpos & Hcar & Hsrc);
        [lia|].
      assert (Unit.id v = Unit.id a) as Hidva by congruence.
      destruct (return_pass (bump_cycle s) i a tx ty v Hnd Ha Hact Htgt Hv Hidva)
        as [Hnear _].
      destruct (Hnear Hd) as (Hc0 & Hn & Ht & Hp).
      destruct (pass_keeps_owner (bump_cycle s) i a v Hnd Ha Hv Hidva) as [Hown _].
      split; [congruence|]. split; [congruence|].
      intros Hfree. destruct Hsrc as [->|(Hcad & Hown2 & _)]; [done|].
      destruct Hfree as [Ho|Hc]; [congruence|done].
  - intros Hd.
    assert (deposit a = 0) as Hdep.
    { unfold deposit. rewrite Hact, Htgt.
      by destruct (Z.leb_spec (Z.abs (tx - Unit.gx a) + Z.abs (ty - Unit.gy a)) 1);
        [unfold d in Hd; lia|]. }
    split; [exact Hdep|]. split; [rewrite Hgold, Hdep; lia|]. split.
    + intros u Hu Hid.
      by destruct (return_pass s i a tx ty u Hnd Ha Hact Htgt Hu Hid) as [_ Hfar];
        apply Hfar.
    + intros rnd u Hu Hid.
      destruct (tick_unit_source rnd s u Hu) as (v & Hv & Hidv & Hpos & Hcar & Hsrc);
        [lia|].
      assert (Unit.id v = Unit.id a) as Hidva by congruence.
      destruct (return_pass (bump_cycle s) i a tx ty v Hnd Ha Hact Htgt Hv Hidva)
        as [_ Hfar].
      destruct (Hfar Hd) as (Hc0 & Hn & Ht & Hp).
      assert (u = v) as ->.
      { destruct Hsrc as [?|(_ & _ & Hidle & _)]; [done|congruence]. }
      done.
  - intros Hsafe. split; [by eapply survives_pass|].
    intros rnd. by eapply survives_tick.
Qed.

(** ** Attacking *)

(** The attacker's own object after its iteration, case by case. *)
Lemma attacker_after g w i b tid j t :
  objs w !! i = Some b →
  Unit.action b = attack →
  Unit.target b = unit_ tid →
  tid ≠ 0 →
  find_ref (λ t, Unit.id t =? tid) (objs w) (live w) = Some (j, t) →
  (Unit.hp t <=? 0)%float = false →
  let h := (Unit.hp t - damage (Unit.type b))%float in
  let range := Def.range (CONFIG.UNIT_TYPES (Unit.type b)) in
  let free := isWalkable g (registry w) (chase_step b t).1 (chase_step b t).2 in
  ∃ c, objs (resolve g i w) !! i = Some c ∧
    (manhattan b t <= range → (h <=? 0)%float = false →
       pos c = pos b ∧ Unit.action c = attack ∧ Unit.target c = unit_ tid) ∧
    (manhattan b t <= range → (h <=? 0)%float = true →
       pos c = pos b ∧ Unit.action c = noop ∧ Unit.target c = null) ∧
    (range < manhattan b t →
       pos c = (if free then chase_step b t else pos b) ∧
       Unit.action c = attack ∧ Unit.target c = unit_ tid).
Proof.
  intros Hb Hact Htgt Hid Hfind Hhp h range free.
  destruct (attack_step g w i b tid j t Hb Hact Htgt Hid Hfind Hhp)
    as (Hhit & Hkill & Hchase).
  fold h in Hhit, Hkill. fold range in Hhit, Hkill, Hchase. fold free in Hchase.
  destruct (Z.le_gt_cases (manhattan b t) range) as [Hin|Hout].
  - destruct (h <=? 0)%float eqn:Hh.
    + rewrite (Hkill Hin eq_refl). simpl. rewrite list_lookup_alter_eq.
      destruct (decide (j = i)) as [->|Hne].
      * rewrite list_lookup_alter_eq, Hb. simpl. eexists. split; [done|].
        split_and!; try done; intros; lia.
      * rewrite list_lookup_alter_ne, Hb by done. simpl. eexists. split; [done|].
        split_and!; try done; intros; lia.
    + rewrite (Hhit Hin eq_refl). simpl.
      destruct (decide (j = i)) as [->|Hne].
      * rewrite list_lookup_alter_eq, Hb. simpl. eexists. split; [done|].
        split_and!; try done; intros; lia.
      * rewrite list_lookup_alter_ne, Hb by done. eexists. split; [done|].
        split_and!; try done; intros; lia.
  - rewrite (Hchase Hout). destruct free.
    + rewrite lookup_mutate, Hb. simpl. eexists. split; [done|].
      split_and!; try done; try (intros; lia).
    + exists b. split; [done|]. split_and!; try done; intros; lia.
Qed.

(** The heavy unit deals 4 * 0.2 per tick.  The hit points of the light
    unit are 2, then 1.2, then 0.39999999999999991 (the doubles
    [0x1.3333333333333p+0] and [0x1.9999999999998p-2]), and on the third tick
    the subtraction gives a negative number: the light unit is gone, one
    explosion and one combat line have been emitted, the attacker is idle;
    nothing more is emitted afterwards. *)
Lemma heavy_kills_light_on_third_tick :
  let after n := gameTicks (λ _, no_draw) n siege in
  Def.attack (CONFIG.UNIT_TYPES heavy) = 4 ∧
  Def.range (CONFIG.UNIT_TYPES heavy) = 1 ∧
  roster siege = [(1, 4%float); (2, 2%float)] ∧
  roster (after 1%nat) = [(1, 4%float); (2, 0x1.3333333333333p+0%float)] ∧
  roster (after 2%nat) = [(1, 4%float); (2, 0x1.9999999999998p-2%float)] ∧
  roster (after 3%nat) = [(1, 4%float)] ∧
  events (after 2%nat) = [] ∧
  events (after 3%nat) = [emitExplosion 6 5; log_destroyed heavy light] ∧
  Unit.action <$> units (after 3%nat) !! 0%nat = Some noop ∧
  events (after 10%nat) = [emitExplosion 6 5; log_destroyed heavy light].
Proof. vm_compute. by repeat split. Qed.

(** The doubles at work: a worker deals 1 * 0.2 per tick to a worker with 1
    hit point.  Five subtractions of the double nearest to 0.2 leave
    [0x1p-54], about 5.55e-17, which is not [<= 0]: the victim is still in
    [state.units] after the fifth hit and is removed by the sixth. *)
Lemma worker_falls_on_sixth_hit :
  let after n := gameTicks (λ _, no_draw) n skirmish in
  Def.attack (CONFIG.UNIT_TYPES worker) = 1 ∧
  roster skirmish = [(1, 1%float); (2, 1%float)] ∧
  roster (after 4%nat) = [(1, 1%float); (2, 0x1.999999999999cp-3%float)] ∧
  roster (after 5%nat) = [(1, 1%float); (2, 0x1p-54%float)] ∧
  roster (after 6%nat) = [(1, 1%float)] ∧
  events (after 5%nat) = [] ∧
  events (after 6%nat) = [emitExplosion 6 5; log_destroyed worker worker].
Proof. vm_compute. by repeat split. Qed.

(** C7.  An attacker of [state.units], in a state with distinct identifiers
    below [nextUnitId]; [w] is the world when the loop of [processActions]
    reaches it, and [t] the unit of the registry of that moment that carries
    the target identifier, with hit points that are not [<= 0].  The damage
    is the product of doubles [attack * 0.2], [0.2] being
    [0x1.999999999999ap-3], and the subtraction and the test [<= 0] are
    those of binary64.  Within range (Manhattan distance at most [range]) the
    target's hit points become [hp - attack * 0.2].  If that is not [<= 0],
    registry and events are unchanged and the attacker keeps its cell and its
    order through the pass and the tick.  If it is [<= 0], no unit with the
    target's identifier is left in the registry, nor in [state.units] after
    the pass, nor after the tick; exactly one explosion and one combat line
    are appended to the events; and the attacker is idle with no target, on
    its cell (after the tick too, unless the opponent's script has given a
    unit of player 2 a new order on a cycle that is a multiple of 5).  Out of
    range the attacker's cell after the pass and after the tick is
    [(gx + sgn dx, gy + sgn dy)], both axes at once, if that cell was walkable
    when its turn came; if not, the iteration changes nothing at all and the
    attacker stays on its cell; in both cases it keeps its order.  The
    attacker is in [state.units] after the pass and after the tick whenever
    no unit was attacking it.  And the heavy unit of [siege] (attack 4, range 1) destroys the light one
    (2 hit points) on the third tick, not before, with a single kill
    event. *)
Theorem attack_resolution :
  (∀ s i a tid j t,
     ids_fresh s →
     units s !! i = Some a →
     Unit.action a = attack →
     Unit.target a = unit_ tid →
     tid ≠ 0 →
     let w := resolve_upto (grid s) i (enter s) in
     find_ref (λ t, Unit.id t =? tid) (objs w) (live w) = Some (j, t) →
     (Unit.hp t <=? 0)%float = false →
     let h := (Unit.hp t
               - float_of_Z (Def.attack (CONFIG.UNIT_TYPES (Unit.type a)))
                 * 0x1.999999999999ap-3)%float in
     let range := Def.range (CONFIG.UNIT_TYPES (Unit.type a)) in
     let dist := Z.abs (Unit.gx t - Unit.gx a) + Z.abs (Unit.gy t - Unit.gy a) in
     let dest := (Unit.gx a + Z.sgn (Unit.gx t - Unit.gx a),
                  Unit.gy a + Z.sgn (Unit.gy t - Unit.gy a)) in
     let free := isWalkable (grid s) (registry w) dest.1 dest.2 in
     let w' := resolve (grid s) i w in
     (dist <= range →
        Unit.hp <$> objs w' !! j = Some h ∧
        ((h <=? 0)%float = false →
           live w' = live w ∧ w_events w' = w_events w ∧
           (∀ u, u ∈ units (processActions s) → Unit.id u = Unit.id a →
              pos u = pos a ∧ Unit.action u = attack ∧ Unit.target u = unit_ tid) ∧
           (∀ rnd u, u ∈ units (gameTick rnd s) → Unit.id u = Unit.id a →
              pos u = pos a ∧ Unit.action u = attack ∧ Unit.target u = unit_ tid)) ∧
        ((h <=? 0)%float = true →
           (∀ x, x ∈ registry w' → Unit.id x ≠ Unit.id t) ∧
           (∀ x, x ∈ units (processActions s) → Unit.id x ≠ Unit.id t) ∧
           (∀ rnd x, x ∈ units (gameTick rnd s) → Unit.id x ≠ Unit.id t) ∧
           Unit.action <$> objs w' !! i = Some noop ∧
           Unit.target <$> objs w' !! i = Some null ∧
           (∀ u, u ∈ units (processActions s) → Unit.id u = Unit.id a →
              pos u = pos a ∧ Unit.action u = noop ∧ Unit.target u = null) ∧
           (∀ rnd u, u ∈ units (gameTick rnd s) → Unit.id u = Unit.id a →
              pos u = pos a ∧
              (Unit.owner a ≠ 2 ∨ Z.rem (cycle s + 1) 5 ≠ 0 →
               Unit.action u = noop ∧ Unit.target u = null)) ∧
           w_events w' =
             w_events w ++ [emitExplosion (Unit.gx t) (Unit.gy t);
                            log_destroyed (Unit.type a) (Unit.type t)])) ∧
     (range < dist →
        w' = (if free then mutate i (Unit.set_pos dest.1 dest.2) w else w) ∧
        (free = false → w' = w) ∧
        (∀ u, u ∈ units (processActions s) → Unit.id u = Unit.id a →
           pos u = (if free then dest else pos a) ∧
           Unit.action u = attack ∧ Unit.target u = unit_ tid) ∧
        (∀ rnd u, u ∈ units (gameTick rnd s) → Unit.id u = Unit.id a →
           pos u = (if free then dest else pos a) ∧
           Unit.action u = attack ∧ Unit.target u = unit_ tid)) ∧
     ((∀ v, v ∈ units s → Unit.action v = attack → Unit.target v ≠ unit_ (Unit.id a)) →
      (∃ u, u ∈ units (processActions s) ∧ Unit.id u = Unit.id a) ∧
      (∀ rnd, ∃ u, u ∈ units (gameTick rnd s) ∧ Unit.id u = Unit.id a))) ∧
  (let after n := gameTicks (λ _, no_draw) n siege in
   Def.attack (CONFIG.UNIT_TYPES heavy) = 4 ∧
   Def.range (CONFIG.UNIT_TYPES heavy) = 1 ∧
   roster siege = [(1, 4%float); (2, 2%float)] ∧
   roster (after 1%nat) = [(1, 4%float); (2, 0x1.3333333333333p+0%float)] ∧
   roster (after 2%nat) = [(1, 4%float); (2, 0x1.9999999999998p-2%float)] ∧
   roster (after 3%nat) = [(1, 4%float)] ∧
   events (after 2%nat) = [] ∧
   events (after 3%nat) = [emitExplosion 6 5; log_destroyed heavy light] ∧
   Unit.action <$> units (after 3%nat) !! 0%nat = Some noop ∧
   events (after 10%nat) = [emitExplosion 6 5; log_destroyed heavy light]).
Proof.
  split; [|exact heavy_kills_light_on_third_tick].
  intros s i a tid j t [Hnd Hlt] Ha Hact Htgt Hid w Hfind Hhp h range dist dest free w'.
  subst w'.
  pose proof (Forall_lookup_1 _ _ _ _ Hlt Ha) as Hida. simpl in Hida.
  assert (i < length (units s))%nat as Hi by (by eapply lookup_lt_Some).
  destruct (frame_fold (grid s) (seq 0 i) (enter s) i a) as (b & Hb & [h1 ->]);
    [rewrite elem_of_seq; lia | done |].
  fold (resolve_upto (grid s) i (enter s)) in Hb. fold w in Hb.
  destruct (attack_step (grid s) w i _ tid j t Hb Hact Htgt Hid Hfind Hhp)
    as (Hhit & Hkill & Hchase).
  destruct (attacker_after (grid s) w i _ tid j t Hb Hact Htgt Hid Hfind Hhp)
    as (c & Hc & Hc_hit & Hc_kill & Hc_chase).
  change (damage (Unit.type (Unit.set_hp h1 a))) with
    (float_of_Z (Def.attack (CONFIG.UNIT_TYPES (Unit.type a)))
     * 0x1.999999999999ap-3)%float in *.
  change (manhattan (Unit.set_hp h1 a) t) with dist in *.
  change (Def.range (CONFIG.UNIT_TYPES (Unit.type (Unit.set_hp h1 a)))) with range in *.
  change (chase_step (Unit.set_hp h1 a) t) with dest in *.
  change (pos (Unit.set_hp h1 a)) with (pos a) in *.
  change (Unit.type (Unit.set_hp h1 a)) with (Unit.type a) in *.
  fold h in Hhit, Hkill, Hc_hit, Hc_kill. fold free in Hchase, Hc_chase.
  pose proof (find_ref_Some _ _ _ _ _ Hfind) as (Hj & Hjt & _).
  (* the attacker after the pass and after the tick *)
  assert (∀ u, u ∈ units (processActions s) → Unit.id u = Unit.id a →
            ∃ h2, u = Unit.set_hp h2 c) as Hpass.
  { intros u Hu Hidu.
    destruct (pass_turn s i a u Hnd Ha Hu Hidu) as (b' & c' & _ & _ & Hc' & [h2 ->]).
    fold w in Hc'. rewrite Hc in Hc'. injection Hc' as <-. eauto. }
  assert (∀ rnd u, u ∈ units (gameTick rnd s) → Unit.id u = Unit.id a →
            ∃ v h2, v = Unit.set_hp h2 c ∧ pos u = pos v ∧
              (u = v ∨ (Z.rem (cycle s + 1) 5 = 0 ∧ Unit.owner a = 2 ∧
                        Unit.action v = noop))) as Htick.
  { intros rnd u Hu Hidu.
    destruct (tick_unit_source rnd s u Hu) as (v & Hv & Hidv & Hpos & _ & Hsrc); [lia|].
    assert (Unit.id v = Unit.id a) as Hidva by congruence.
    destruct (pass_turn (bump_cycle s) i a v Hnd Ha Hv Hidva)
      as (b' & c' & _ & _ & Hc' & [h2 ->]).
    change (resolve (grid (bump_cycle s)) i
              (resolve_upto (grid (bump_cycle s)) i (enter (bump_cycle s))))
      with (resolve (grid s) i w) in Hc'.
    rewrite Hc in Hc'. injection Hc' as <-.
    destruct (pass_keeps_owner (bump_cycle s) i a _ Hnd Ha Hv Hidva) as [Hown _].
    exists (Unit.set_hp h2 c), h2. split; [done|]. split; [done|].
    destruct Hsrc as [?|(Hcad & Ho & Hn & _)]; [by left|right].
    split; [done|]. split; [congruence|done]. }
  split; [|split].
  - intros Hin. split_and!.
    + destruct (h <=? 0)%float eqn:Hh.
      * rewrite (Hkill Hin eq_refl). simpl.
        destruct (decide (i = j)) as [->|Hne].
        -- by rewrite !list_lookup_alter_eq, Hjt.
        -- rewrite list_lookup_alter_ne by done.
           by rewrite list_lookup_alter_eq, Hjt.
      * rewrite (Hhit Hin eq_refl). simpl.
        by rewrite list_lookup_alter_eq, Hjt.
    + intros Hh. destruct (Hc_hit Hin Hh) as (Hp & Hact' & Htgt').
      split_and!.
      * by rewrite (Hhit Hin Hh).
      * by rewrite (Hhit Hin Hh).
      * intros u Hu Hidu. by destruct (Hpass u Hu Hidu) as [h2 ->].
      * intros rnd u Hu Hidu.
        destruct (Htick rnd u Hu Hidu) as (v & h2 & -> & Hpos & [->|(_ & _ & Hn)]);
          [done|]. simpl in Hn. congruence.
    + intros Hh. destruct (Hc_kill Hin Hh) as (Hp & Hact' & Htgt').
      assert (∀ x, x ∈ registry (resolve (grid s) i w) → Unit.id x ≠ Unit.id t) as Hgone.
      { by apply (kill_removes (grid s) w i _ tid j t Hb Hact Htgt Hid Hfind Hhp). }
      assert (∀ x, x ∈ units (processActions s) → Unit.id x ≠ Unit.id t) as Hgone'.
      { unfold processActions. simpl.
        rewrite (resolve_upto_split (grid s) i (length (units s)) (enter s) Hi).
        by apply gone_for_good. }
      split_and!.
      * exact Hgone.
      * exact Hgone'.
      * intros rnd x Hx Hidx.
        assert (Unit.id t < nextUnitId s) as Hidt.
        { pose proof (pass_heap_ids s i) as Hids. fold w in Hids.
          apply (f_equal (λ l, l !! j)) in Hids.
          rewrite !list_lookup_fmap, Hjt in Hids. simpl in Hids.
          destruct (units s !! j) as [t0|] eqn:Ht0; [|done].
          injection Hids as ->.
          apply (Forall_lookup_1 _ _ _ _ Hlt Ht0). }
        destruct (tick_unit_source rnd s x Hx) as (v & Hv & Hidv & _); [lia|].
        assert (∀ y, y ∈ units (processActions (bump_cycle s)) →
                     Unit.id y ≠ Unit.id t) as Hgone''.
        { unfold processActions. simpl.
          rewrite (resolve_upto_split (grid s) i (length (units s))
                     (enter (bump_cycle s)) Hi).
          by apply gone_for_good. }
        apply (Hgone'' v Hv). congruence.
      * by rewrite Hc; simpl; rewrite Hact'.
      * by rewrite Hc; simpl; rewrite Htgt'.
      * intros u Hu Hidu. by destruct (Hpass u Hu Hidu) as [h2 ->].
      * intros rnd u Hu Hidu.
        destruct (Htick rnd u Hu Hidu) as (v & h2 & -> & Hpos & Hsrc).
        split; [by rewrite Hpos|].
        intros Hfree. destruct Hsrc as [->|(Hcad & Hown2 & _)]; [done|].
        destruct Hfree as [Ho|Hcd]; [congruence|done].
      * by rewrite (Hkill Hin Hh).
  - intros Hout. destruct (Hc_chase Hout) as (Hp & Hact' & Htgt').
    split_and!.
    + exact (Hchase Hout).
    + intros Hblocked. rewrite (Hchase Hout). by rewrite Hblocked.
    + intros u Hu Hidu. by destruct (Hpass u Hu Hidu) as [h2 ->].
    + intros rnd u Hu Hidu.
      destruct (Htick rnd u Hu Hidu) as (v & h2 & -> & Hpos & [->|(_ & _ & Hn)]);
        [done|]. simpl in Hn. congruence.
  - intros Hsafe. split; [by eapply survives_pass|].
    intros rnd. by eapply survives_tick.
Qed.

(** ** The orders at work on the scenarios *)

Lemma marching_ids_fresh : ids_fresh marching.
Proof. apply ids_fresh_alt. split; apply (bool_decide_unpack _); by vm_compute. Qed.

(** Worker 2 of [marching], on (2,1) and sent to (6,1), is there after the
    tick, on (3,1) and still moving. *)
Lemma move_resolution_witness :
  ids_fresh marching ∧
  (∀ rnd, ∃ u, u ∈ units (gameTick rnd marching) ∧ Unit.id u = 2) ∧
  ∀ rnd u, u ∈ units (gameTick rnd marching) → Unit.id u = 2 →
           pos u = (3, 1) ∧ Unit.action u = move ∧ Unit.target u = cell_ 6 1.
Proof.
  split; [exact marching_ids_fresh|].
  destruct (move_resolution marching 1
              (Unit.mk 2 worker 1 2 1 1 1 move (cell_ 6 1) 0 0) 6 1
              marching_ids_fresh eq_refl eq_refl eq_refl) as (_ & Htick & Hthere).
  split.
  - apply Hthere.
    assert (Forall (λ v, Unit.action v = attack → Unit.target v ≠ unit_ 2)
              (units marching)) as Hnone
      by (vm_compute; repeat (constructor; [done|]); constructor).
    intros v Hv. exact (proj1 (Forall_forall _ _) Hnone v Hv).
  - intros rnd u Hu Hid.
    destruct (Htick rnd u Hu Hid) as (_ & Hfree & _ & _ & Hkeep & _).
    assert (pos u = (3, 1)) as Hpos.
    { apply Hfree; [by vm_compute | vm_compute; reflexivity]. }
    split; [exact Hpos|]. apply Hkeep. by rewrite Hpos.
Defined.

Lemma homecoming_ids_fresh : ids_fresh homecoming.
Proof. apply ids_fresh_alt. split; apply (bool_decide_unpack _); by vm_compute. Qed.

Lemma blocked_return_ids_fresh : ids_fresh blocked_return.
Proof. apply ids_fresh_alt. split; apply (bool_decide_unpack _); by vm_compute. Qed.

(** The worker of [homecoming], next to its base with 2 resources, brings in
    50 gold and is idle after the tick; the one of [blocked_return], two
    cells away with the next cell occupied, stays on (3,1) with its load. *)
Lemma return_resolution_witness :
  (gold (gameTick no_draw homecoming) = gold homecoming + 50 ∧
   ∀ rnd u, u ∈ units (gameTick rnd homecoming) → Unit.id u = 7 →
            Unit.carrying u = 0 ∧ Unit.action u = noop) ∧
  (gold (gameTick no_draw blocked_return) = gold blocked_return ∧
   ∀ rnd u, u ∈ units (gameTick rnd blocked_return) → Unit.id u = 7 →
            Unit.carrying u = 2 ∧ Unit.action u = return_ ∧ pos u = (3, 1)).
Proof.
  split.
  - destruct (return_resolution homecoming 6
                (Unit.mk 7 worker 1 1 0 1 1 return_ (cell_ 1 1) 0 2) 1 1
                homecoming_ids_fresh eq_refl eq_refl eq_refl)
      as (_ & Hgold & Hnear & _).
    split; [exact (Hgold no_draw)|].
    intros rnd u Hu Hid.
    destruct Hnear as (_ & _ & _ & Htick); [by vm_compute|].
    destruct (Htick rnd u Hu Hid) as (Hc & _ & Hidle).
    split; [exact Hc|]. apply Hidle. left. by vm_compute.
  - destruct (return_resolution blocked_return 6
                (Unit.mk 7 worker 1 3 1 1 1 return_ (cell_ 1 1) 0 2) 1 1
                blocked_return_ids_fresh eq_refl eq_refl eq_refl)
      as (_ & Hgold & _ & Hfar & _).
    split; [exact (Hgold no_draw)|].
    intros rnd u Hu Hid.
    destruct Hfar as (_ & _ & _ & Htick); [by vm_compute|].
    destruct (Htick rnd u Hu Hid) as (Hc & Ha & _ & Hpos).
    split; [exact Hc|]. split; [exact Ha|]. exact Hpos.
Defined.

Lemma siege_ids_fresh : ids_fresh (gameTicks (λ _, no_draw) 2 siege).
Proof. apply ids_fresh_alt. split; apply (bool_decide_unpack _); by vm_compute. Qed.

(** The third tick of [siege]: the light unit, down to 0.39999999999999991
    hit points, is in no [state.units] the tick can end with. *)
Lemma attack_resolution_witness :
  ids_fresh (gameTicks (λ _, no_draw) 2 siege) ∧
  ∀ rnd x, x ∈ units (gameTick rnd (gameTicks (λ _, no_draw) 2 siege)) →
           Unit.id x ≠ 2.
Proof.
  split; [exact siege_ids_fresh|].
  destruct attack_resolution as [Hturn _].
  destruct (Hturn (gameTicks (λ _, no_draw) 2 siege) 0%nat
              (Unit.mk 1 heavy 1 5 5 4 4 attack (unit_ 2) 0 0) 2 1%nat
              (Unit.mk 2 light 2 6 5 0x1.9999999999998p-2 2 noop null 0 0)
              siege_ids_fresh eq_refl eq_refl eq_refl ltac:(done) eq_refl eq_refl)
    as [Hin _].
  destruct Hin as (_ & _ & Hkill); [by vm_compute|].
  destruct Hkill as (_ & _ & Hgone & _); [reflexivity|].
  exact Hgone.
Defined.
